(** * Cost tree: the row reducer of [dataProcessor.ts] and the category
      indexer of [App.tsx]

    The development embeds [processData] (the reducer over the rows, with
    its cursor [currentNode], and the [calculateTotal] finalisation pass)
    and [extractCategories] (the category indexer), and states the
    properties of the aggregation engine over that embedding.  It goes on
    with what the application does with the tree: the category filter of
    [App.tsx] ([displayData] and the labels of its options) and, from
    [ThreeTree], the colour of a ratio and the test that makes a branch
    a leaf.

    JavaScript numbers are IEEE-754 binary64 values; they are modelled by
    [spec_float] with precision 53 and maximal exponent 1024, so that every
    addition rounds exactly as the program's does.  [parseFloat] and [trim]
    belong to the runtime and follow ECMAScript.  A row is an object from
    column headers to cell texts, as the CSV reader of the application
    hands them over. *)

From Stdlib Require Import ZArith Lia String Ascii List.
From Stdlib Require Import Floats.SpecFloat.
From stdpp Require Import base option list strings gmap.

Local Open Scope string_scope.
Local Open Scope list_scope.
Local Open Scope Z_scope.

(** ** JavaScript numbers *)

Module Number.

Definition prec : Z := 53.
Definition emax : Z := 1024.

(** A JavaScript [number]. *)
Definition t : Type := spec_float.

Definition zero : t := S754_zero false.
Definition nan : t := S754_nan.

(** [x + y] *)
Definition add (x y : t) : t := SFadd prec emax x y.

(** [x > y]; false as soon as one side is [NaN]. *)
Definition gt (x y : t) : bool := SFltb y x.

(** [x === y] on numbers: [NaN] differs from itself, [+0] equals [-0]. *)
Definition strict_eq (x y : t) : bool := SFeqb x y.

(** ToBoolean on numbers: [+0], [-0] and [NaN] are falsy. *)
Definition truthy (x : t) : bool :=
  match x with
  | S754_zero _ | S754_nan => false
  | _ => true
  end.

(** [x || y] on numbers. *)
Definition or_else (x y : t) : t := if truthy x then x else y.

(** The number whose value is the integer [z], rounded to nearest even
    when [z] needs more than 53 bits. *)
Definition of_Z (z : Z) : t := binary_normalize prec emax z 0 false.

(** The integer part of a finite number (0 for the others). *)
Definition to_Z (x : t) : Z :=
  match x with
  | S754_finite s m e => cond_Zopp s (Z.shiftl (Z.pos m) e)
  | _ => 0
  end.

(** The least exponent of a number. *)
Definition emin : Z := SpecFloat.emin prec emax.

(** The exponent of [x], when [x] is finite and not 0, is not below
    [emin]. *)
Definition bounded_below (x : t) : Prop :=
  match x with
  | S754_finite _ _ e => emin <= e
  | _ => True
  end.

Definition neg_zero : t := S754_zero true.

(** The representation of the integer [(-1)^s * v] when [v] is below
    [2^53]: a 53-bit mantissa and the exponent that goes with it. *)
Definition canonical (s : bool) (v : positive) : t :=
  let d := Z.pos (digits2_pos v) in
  S754_finite s (Z.to_pos (Z.pos v * 2 ^ (prec - d))) (d - prec).

Definition eq_dec (x y : t) : {x = y} + {x <> y}.
Proof.
  decide equality; try apply Bool.bool_dec;
    try apply Z.eq_dec; apply Pos.eq_dec.
Defined.

(** [x] holds an integer in its canonical representation. *)
Definition is_int (x : t) : bool :=
  if eq_dec x (of_Z (to_Z x)) then true else false.

(** The number nearest to [(-1)^neg * m * 10^e10], for a decimal
    significand [m] and a decimal exponent [e10]: one rounding of the
    exact value, to nearest with ties to even.  (ECMAScript lets an
    implementation round a literal of more than 20 significant digits
    less precisely; the engines round it exactly, as here.) *)
Definition of_decimal (neg : bool) (m : N) (e10 : Z) : t :=
  match m with
  | N0 => S754_zero neg
  | Npos p =>
      if 0 <=? e10 then
        binary_normalize prec emax
          (cond_Zopp neg (Z.pos p * 10 ^ e10)) 0 false
      else
        let '(q, e, l) :=
          SFdiv_core_binary prec emax (Z.pos p) 0 (10 ^ (- e10)) 0 in
        binary_round_aux prec emax neg q e l
  end.

End Number.

Abbreviation number := Number.t.
Infix "⊕" := Number.add (at level 50, left associativity).

(** ** JavaScript strings

    A string is kept as its UTF-8 text; the white space of [trim] and of
    [parseFloat] is the ECMAScript [WhiteSpace] and [LineTerminator] set,
    matched on its UTF-8 encodings. *)

Module JS.

(** UTF-8 encodings of the white space code points: TAB, LF, VT, FF, CR,
    SP, U+00A0, U+1680, U+2000..U+200A, U+2028, U+2029, U+202F, U+205F,
    U+3000 and U+FEFF. *)
Definition bytes (l : list N) : string :=
  string_of_list_ascii (List.map ascii_of_N l).

Definition whiteSpaceBytes : list (list N) :=
  ([ [9]; [10]; [11]; [12]; [13]; [32]; [194; 160]; [225; 154; 128] ]
   ++ List.map (fun b => [226; 128; b])
        [128; 129; 130; 131; 132; 133; 134; 135; 136; 137; 138;
         168; 169; 175]
   ++ [ [226; 129; 159]; [227; 128; 128]; [239; 187; 191] ])%N%list.

Definition whiteSpace : list string := List.map bytes whiteSpaceBytes.

(** [strip_prefix p s] is what follows [p] in [s] when [s] starts with
    [p]. *)
Fixpoint strip_prefix (p s : string) : option string :=
  match p, s with
  | EmptyString, _ => Some s
  | String a p', String b s' =>
      if Ascii.eqb a b then strip_prefix p' s' else None
  | String _ _, EmptyString => None
  end.

(** The rest of [s] after one leading white space character, if any. *)
Definition strip_space (s : string) : option string :=
  List.fold_right
    (fun w acc =>
       match strip_prefix w s with Some r => Some r | None => acc end)
    None whiteSpace.

(** [s.trimStart()]; the fuel is the length of [s], one unit per
    character removed. *)
Fixpoint trimStart_fuel (fuel : nat) (s : string) : string :=
  match fuel with
  | O => s
  | S fuel' =>
      match strip_space s with
      | Some r => trimStart_fuel fuel' r
      | None => s
      end
  end.

Definition trimStart (s : string) : string :=
  trimStart_fuel (String.length s) s.

Definition rev_string (s : string) : string :=
  string_of_list_ascii (List.rev (list_ascii_of_string s)).

(** The rest of [s] before one trailing white space character, if any;
    [r] is [s] reversed. *)
Definition strip_space_end (r : string) : option string :=
  List.fold_right
    (fun w acc =>
       match strip_prefix (rev_string w) r with
       | Some r' => Some r'
       | None => acc
       end)
    None whiteSpace.

Fixpoint trimEnd_fuel (fuel : nat) (r : string) : string :=
  match fuel with
  | O => r
  | S fuel' =>
      match strip_space_end r with
      | Some r' => trimEnd_fuel fuel' r'
      | None => r
      end
  end.

Definition trimEnd (s : string) : string :=
  rev_string (trimEnd_fuel (String.length s) (rev_string s)).

(** [s.trim()] *)
Definition trim (s : string) : string := trimEnd (trimStart s).

(** *** [parseFloat] *)

Definition is_digit (a : ascii) : bool :=
  let n := N_of_ascii a in ((48 <=? n) && (n <=? 57))%N.

Definition digit_value (a : ascii) : N := (N_of_ascii a - 48)%N.

(** The longest run of decimal digits at the start of [s], as its value
    continuing from [acc], its number of digits, and the rest. *)
Fixpoint digits (acc : N) (s : string) : N * nat * string :=
  match s with
  | String a s' =>
      if is_digit a then
        let '(v, n, r) := digits (10 * acc + digit_value a)%N s' in
        (v, S n, r)
      else (acc, O, s)
  | EmptyString => (acc, O, s)
  end.

(** [ExponentPart]: [e] or [E], an optional sign, and at least one
    digit; when the text does not continue with one, the literal ends
    before it and the exponent is 0. *)
Definition exponentPart (s : string) : Z :=
  match s with
  | String a s' =>
      if Ascii.eqb a "e" || Ascii.eqb a "E" then
        let '(neg, s'') :=
          match s' with
          | String b t =>
              if Ascii.eqb b "-" then (true, t)
              else if Ascii.eqb b "+" then (false, t)
              else (false, s')
          | EmptyString => (false, s')
          end in
        let '(v, n, _) := digits 0 s'' in
        match n with
        | O => 0
        | S _ => cond_Zopp neg (Z.of_N v)
        end
      else 0
  | EmptyString => 0
  end.

(** [StrUnsignedDecimalLiteral], on the longest prefix of [s] that is
    one; [NaN] when no prefix is. *)
Definition unsignedDecimalLiteral (neg : bool) (s : string) : number :=
  match strip_prefix "Infinity" s with
  | Some _ => S754_infinity neg
  | None =>
      let '(ip, n1, r1) := digits 0 s in
      let '(m, n2, r3) :=
        match r1 with
        | String a r2 =>
            if Ascii.eqb a "." then digits ip r2 else (ip, O, r1)
        | EmptyString => (ip, O, r1)
        end in
      match n1, n2 with
      | O, O => Number.nan
      | _, _ => Number.of_decimal neg m (exponentPart r3 - Z.of_nat n2)
      end
  end.

(** [parseFloat(s)] for a string [s]: leading white space is skipped,
    then an optional sign and the literal are read. *)
Definition parseFloat_string (s : string) : number :=
  match trimStart s with
  | String a r =>
      if Ascii.eqb a "-" then unsignedDecimalLiteral true r
      else if Ascii.eqb a "+" then unsignedDecimalLiteral false r
      else unsignedDecimalLiteral false (String a r)
  | EmptyString => unsignedDecimalLiteral false EmptyString
  end.

(** [parseFloat(v)] for a cell [v] that is a string or [undefined]: the
    argument goes through ToString first. *)
Definition parseFloat (v : option string) : number :=
  parseFloat_string (default "undefined" v).

End JS.

(** ** The data model of [dataProcessor.ts] *)

(** [interface CostNode]; [cost] is the cost explicitly assigned to the
    node, [totalCost] the aggregated cost.  The optional [color] is never
    set by the builder and is left out. *)
#[local] Unset Elimination Schemes.
Inductive CostNode : Type :=
  mkCostNode {
    name : string;
    level : Z;
    cost : number;
    children : list CostNode;
    totalCost : number
  }.
#[local] Set Elimination Schemes.

(** A parsed CSV row: an object from column headers to cell texts. *)
Abbreviation Row := (gmap string string).

Definition levelKeys : list string :=
  [ "一级类目"; "二级类目"; "三级类目"; "四级类目"; "五级类目"; "六级类目" ].

Definition costKey : string := "成本".

(** The [root] literal of [processData]. *)
Definition root : CostNode :=
  {| name := "Total"; level := 0; cost := Number.zero; children := [];
     totalCost := Number.zero |}.

(** The literal pushed for a child that [find] did not return. *)
Definition newChild (nm : string) (lvl : Z) : CostNode :=
  {| name := nm; level := lvl; cost := Number.zero; children := [];
     totalCost := Number.zero |}.

(** [parseFloat(row['成本']) || 0] *)
Definition rowCost (row : Row) : number :=
  Number.or_else (JS.parseFloat (row !! costKey)) Number.zero.

(** [row[key]?.toString().trim()]; [None] is [undefined]. *)
Definition rowName (row : Row) (key : string) : option string :=
  JS.trim <$> row !! key.

(** [!name || name === ''] *)
Definition isBlank (nm : option string) : bool :=
  match nm with
  | None => true
  | Some s => if decide (s = "") then true else false
  end.

(** [children.find((c) => c.name === name)]: the first child of that
    name, with its position. *)
Definition findChild (nm : string) (cs : list CostNode)
  : option (nat * CostNode) :=
  list_find (λ c, name c = nm) cs.

(** [node.cost += cost] *)
Definition addCost (c : number) (node : CostNode) : CostNode :=
  {| name := name node; level := level node; cost := cost node ⊕ c;
     children := children node; totalCost := totalCost node |}.

Definition setChildren (cs : list CostNode) (node : CostNode) : CostNode :=
  {| name := name node; level := level node; cost := cost node;
     children := cs; totalCost := totalCost node |}.

(** *** The cursor

    [currentNode] is a reference into the tree under [root]: it is kept as
    the positions to follow from the root, child after child. *)

(** The node the cursor is on. *)
Fixpoint nodeOn (cur : list nat) (tree : CostNode) : option CostNode :=
  match cur with
  | [] => Some tree
  | j :: cur' =>
      match children tree !! j with
      | Some child => nodeOn cur' child
      | None => None
      end
  end.

(** An assignment through the cursor: the node it is on becomes [f] of
    itself, in its place in the tree. *)
Fixpoint assignOn (cur : list nat) (f : CostNode → CostNode)
    (tree : CostNode) : CostNode :=
  match cur with
  | [] => f tree
  | j :: cur' =>
      match children tree !! j with
      | Some child =>
          setChildren (<[j := assignOn cur' f child]> (children tree)) tree
      | None => tree
      end
  end.

(** [currentNode.children.push(child)] *)
Definition pushChild (child : CostNode) (node : CostNode) : CostNode :=
  setChildren (children node ++ [child]) node.

(** The [for] loop of a row from its iteration [i] on, followed by
    [currentNode.cost += cost]: [keys] are the level keys from [i] on,
    [tree] is the tree under [root] and [cur] the cursor [currentNode].
    The result is the tree under [root] after the assignment.  (The
    cursor is always on a node; the last branch is never taken.) *)
Fixpoint forLoop (row : Row) (c : number) (keys : list string) (i : Z)
    (tree : CostNode) (cur : list nat) : CostNode :=
  match keys with
  | [] => assignOn cur (addCost c) tree
  | key :: keys' =>
      let nm := rowName row key in
      if isBlank nm then assignOn cur (addCost c) tree
      else
        match nm, nodeOn cur tree with
        | Some nm, Some currentNode =>
            match findChild nm (children currentNode) with
            | Some (j, _) => forLoop row c keys' (i + 1) tree (cur ++ [j])
            | None =>
                forLoop row c keys' (i + 1)
                  (assignOn cur (pushChild (newChild nm (i + 1))) tree)
                  (cur ++ [length (children currentNode)])
            end
        | _, _ => tree
        end
  end.

(** One iteration of [data.forEach]: [let currentNode = root], the loop,
    and the addition of the cost. *)
Definition processRow (tree : CostNode) (row : Row) : CostNode :=
  forLoop row (rowCost row) levelKeys 0 tree [].

(** The tree when [data.forEach] returns. *)
Definition ingest (data : list Row) : CostNode :=
  fold_left processRow data root.

(** [children.reduce((sum, child) => sum + calculateTotal(child), 0)],
    on the children once their own totals are set. *)
Definition childrenSum (cs : list CostNode) : number :=
  fold_left (λ sum child, sum ⊕ totalCost child) cs Number.zero.

(** [calculateTotal]: the node with [totalCost] set in its whole subtree;
    the number the source returns is the [totalCost] of the result. *)
Fixpoint calculateTotal (node : CostNode) : CostNode :=
  let cs := calculateTotal <$> children node in
  {| name := name node; level := level node; cost := cost node;
     children := cs; totalCost := cost node ⊕ childrenSum cs |}.

Definition processData (data : list Row) : CostNode :=
  calculateTotal (ingest data).

(** ** The category indexer of [App.tsx] *)

Module CategoryOption.
Record t : Type := mk {
  level : Z;
  name : string;
  path : list string;
  node : CostNode
}.
End CategoryOption.

(** [path.join(' > ')] *)
Fixpoint join (sep : string) (path : list string) : string :=
  match path with
  | [] => ""
  | [s] => s
  | s :: path' => s +:+ sep +:+ join sep path'
  end.

(** [extractCategories(node, path)], as the options it pushes, in the
    order of the pushes. *)
Fixpoint extractCategories (node : CostNode) (path : list string)
  : list CategoryOption.t :=
  (if (1 <=? level node) && (level node <=? 3)
      && Number.gt (totalCost node) Number.zero
   then
     let currentPath := path ++ [name node] in
     [ CategoryOption.mk (level node) (join " > " currentPath)
         currentPath node ]
   else [])
  ++ (if level node <? 3
      then flat_map (λ child, extractCategories child (path ++ [name node]))
             (children node)
      else []).

(** The options pushed by [data.children.forEach(child =>
    extractCategories(child, []))]. *)
Definition index (data : CostNode) : list CategoryOption.t :=
  flat_map (λ child, extractCategories child []) (children data).

(** [categoryOptions] for a loaded tree: the entry of the root, then the
    indexed categories. *)
Definition categoryOptions (data : CostNode) : list CategoryOption.t :=
  CategoryOption.mk 0 "全部（根节点）" [] data :: index data.

(** ** Reading a tree *)

(** Every node of the tree under [node], [node] first (pre-order). *)
Fixpoint subtrees (node : CostNode) : list CostNode :=
  node :: flat_map subtrees (children node).

(** The node reached from [node] by following the names of [p], each
    resolved as the builder resolves it: the first child of that name. *)
Fixpoint nodeAt (p : list string) (node : CostNode) : option CostNode :=
  match p with
  | [] => Some node
  | nm :: p' =>
      match findChild nm (children node) with
      | Some (_, child) => nodeAt p' child
      | None => None
      end
  end.

(** The [cost] and the [totalCost] of the node a path leads to. *)
Definition costAt (p : list string) (node : CostNode) : option number :=
  cost <$> nodeAt p node.

Definition totalAt (p : list string) (node : CostNode) : option number :=
  totalCost <$> nodeAt p node.

(** Pre-order listing of the subtree of [node] with the path of names
    leading to each node; [path] is the path of the parent. *)
Fixpoint preorder (path : list string) (node : CostNode)
  : list (list string * CostNode) :=
  (path ++ [name node], node)
  :: flat_map (preorder (path ++ [name node])) (children node).

(** The nodes below the root, in pre-order, with their paths. *)
Definition descendants (data : CostNode) : list (list string * CostNode) :=
  flat_map (preorder []) (children data).

(** The option pushed for the node [pn.2] reached by the path [pn.1]. *)
Definition optionOf (pn : list string * CostNode) : CategoryOption.t :=
  CategoryOption.mk (level pn.2) (join " > " pn.1) pn.1 pn.2.

(** The filter of the indexer: level within 1..3 and a positive total. *)
Definition listed (node : CostNode) : bool :=
  (1 <=? level node) && (level node <=? 3)
  && Number.gt (totalCost node) Number.zero.

(** ** Reading a row *)

(** The names the walk of a row follows: the trimmed level cells up to
    the first blank one. *)
Fixpoint rowPathFrom (row : Row) (keys : list string) : list string :=
  match keys with
  | [] => []
  | key :: keys' =>
      match rowName row key with
      | Some nm =>
          if isBlank (Some nm) then [] else nm :: rowPathFrom row keys'
      | None => []
      end
  end.

Definition rowPath (row : Row) : list string := rowPathFrom row levelKeys.

(** The loop of a row as a descent from the node the cursor is on: the
    child found is replaced, in its place, by the descent from it; a child
    not found is pushed, then descended from. *)
Fixpoint walk (row : Row) (c : number) (keys : list string) (i : Z)
    (currentNode : CostNode) : CostNode :=
  match keys with
  | [] => addCost c currentNode
  | key :: keys' =>
      match rowName row key with
      | Some nm =>
          if isBlank (Some nm) then addCost c currentNode
          else
            match findChild nm (children currentNode) with
            | Some (j, child) =>
                setChildren
                  (<[j := walk row c keys' (i + 1) child]>
                     (children currentNode))
                  currentNode
            | None =>
                setChildren
                  (children currentNode
                     ++ [walk row c keys' (i + 1) (newChild nm (i + 1))])
                  currentNode
            end
      | None => addCost c currentNode
      end
  end.

(** The walk of a row, on the names it follows. *)
Fixpoint insertPath (p : list string) (c : number) (i : Z)
    (currentNode : CostNode) : CostNode :=
  match p with
  | [] => addCost c currentNode
  | nm :: p' =>
      match findChild nm (children currentNode) with
      | Some (j, child) =>
          setChildren
            (<[j := insertPath p' c (i + 1) child]> (children currentNode))
            currentNode
      | None =>
          setChildren
            (children currentNode
               ++ [insertPath p' c (i + 1) (newChild nm (i + 1))])
            currentNode
      end
  end.

(** The left-to-right sum of the costs of [rows], as [+=] accumulates
    them from the initial [0]. *)
Definition sumCosts (rows : list Row) : number :=
  fold_left (λ sum row, sum ⊕ rowCost row) rows Number.zero.

(** The rows whose walk ends exactly at the path [q]. *)
Definition rowsAt (q : list string) (rows : list Row) : list Row :=
  filter (λ row, rowPath row = q) rows.

(** The rows whose walk passes through the path [q]. *)
Definition rowsThrough (q : list string) (rows : list Row) : list Row :=
  filter (λ row, q `prefix_of` rowPath row) rows.

(** The names met in [l], each at its first occurrence. *)
Definition firstSeen (l : list string) : list string :=
  fold_left (λ acc x, if decide (x ∈ acc) then acc else acc ++ [x]) l [].

(** The name a row follows just below the path [q], when its walk goes
    through [q] and further. *)
Definition nextName (q : list string) (row : Row) : option string :=
  if decide (q `prefix_of` rowPath row) then rowPath row !! length q
  else None.

(** The last name of a path (the name of the node it leads to). *)
Definition lastName (q : list string) : string := default "" (last q).

(** The node at [q], or the fresh child the builder would push for it. *)
Definition nodeOr (q : list string) (tree : CostNode) : CostNode :=
  default (newChild (lastName q) (Z.of_nat (length q))) (nodeAt q tree).

(** Some walk of [rows] passes through [q]; the root is always there. *)
Definition reached (q : list string) (rows : list Row) : Prop :=
  q = [] ∨ Exists (λ row, q `prefix_of` rowPath row) rows.

(** ** Shape of a built tree *)

(** A node at depth [d] whose subtree has, at every node, the level equal
    to the depth and children of pairwise distinct names. *)
#[local] Unset Elimination Schemes.
Inductive Shaped : Z → CostNode → Prop :=
  | Shaped_node d node :
      level node = d →
      NoDup (name <$> children node) →
      Forall (Shaped (d + 1)) (children node) →
      Shaped d node.
#[local] Set Elimination Schemes.

(** ** Integer costs *)

(** The sum of the integer costs of a subtree, and of their absolute
    values. *)
Fixpoint treeSum (node : CostNode) : Z :=
  Number.to_Z (cost node)
  + fold_right (λ child acc, treeSum child + acc) 0 (children node).

Fixpoint treeAbs (node : CostNode) : Z :=
  Z.abs (Number.to_Z (cost node))
  + fold_right (λ child acc, treeAbs child + acc) 0 (children node).

(** Every cost of the subtree is an integer. *)
Fixpoint intCosts (node : CostNode) : bool :=
  Number.is_int (cost node) && forallb intCosts (children node).

(** The amount of every row is an integer. *)
Definition intRows (rows : list Row) : Prop :=
  Forall (λ row, Number.is_int (rowCost row) = true) rows.

(** The sum, in [Z], of the amounts of the rows. *)
Definition rowsSum (rows : list Row) : Z :=
  foldr (λ row acc, Number.to_Z (rowCost row) + acc) 0 rows.

(** The sum, in [Z], of the absolute values of the amounts of the rows. *)
Definition rowsAbs (rows : list Row) : Z :=
  foldr (λ row acc, Z.abs (Number.to_Z (rowCost row)) + acc) 0 rows.

(** ** Reading an amount *)

(** A text made of decimal digits only. *)
Fixpoint allDigits (s : string) : bool :=
  match s with
  | EmptyString => true
  | String a s' => JS.is_digit a && allDigits s'
  end.

(** A text that cannot continue a run of digits into a longer number: it
    is empty, or starts with a character that is not a digit, a dot or an
    exponent mark. *)
Definition endsNumber (s : string) : bool :=
  match s with
  | EmptyString => true
  | String a _ =>
      negb (JS.is_digit a || Ascii.eqb a "." || Ascii.eqb a "e"
            || Ascii.eqb a "E")
  end.

(** ** Rows used in the scenarios *)

(** Two rows on the same path [Food > Lunch], of amounts 10 and 15. *)
Definition rowsLunch : list Row :=
  [ {[ "一级类目" := "Food"; "二级类目" := "Lunch"; "成本" := "10" ]};
    {[ "一级类目" := "Food"; "二级类目" := "Lunch"; "成本" := "15" ]} ].

(** A row whose second level is blank while its third is populated. *)
Definition rowBlankSecond : Row :=
  {[ "一级类目" := "A"; "二级类目" := ""; "三级类目" := "X"; "成本" := "10" ]}.

(** A row with no level at all: its amount goes to the root. *)
Definition rowNoLevel (amount : string) : Row := {[ "成本" := amount ]}.

(** A row whose amount is not a number. *)
Definition rowNotANumber : Row :=
  {[ "一级类目" := "A"; "二级类目" := "B"; "成本" := "N/A" ]}.

(** A row whose amount is a number followed by other characters. *)
Definition rowPrefixAmount : Row :=
  {[ "一级类目" := "A"; "成本" := "12abc" ]}.

(** The rows of the two-level scenario. *)
Definition rowsTwoLevel : list Row :=
  [ {[ "一级类目" := "Food"; "二级类目" := "Lunch"; "成本" := "50" ]};
    {[ "一级类目" := "Food"; "二级类目" := "Dinner"; "成本" := "80" ]};
    {[ "一级类目" := "Transport"; "成本" := "20" ]} ].

(** A row four levels deep. *)
Definition rowDeep : Row :=
  {[ "一级类目" := "A"; "二级类目" := "B"; "三级类目" := "C";
     "四级类目" := "D"; "成本" := "7" ]}.

(** Three rows with no level, of amounts 0.1, 0.2 and 0.3, and the same
    rows in the reverse order. *)
Definition rowsTenths : list Row :=
  [ rowNoLevel "0.1"; rowNoLevel "0.2"; rowNoLevel "0.3" ].

Definition rowsTenthsReversed : list Row :=
  [ rowNoLevel "0.3"; rowNoLevel "0.2"; rowNoLevel "0.1" ].

(** Three rows on the category "A", of amounts 0.1, 0.2 and 0.3, and the
    same rows in the reverse order. *)
Definition rowOn (nm amount : string) : Row :=
  {[ "一级类目" := nm; "成本" := amount ]}.

Definition rowsOnA : list Row :=
  [ rowOn "A" "0.1"; rowOn "A" "0.2"; rowOn "A" "0.3" ].

Definition rowsOnAReversed : list Row :=
  [ rowOn "A" "0.3"; rowOn "A" "0.2"; rowOn "A" "0.1" ].

(** ** The category filter of [App.tsx] *)

(** [categoryOptions], as the memo computes it from the state [data]
    ([None] is [null]: nothing is loaded yet). *)
Definition categoryOptionsOf (data : option CostNode)
  : list CategoryOption.t :=
  match data with
  | None => []
  | Some d => categoryOptions d
  end.

(** [categoryOptions.find(opt => opt.name === selectedCategory)] *)
Definition findOption (selectedCategory : string)
    (options : list CategoryOption.t) : option CategoryOption.t :=
  snd <$> list_find (λ opt, CategoryOption.name opt = selectedCategory)
            options.

(** The new root that [displayData] builds around the selected node. *)
Definition onlyChild (node : CostNode) : CostNode :=
  {| name := "Root"; level := 0; cost := Number.zero; children := [node];
     totalCost := totalCost node |}.

(** [displayData], from the states [data] and [selectedCategory]. *)
Definition displayData (data : option CostNode) (selectedCategory : string)
  : option CostNode :=
  match data with
  | None => None
  | Some d =>
      if decide (selectedCategory = "root") then Some d
      else
        match findOption selectedCategory (categoryOptionsOf data) with
        | None => Some d
        | Some selectedOption =>
            Some (onlyChild (CategoryOption.node selectedOption))
        end
  end.

(** [s.repeat(count)] for an integer [count]; [None] is the [RangeError]
    of a negative [count]. *)
Definition stringRepeat (s : string) (count : Z) : option string :=
  if count <? 0 then None
  else Some (String.concat "" (replicate (Z.to_nat count) s)).

(** The [indent] of the label of an option. *)
Definition indent (opt : CategoryOption.t) : option string :=
  if CategoryOption.level opt =? 0 then Some ""
  else
    (λ spaces, spaces +:+ "├─ ")
      <$> stringRepeat "　" (CategoryOption.level opt - 1).

(** The [displayName] of the label of an option; [None] is [undefined]. *)
Definition displayName (opt : CategoryOption.t) : option string :=
  if CategoryOption.level opt =? 0 then Some (CategoryOption.name opt)
  else last (CategoryOption.path opt).

(** ** Texts *)

(** The text [s] holds the character [c]. *)
Fixpoint hasChar (c : ascii) (s : string) : bool :=
  match s with
  | EmptyString => false
  | String a s' => Ascii.eqb a c || hasChar c s'
  end.

(** No name that a row gives to a node holds the character [>]. *)
Definition plainNames (rows : list Row) : Prop :=
  Forall (λ row, Forall (λ nm, hasChar ">" nm = false) (rowPath row)) rows.

(** ** Comparisons *)

(** [x <= y] *)
Definition lessEq (x y : number) : bool := SFleb x y.

(** [x >= 0] *)
Definition nonNegative (x : number) : bool := lessEq Number.zero x.

(** ** The colours of [ThreeTree] *)

(** [getCostColor(ratio, isLeaf)]; the thresholds are the numbers that
    the decimal literals of the source denote.  (A caller that leaves
    [isLeaf] out gets [false]; both callers pass it.) *)
Definition getCostColor (ratio : number) (isLeaf : bool) : string :=
  if isLeaf then
    if Number.gt ratio (Number.of_decimal false 15 (-2)) then "#ff6b6b"
    else if Number.gt ratio (Number.of_decimal false 8 (-2)) then "#ffa94d"
    else if Number.gt ratio (Number.of_decimal false 4 (-2)) then "#ffd43b"
    else if Number.gt ratio (Number.of_decimal false 2 (-2)) then "#a9e34b"
    else "#69db7c"
  else
    if Number.gt ratio (Number.of_decimal false 3 (-1)) then "#6366f1"
    else if Number.gt ratio (Number.of_decimal false 15 (-2)) then "#8b5cf6"
    else if Number.gt ratio (Number.of_decimal false 8 (-2)) then "#a78bfa"
    else "#c4b5fd".

(** The colours of the leaves and of the branches, from the one of the
    lowest ratios to the one of the highest. *)
Definition palette (isLeaf : bool) : list string :=
  if isLeaf then ["#69db7c"; "#a9e34b"; "#ffd43b"; "#ffa94d"; "#ff6b6b"]
  else ["#c4b5fd"; "#a78bfa"; "#8b5cf6"; "#6366f1"].

(** The place of a colour in its palette. *)
Definition colourRank (isLeaf : bool) (colour : string) : nat :=
  default 0%nat (fst <$> list_find (λ c, c = colour) (palette isLeaf)).

(** ** Leaves of [ThreeTree] *)

Module Branch.
(** [node.children.filter(c => c.totalCost > 0)] *)
Definition validChildren (node : CostNode) : list CostNode :=
  filter (λ c, Number.gt (totalCost c) Number.zero = true) (children node).

(** [validChildren.length === 0] *)
Definition isLeaf (node : CostNode) : bool :=
  bool_decide (length (validChildren node) = 0%nat).
End Branch.

Module NodeDetailPanel.
(** [node.children.length === 0] *)
Definition isLeaf (node : CostNode) : bool :=
  bool_decide (length (children node) = 0%nat).
End NodeDetailPanel.

(** ** Sums, as the specification writes them *)

(** The numbers of [l] added to [acc] one after the other, from the
    left. *)
Fixpoint sumFromLeft (acc : number) (l : list number) : number :=
  match l with
  | [] => acc
  | x :: l' => sumFromLeft (acc ⊕ x) l'
  end.

(** The sum of the [totalCost] of the children of a node, taken from 0 in
    the order of the children. *)
Definition sumOfChildTotals (node : CostNode) : number :=
  sumFromLeft Number.zero (totalCost <$> children node).

(** The sum of the integers of [l]. *)
Definition sumZ (l : list Z) : Z := foldr Z.add 0 l.

(** ** Further rows *)

(** A category whose own amount cancels the amount of its only
    sub-category. *)
Definition rowsCancelling : list Row :=
  [ {[ "一级类目" := "A"; "成本" := "-10" ]};
    {[ "一级类目" := "A"; "二级类目" := "B"; "成本" := "10" ]} ].

(** A row with white space around its name, another form of the same
    amount and a column that is not read; and the row it stands for. *)
Definition rowsSpaced : list Row :=
  [ {[ "一级类目" := " Food "; "成本" := "10.0"; "备注" := "x" ]} ].

Definition rowsPlain : list Row :=
  [ {[ "一级类目" := "Food"; "成本" := "10" ]} ].

(** Two rows whose paths differ and are joined into the same text. *)
Definition rowsSameJoin : list Row :=
  [ {[ "一级类目" := "A >"; "二级类目" := "B"; "成本" := "1" ]};
    {[ "一级类目" := "A"; "二级类目" := "> B"; "成本" := "2" ]} ].

(** A category with a sub-category of amount 0. *)
Definition rowsZeroChild : list Row :=
  [ {[ "一级类目" := "A"; "成本" := "5" ]};
    {[ "一级类目" := "A"; "二级类目" := "B"; "成本" := "0" ]} ].

(** Two categories whose amounts add up to [Infinity] for the one and to
    [-Infinity] for the other. *)
Definition rowsOverflow : list Row :=
  [ rowOn "A" "1e308"; rowOn "A" "1e308";
    rowOn "B" "-1e308"; rowOn "B" "-1e308" ].

(** * Properties *)

(** ** Induction on trees *)

Definition CostNode_ind (P : CostNode → Prop)
    (step : ∀ nm lvl c cs tc, Forall P cs → P (mkCostNode nm lvl c cs tc))
  : ∀ node, P node :=
  fix go node :=
    match node with
    | mkCostNode nm lvl c cs tc =>
        step nm lvl c cs tc
          ((fix all cs : Forall P cs :=
              match cs with
              | [] => List.Forall_nil P
              | child :: cs' =>
                  List.Forall_cons P child cs' (go child) (all cs')
              end) cs)
    end.

(** ** Finding a child by name *)

Lemma findChild_Some nm cs j c :
  findChild nm cs = Some (j, c) → name c = nm ∧ cs !! j = Some c.
Proof.
  unfold findChild. intros (? & ? & _)%list_find_Some. done.
Qed.

Lemma findChild_None nm cs :
  findChild nm cs = None ↔ nm ∉ name <$> cs.
Proof.
  unfold findChild. rewrite list_find_None, Forall_forall, list_elem_of_fmap.
  split.
  - intros Hall (child & -> & Hin). by apply (Hall child).
  - intros Hnot child Hin <-. apply Hnot. by exists child.
Qed.

Lemma findChild_insert_same nm cs j c c' :
  findChild nm cs = Some (j, c) → name c' = nm →
  findChild nm (<[j := c']> cs) = Some (j, c').
Proof.
  unfold findChild. revert j.
  induction cs as [|x cs IH]; intros j; csimpl; [done|].
  case_decide as Hx.
  - intros [= <- <-] Hc'. simpl. by rewrite decide_True.
  - destruct (list_find _ cs) as [[k y]|] eqn:Hf; [|done].
    intros [= <- <-] Hc'. simpl. rewrite decide_False by done.
    by rewrite (IH k) by done.
Qed.

Lemma findChild_insert_other nm nm' cs j c c' :
  nm' ≠ nm → cs !! j = Some c → name c = nm → name c' = nm →
  findChild nm' (<[j := c']> cs) = findChild nm' cs.
Proof.
  unfold findChild. intros Hne. revert j.
  induction cs as [|x cs IH]; intros [|j] Hj Hc Hc'; simplify_eq/=; [|].
  - rewrite !decide_False by congruence. done.
  - case_decide; [done|]. by erewrite IH.
Qed.

Lemma findChild_app_new nm cs c' :
  findChild nm cs = None → name c' = nm →
  findChild nm (cs ++ [c']) = Some (length cs, c').
Proof.
  unfold findChild. intros Hn Hc'. rewrite list_find_app_r by done.
  simpl. by rewrite decide_True.
Qed.

Lemma findChild_app_other nm' cs c' :
  name c' ≠ nm' → findChild nm' (cs ++ [c']) = findChild nm' cs.
Proof.
  unfold findChild. intros Hne.
  destruct (list_find _ cs) as [[k y]|] eqn:Hf.
  - by apply list_find_app_l.
  - rewrite list_find_app_r by done. simpl. by rewrite decide_False.
Qed.

(** ** The cursor *)

Lemma nodeOn_snoc cur j tree :
  nodeOn (cur ++ [j]) tree
  = match nodeOn cur tree with
    | Some node => children node !! j
    | None => None
    end.
Proof.
  revert tree. induction cur as [|j0 cur IH]; intros tree; simpl.
  - by destruct (children tree !! j).
  - destruct (children tree !! j0); [apply IH|done].
Qed.

Lemma assignOn_ext cur f g tree node :
  nodeOn cur tree = Some node → f node = g node →
  assignOn cur f tree = assignOn cur g tree.
Proof.
  revert tree. induction cur as [|j cur IH]; intros tree Hn Hfg; simpl in *.
  - by simplify_eq.
  - destruct (children tree !! j) as [child|]; [|done].
    by rewrite (IH child).
Qed.

Lemma assignOn_snoc cur j f tree :
  assignOn (cur ++ [j]) f tree = assignOn cur (assignOn [j] f) tree.
Proof.
  revert tree. induction cur as [|j0 cur IH]; intros tree; [done|].
  simpl. destruct (children tree !! j0) as [child|]; [|done].
  by rewrite IH.
Qed.

Lemma nodeOn_assignOn cur f tree :
  nodeOn cur (assignOn cur f tree) = f <$> nodeOn cur tree.
Proof.
  revert tree. induction cur as [|j cur IH]; intros tree; [done|].
  simpl. destruct (children tree !! j) as [child|] eqn:Hj; simpl.
  - rewrite list_lookup_insert_eq by by eapply lookup_lt_Some.
    apply IH.
  - by rewrite Hj.
Qed.

Lemma assignOn_assignOn cur f g tree :
  assignOn cur f (assignOn cur g tree) = assignOn cur (f ∘ g) tree.
Proof.
  revert tree. induction cur as [|j cur IH]; intros tree; [done|].
  simpl. destruct (children tree !! j) as [child|] eqn:Hj; simpl.
  - rewrite list_lookup_insert_eq by by eapply lookup_lt_Some.
    by rewrite list_insert_insert_eq, IH.
  - by rewrite Hj.
Qed.

(** The loop with its cursor is the descent from the node the cursor is
    on, assigned in its place. *)
Lemma forLoop_walk row c keys i tree cur node :
  nodeOn cur tree = Some node →
  forLoop row c keys i tree cur = assignOn cur (walk row c keys i) tree.
Proof.
  revert i tree cur node.
  induction keys as [|key keys IH]; intros i tree cur node Hn; [done|].
  cbn [forLoop walk]. destruct (rowName row key) as [nm|] eqn:Hr; [|done].
  destruct (isBlank (Some nm)) eqn:Hb; [done|]. rewrite Hn.
  destruct (findChild nm (children node)) as [[j child]|] eqn:Hf.
  - pose proof Hf as [_ Hj]%findChild_Some.
    rewrite (IH _ _ _ child) by by rewrite nodeOn_snoc, Hn.
    rewrite assignOn_snoc. apply (assignOn_ext _ _ _ _ node Hn).
    cbn [walk assignOn]. by rewrite ?Hr, ?Hb, Hf, Hj.
  - rewrite (IH _ _ _ (newChild nm (i + 1))).
    2:{ rewrite nodeOn_snoc, nodeOn_assignOn, Hn. simpl.
        by rewrite list_lookup_middle. }
    rewrite assignOn_snoc, assignOn_assignOn.
    apply (assignOn_ext _ _ _ _ node Hn).
    cbn [walk assignOn]. rewrite ?Hr, ?Hb, Hf. simpl.
    rewrite list_lookup_middle by done. unfold setChildren. simpl.
    by rewrite insert_app_r_alt, Nat.sub_diag by done.
Qed.

(** ** The walk of one row *)

Lemma walk_insertPath row c keys i node :
  walk row c keys i node = insertPath (rowPathFrom row keys) c i node.
Proof.
  revert i node. induction keys as [|key keys IH]; intros i node; [done|].
  cbn [walk rowPathFrom]. destruct (rowName row key) as [nm|]; [|done].
  destruct (isBlank (Some nm)); [done|]. cbn [insertPath].
  destruct (findChild nm (children node)) as [[j child]|]; by rewrite IH.
Qed.

Lemma insertPath_name p c i node : name (insertPath p c i node) = name node.
Proof.
  destruct p as [|nm p]; simpl; [done|].
  by destruct (findChild nm (children node)) as [[j child]|].
Qed.

Lemma insertPath_level p c i node :
  level (insertPath p c i node) = level node.
Proof.
  destruct p as [|nm p]; simpl; [done|].
  by destruct (findChild nm (children node)) as [[j child]|].
Qed.

Lemma insertPath_totalCost p c i node :
  totalCost (insertPath p c i node) = totalCost node.
Proof.
  destruct p as [|nm p]; simpl; [done|].
  by destruct (findChild nm (children node)) as [[j child]|].
Qed.

Lemma nodeAt_newChild q nm lvl :
  q ≠ [] → nodeAt q (newChild nm lvl) = None.
Proof. by destruct q. Qed.

Lemma lastName_cons x q : q ≠ [] → lastName (x :: q) = lastName q.
Proof. by destruct q. Qed.

(** The node at [q] after a walk along [p]: the walk continued from the
    node that was at [q] (or from the fresh child made for it) when [q] is
    on the way, the former node otherwise. *)
Lemma nodeAt_insertPath q p c i node :
  nodeAt q (insertPath p c i node) =
    if decide (q `prefix_of` p) then
      Some (insertPath (drop (length q) p) c (i + Z.of_nat (length q))
              (default (newChild (lastName q) (i + Z.of_nat (length q)))
                 (nodeAt q node)))
    else nodeAt q node.
Proof.
  revert p i node. induction q as [|x q IH]; intros p i node.
  - rewrite decide_True by apply prefix_nil. simpl.
    by rewrite Z.add_0_r.
  - destruct p as [|y p].
    { rewrite decide_False; [done|]. intros [k Hk]. done. }
    destruct (decide (x = y)) as [->|Hxy].
    + assert (Hshift : i + 1 + Z.of_nat (length q)
                       = i + Z.of_nat (length (y :: q)))
        by (simpl length; lia).
      simpl insertPath.
      destruct (findChild y (children node)) as [[j child]|] eqn:Hf.
      * simpl nodeAt at 1. simpl children.
        erewrite findChild_insert_same; [|done|by rewrite insertPath_name;
          apply findChild_Some in Hf as [? _]].
        rewrite IH. simpl nodeAt. rewrite Hf.
        destruct (decide (q `prefix_of` p)) as [Hp|Hp].
        -- rewrite decide_True by (by apply prefix_cons).
           simpl drop. rewrite Hshift.
           destruct (nodeAt q child) eqn:Hq; simpl; [done|].
           destruct q as [|z q]; [done|].
           by rewrite (lastName_cons y (z :: q)).
        -- rewrite decide_False; [done|].
           by intros ?%prefix_cons_inv_2.
      * simpl nodeAt at 1. simpl children.
        erewrite findChild_app_new; [|done|by rewrite insertPath_name].
        rewrite IH. simpl nodeAt. rewrite Hf. simpl default.
        destruct (decide (q `prefix_of` p)) as [Hp|Hp].
        -- rewrite decide_True by (by apply prefix_cons).
           simpl drop. rewrite Hshift.
           destruct q as [|z q]; simpl.
           ++ do 3 f_equal.
           ++ done.
        -- rewrite decide_False by (by intros ?%prefix_cons_inv_2).
           apply nodeAt_newChild. by intros ->; apply Hp, prefix_nil.
    + rewrite decide_False by (by intros ?%prefix_cons_inv_1).
      simpl insertPath.
      destruct (findChild y (children node)) as [[j child]|] eqn:Hf.
      * apply findChild_Some in Hf as [Hn Hj].
        simpl. erewrite findChild_insert_other; [done..|].
        by rewrite insertPath_name.
      * simpl. rewrite findChild_app_other; [done|].
        rewrite insertPath_name. simpl. congruence.
Qed.
Lemma cost_insertPath p c i node :
  cost (insertPath p c i node)
  = match p with [] => cost node ⊕ c | _ :: _ => cost node end.
Proof.
  destruct p as [|nm p]; simpl; [done|].
  by destruct (findChild nm (children node)) as [[j child]|].
Qed.

Lemma childNames_insertPath p c i node :
  name <$> children (insertPath p c i node)
  = match p with
    | [] => name <$> children node
    | nm :: _ =>
        if decide (nm ∈ name <$> children node)
        then name <$> children node
        else (name <$> children node) ++ [nm]
    end.
Proof.
  destruct p as [|nm p]; simpl; [done|].
  destruct (findChild nm (children node)) as [[j child]|] eqn:Hf; simpl.
  - pose proof Hf as [Hn Hj]%findChild_Some.
    rewrite decide_True.
    + rewrite list_fmap_insert, insertPath_name.
      apply list_insert_id. by rewrite list_lookup_fmap, Hj.
    + apply list_elem_of_fmap. exists child.
      split; [done|]. by eapply list_elem_of_lookup_2.
  - apply findChild_None in Hf. rewrite decide_False by done.
    by rewrite fmap_app, (fmap_cons name), insertPath_name.
Qed.

Lemma Shaped_inv d node :
  Shaped d node →
  level node = d ∧ NoDup (name <$> children node)
  ∧ Forall (Shaped (d + 1)) (children node).
Proof. by inversion 1. Qed.

Lemma Shaped_newChild nm d : Shaped d (newChild nm d).
Proof. constructor; simpl; [done|constructor|constructor]. Qed.

Lemma Shaped_insertPath p c i node :
  Shaped i node → Shaped i (insertPath p c i node).
Proof.
  revert i node. induction p as [|nm p IH]; intros i node Hs.
  - apply Shaped_inv in Hs as (Hl & Hn & Hc). by constructor.
  - pose proof (Shaped_inv _ _ Hs) as (Hl & Hn & Hc).
    constructor.
    + by rewrite insertPath_level.
    + rewrite childNames_insertPath. case_decide as Hin; [done|].
      apply NoDup_app. split_and!; [done| |apply NoDup_singleton].
      intros x Hx ->%list_elem_of_singleton. done.
    + simpl. destruct (findChild nm (children node)) as [[j child]|] eqn:Hf;
        simpl.
      * apply findChild_Some in Hf as [_ Hj].
        apply Forall_insert; [done|]. apply IH.
        by eapply Forall_lookup_1 in Hc.
      * apply Forall_app. split; [done|].
        apply Forall_singleton, IH, Shaped_newChild.
Qed.

(** ** The reducer over the rows *)

Lemma processRow_insertPath tree row :
  processRow tree row = insertPath (rowPath row) (rowCost row) 0 tree.
Proof.
  unfold processRow. rewrite (forLoop_walk _ _ _ _ _ _ tree) by done.
  apply walk_insertPath.
Qed.

Lemma ingest_snoc rows row :
  ingest (rows ++ [row]) = processRow (ingest rows) row.
Proof. unfold ingest. by rewrite fold_left_app. Qed.

Lemma ingest_Shaped rows : Shaped 0 (ingest rows).
Proof.
  induction rows as [|row rows IH] using rev_ind.
  - apply (Shaped_newChild "Total" 0).
  - rewrite ingest_snoc, processRow_insertPath. by apply Shaped_insertPath.
Qed.

Lemma ingest_name rows : name (ingest rows) = "Total".
Proof.
  induction rows as [|row rows IH] using rev_ind; [done|].
  by rewrite ingest_snoc, processRow_insertPath, insertPath_name.
Qed.

(** One more row: the node at [q] continues the walk when the row passes
    through [q], and is left alone otherwise. *)
Lemma nodeOr_ingest_snoc q rows row :
  nodeOr q (ingest (rows ++ [row])) =
    if decide (q `prefix_of` rowPath row) then
      insertPath (drop (length q) (rowPath row)) (rowCost row)
        (Z.of_nat (length q)) (nodeOr q (ingest rows))
    else nodeOr q (ingest rows).
Proof.
  unfold nodeOr.
  rewrite ingest_snoc, processRow_insertPath, nodeAt_insertPath.
  by case_decide.
Qed.

Lemma nodeAt_ingest_snoc_is_Some q rows row :
  is_Some (nodeAt q (ingest (rows ++ [row])))
  ↔ is_Some (nodeAt q (ingest rows)) ∨ q `prefix_of` rowPath row.
Proof.
  rewrite ingest_snoc, processRow_insertPath, nodeAt_insertPath.
  case_decide as Hp.
  - split; [by right|by eexists].
  - split; [by left|by intros [?|?]].
Qed.

Lemma reached_snoc q rows row :
  reached q (rows ++ [row]) ↔ reached q rows ∨ q `prefix_of` rowPath row.
Proof.
  unfold reached. rewrite Exists_app, Exists_cons, Exists_nil. tauto.
Qed.

(** The builder creates a node exactly for the root and for the prefixes
    of the paths of the rows. *)
Lemma nodeAt_ingest_is_Some q rows :
  is_Some (nodeAt q (ingest rows)) ↔ reached q rows.
Proof.
  induction rows as [|row rows IH] using rev_ind.
  - unfold reached. rewrite Exists_nil. destruct q; simpl.
    + split; [by left|by eexists].
    + split; [by intros []|by intros [|[]]].
  - by rewrite nodeAt_ingest_snoc_is_Some, reached_snoc, IH.
Qed.

Lemma sumCosts_snoc rows row :
  sumCosts (rows ++ [row]) = sumCosts rows ⊕ rowCost row.
Proof. unfold sumCosts. by rewrite fold_left_app. Qed.

Lemma prefix_drop_nil (q p : list string) :
  q `prefix_of` p → drop (length q) p = [] ↔ p = q.
Proof.
  intros [k ->]. rewrite drop_app_length. split.
  - intros ->. by rewrite app_nil_r.
  - intros Hk. apply (f_equal length) in Hk. rewrite length_app in Hk.
    destruct k; [done|simpl in Hk; lia].
Qed.

(** The cost of a node is the left-to-right sum of the costs of the rows
    whose walk ends at it. *)
Lemma cost_nodeOr_ingest q rows :
  cost (nodeOr q (ingest rows)) = sumCosts (rowsAt q rows).
Proof.
  induction rows as [|row rows IH] using rev_ind.
  - unfold nodeOr. by destruct q.
  - rewrite nodeOr_ingest_snoc. unfold rowsAt in *. rewrite filter_app.
    rewrite filter_cons, filter_nil.
    destruct (decide (q `prefix_of` rowPath row)) as [Hp|Hp].
    + rewrite cost_insertPath, IH.
      pose proof (prefix_drop_nil _ _ Hp) as Hd.
      destruct (drop (length q) (rowPath row)) eqn:Hdrop.
      * rewrite decide_True by by apply Hd.
        by rewrite sumCosts_snoc.
      * rewrite decide_False; [by rewrite app_nil_r|].
        intros Heq. by apply Hd in Heq.
    + rewrite decide_False; [by rewrite app_nil_r, IH|].
      intros Heq. apply Hp. by rewrite Heq.
Qed.
Lemma firstSeen_snoc l x :
  firstSeen (l ++ [x])
  = if decide (x ∈ firstSeen l) then firstSeen l else firstSeen l ++ [x].
Proof. unfold firstSeen. by rewrite fold_left_app. Qed.

Lemma nextName_Some q row nm :
  nextName q row = Some nm ↔
  q `prefix_of` rowPath row ∧ head (drop (length q) (rowPath row)) = Some nm.
Proof.
  unfold nextName. rewrite head_lookup, lookup_drop, Nat.add_0_r.
  case_decide as Hp.
  - split; [by intros ->|by intros [_ ?]].
  - split; [done|by intros [? _]].
Qed.

(** The children of a node are, in order, the names that the rows passing
    through it follow next, each at its first occurrence. *)
Lemma childNames_nodeOr_ingest q rows :
  name <$> children (nodeOr q (ingest rows))
  = firstSeen (omap (nextName q) rows).
Proof.
  induction rows as [|row rows IH] using rev_ind.
  - unfold nodeOr. by destruct q.
  - rewrite nodeOr_ingest_snoc, omap_app. simpl omap.
    destruct (decide (q `prefix_of` rowPath row)) as [Hp|Hp].
    + rewrite childNames_insertPath, IH.
      destruct (nextName q row) as [nm|] eqn:Hn.
      * apply nextName_Some in Hn as [_ Hn]. rewrite firstSeen_snoc.
        destruct (drop (length q) (rowPath row)); by simplify_eq/=.
      * rewrite app_nil_r.
        destruct (drop (length q) (rowPath row)) as [|nm l] eqn:Hd; [done|].
        assert (nextName q row = Some nm); [|congruence].
        apply nextName_Some. by rewrite Hd.
    + assert (nextName q row = None) as ->
        by (unfold nextName; by rewrite decide_False).
      by rewrite IH, app_nil_r.
Qed.

Lemma level_nodeOr_ingest q rows :
  level (nodeOr q (ingest rows)) = Z.of_nat (length q).
Proof.
  induction rows as [|row rows IH] using rev_ind.
  - unfold nodeOr. by destruct q.
  - rewrite nodeOr_ingest_snoc. case_decide; [|done].
    by rewrite insertPath_level.
Qed.

Lemma name_nodeOr_ingest q rows :
  q ≠ [] → name (nodeOr q (ingest rows)) = lastName q.
Proof.
  intros Hq. induction rows as [|row rows IH] using rev_ind.
  - unfold nodeOr. by destruct q.
  - rewrite nodeOr_ingest_snoc. case_decide; [|done].
    by rewrite insertPath_name.
Qed.

Lemma nodeOr_Some q tree node :
  nodeAt q tree = Some node → nodeOr q tree = node.
Proof. unfold nodeOr. by intros ->. Qed.

(** ** The finalisation pass *)

Lemma calculateTotal_name node : name (calculateTotal node) = name node.
Proof. by destruct node. Qed.

Lemma calculateTotal_level node : level (calculateTotal node) = level node.
Proof. by destruct node. Qed.

Lemma calculateTotal_cost node : cost (calculateTotal node) = cost node.
Proof. by destruct node. Qed.

Lemma calculateTotal_children node :
  children (calculateTotal node) = calculateTotal <$> children node.
Proof. by destruct node. Qed.

Lemma calculateTotal_totalCost node :
  totalCost (calculateTotal node)
  = cost node ⊕ childrenSum (calculateTotal <$> children node).
Proof. by destruct node. Qed.

Lemma calculateTotal_childNames node :
  name <$> children (calculateTotal node) = name <$> children node.
Proof.
  rewrite calculateTotal_children, <- list_fmap_compose.
  apply list_fmap_ext. intros _ child _. apply calculateTotal_name.
Qed.

Lemma findChild_calculateTotal nm cs :
  findChild nm (calculateTotal <$> cs)
  = prod_map id calculateTotal <$> findChild nm cs.
Proof.
  unfold findChild. rewrite list_find_fmap. f_equal.
  apply list_find_ext. intros child. simpl.
  by rewrite calculateTotal_name.
Qed.

Lemma nodeAt_calculateTotal q node :
  nodeAt q (calculateTotal node) = calculateTotal <$> nodeAt q node.
Proof.
  revert node. induction q as [|nm q IH]; intros node; [done|].
  simpl. rewrite calculateTotal_children, findChild_calculateTotal.
  destruct (findChild nm (children node)) as [[j child]|]; simpl; [|done].
  apply IH.
Qed.

Lemma costAt_calculateTotal q node :
  costAt q (calculateTotal node) = costAt q node.
Proof.
  unfold costAt. rewrite nodeAt_calculateTotal.
  destruct (nodeAt q node); simpl; [|done].
  by rewrite calculateTotal_cost.
Qed.

Lemma Shaped_calculateTotal d node :
  Shaped d node → Shaped d (calculateTotal node).
Proof.
  revert d. induction node as [nm lvl c cs tc IH] using CostNode_ind.
  intros d (Hl & Hn & Hc)%Shaped_inv. constructor.
  - by rewrite calculateTotal_level.
  - by rewrite calculateTotal_childNames.
  - rewrite calculateTotal_children. simpl in *.
    apply Forall_fmap. rewrite Forall_forall in IH, Hc.
    apply Forall_forall. intros child Hin. by apply IH, Hc.
Qed.

Lemma processData_Shaped rows : Shaped 0 (processData rows).
Proof. apply Shaped_calculateTotal, ingest_Shaped. Qed.

(** Every node of a finalised tree carries the sum of its own cost and of
    the totals of its children. *)
Lemma calculateTotal_subtrees node :
  Forall (λ m, totalCost m = cost m ⊕ childrenSum (children m))
    (subtrees (calculateTotal node)).
Proof.
  induction node as [nm lvl c cs tc IH] using CostNode_ind.
  simpl. constructor; [done|].
  apply Forall_forall. intros m [child [Hc Hm]]%list_elem_of_In%in_flat_map.
  apply list_elem_of_In, list_elem_of_fmap in Hc as (child' & -> & Hin).
  rewrite Forall_forall in IH. specialize (IH child' Hin).
  rewrite Forall_forall in IH. by apply IH, list_elem_of_In.
Qed.
(** ** Numbers *)

Lemma strict_eq_refl (x : number) :
  Number.strict_eq x x = match x with S754_nan => false | _ => true end.
Proof.
  unfold Number.strict_eq, SFeqb.
  destruct x as [[]|[]| |[] m e]; simpl; try done;
    by rewrite Z.compare_refl, Pos.compare_cont_refl.
Qed.

(** ** Shape of the built tree, node by node *)

Lemma Shaped_subtrees d node :
  Shaped d node →
  Forall (λ m, NoDup (name <$> children m)) (subtrees node).
Proof.
  revert d. induction node as [nm lvl c cs tc IH] using CostNode_ind.
  intros d (_ & Hn & Hc)%Shaped_inv. simpl in *. constructor; [done|].
  apply Forall_forall. intros m [child [Hin Hm]]%list_elem_of_In%in_flat_map.
  apply list_elem_of_In in Hin.
  rewrite Forall_forall in IH, Hc. specialize (IH child Hin _ (Hc child Hin)).
  rewrite Forall_forall in IH. by apply IH, list_elem_of_In.
Qed.

Lemma costAt_processData q rows :
  reached q rows →
  costAt q (processData rows) = Some (sumCosts (rowsAt q rows)).
Proof.
  intros [node Hn]%nodeAt_ingest_is_Some.
  unfold processData. rewrite costAt_calculateTotal. unfold costAt.
  rewrite Hn. simpl. f_equal.
  by rewrite <- cost_nodeOr_ingest, (nodeOr_Some _ _ _ Hn).
Qed.

Lemma nodeAt_processData_is_Some q rows :
  is_Some (nodeAt q (processData rows)) ↔ reached q rows.
Proof.
  unfold processData. rewrite nodeAt_calculateTotal, fmap_is_Some.
  apply nodeAt_ingest_is_Some.
Qed.

Lemma rowsAt_nil q rows :
  Forall (λ row, rowPath row ≠ q) rows → rowsAt q rows = [].
Proof.
  unfold rowsAt. induction 1 as [|row rows Hrow _ IH]; [done|].
  by rewrite filter_cons, decide_False.
Qed.

(** ** Reading the path of a row *)

Lemma rowPathFrom_blank row keys k key :
  keys !! k = Some key →
  isBlank (rowName row key) = true →
  (∀ j key', (j < k)%nat → keys !! j = Some key' →
     isBlank (rowName row key') = false) →
  rowPathFrom row keys = omap (rowName row) (take k keys).
Proof.
  revert k. induction keys as [|key0 keys IH]; intros [|k] Hk Hb Hbefore;
    try done; simpl in Hk; cbn [rowPathFrom].
  - simplify_eq. destruct (rowName row key) as [nm|]; [|done].
    by rewrite Hb.
  - pose proof (Hbefore 0%nat key0 ltac:(lia) eq_refl) as H0.
    destruct (rowName row key0) as [nm|] eqn:Hr0; [|done]. rewrite H0.
    simpl. rewrite Hr0. simpl. f_equal.
    apply (IH k); [done..|].
    intros j key' Hj Hkey'. apply (Hbefore (S j)); [lia|done].
Qed.

Lemma rowName_ext (row row' : Row) key :
  row' !! key = row !! key → rowName row' key = rowName row key.
Proof. unfold rowName. by intros ->. Qed.

Lemma rowCost_ext (row row' : Row) :
  row' !! costKey = row !! costKey → rowCost row' = rowCost row.
Proof. unfold rowCost. by intros ->. Qed.

Lemma costAt_insertPath_end p c i tree :
  costAt p (insertPath p c i tree)
  = Some (default Number.zero (costAt p tree) ⊕ c).
Proof.
  unfold costAt. rewrite nodeAt_insertPath, decide_True by done.
  rewrite drop_all. simpl. by destruct (nodeAt p tree).
Qed.

Lemma costAt_insertPath_other q p c i tree :
  q ≠ p → is_Some (nodeAt q tree) →
  costAt q (insertPath p c i tree) = costAt q tree.
Proof.
  intros Hne [node Hn]. unfold costAt. rewrite nodeAt_insertPath, Hn.
  case_decide as Hp; [|done]. simpl. rewrite cost_insertPath.
  destruct (drop (length q) p) eqn:Hd; [|done].
  apply (prefix_drop_nil _ _ Hp) in Hd. by subst.
Qed.

Lemma nodeAt_insertPath_is_Some q p c i tree :
  is_Some (nodeAt q (insertPath p c i tree))
  ↔ is_Some (nodeAt q tree) ∨ q `prefix_of` p.
Proof.
  rewrite nodeAt_insertPath. case_decide as Hp.
  - split; [by right|by eexists].
  - split; [by left|by intros [?|?]].
Qed.

(** The walk follows the names of the levels before the first blank
    one: the length of its path is the position of that level. *)
Lemma rowPathFrom_first_blank row keys k0 key0 :
  keys !! k0 = Some key0 →
  isBlank (rowName row key0) = true →
  ∃ k key,
    k = length (rowPathFrom row keys) ∧ (k ≤ k0)%nat
    ∧ keys !! k = Some key ∧ isBlank (rowName row key) = true
    ∧ (∀ j key', (j < k)%nat → keys !! j = Some key' →
         isBlank (rowName row key') = false).
Proof.
  revert k0. induction keys as [|key1 keys IH]; intros k0 Hk0 Hb; [done|].
  cbn [rowPathFrom].
  destruct (isBlank (rowName row key1)) eqn:Hb1.
  - exists 0%nat, key1.
    assert (match rowName row key1 with
            | Some nm =>
                if isBlank (Some nm) then []
                else nm :: rowPathFrom row keys
            | None => []
            end = []) as ->.
    { destruct (rowName row key1); [by rewrite Hb1|done]. }
    split_and!; [done|lia|done|done|]. intros j key' Hj. lia.
  - destruct k0 as [|k0]; [simpl in Hk0; simplify_eq; congruence|].
    destruct (IH k0 Hk0 Hb) as (k & key & -> & Hle & Hk & Hbk & Hbefore).
    exists (S (length (rowPathFrom row keys))), key.
    destruct (rowName row key1) as [nm|] eqn:Hr1; [|done]. rewrite Hb1.
    split_and!; [done|lia|done|done|].
    intros [|j] key' Hj Hkey'; simpl in Hkey';
      [simplify_eq; by rewrite Hr1|].
    apply (Hbefore j); [lia|done].
Qed.

Lemma rowPathFrom_length row keys k key :
  keys !! k = Some key →
  isBlank (rowName row key) = true →
  (∀ j key', (j < k)%nat → keys !! j = Some key' →
     isBlank (rowName row key') = false) →
  k = length (rowPathFrom row keys).
Proof.
  intros Hk Hb Hbefore.
  destruct (rowPathFrom_first_blank row keys k key Hk Hb)
    as (k' & key' & <- & Hle & Hk' & Hb' & _).
  destruct (decide (k' = k)) as [|Hne]; [done|].
  rewrite (Hbefore k' key') in Hb'; [done|lia|done].
Qed.

(** The walk of a row whose level [k] is blank and whose levels before
    [k] are not. *)
Lemma processRow_first_blank
    (tree : CostNode) (row : Row) (k : nat) (key : string) :
  levelKeys !! k = Some key →
  isBlank (rowName row key) = true →
  (∀ j key', (j < k)%nat → levelKeys !! j = Some key' →
     isBlank (rowName row key') = false) →
  let p := omap (rowName row) (take k levelKeys) in
  rowPath row = p
  ∧ length p = k
  ∧ costAt p (processRow tree row)
    = Some (default Number.zero (costAt p tree) ⊕ rowCost row)
  ∧ (∀ q, q ≠ p → is_Some (nodeAt q tree) →
       costAt q (processRow tree row) = costAt q tree)
  ∧ (∀ q, is_Some (nodeAt q (processRow tree row))
       ↔ is_Some (nodeAt q tree) ∨ q `prefix_of` p)
  ∧ (∀ row' : Row,
       (∀ j key', (j ≤ k)%nat → levelKeys !! j = Some key' →
          row' !! key' = row !! key') →
       row' !! costKey = row !! costKey →
       processRow tree row' = processRow tree row).
Proof.
  intros Hk Hb Hbefore p.
  assert (Hp : rowPath row = p) by by eapply rowPathFrom_blank.
  split_and!.
  - done.
  - rewrite <- Hp. symmetry. by eapply rowPathFrom_length.
  - rewrite processRow_insertPath, Hp. apply costAt_insertPath_end.
  - intros q Hq Hn. rewrite processRow_insertPath, Hp.
    by apply costAt_insertPath_other.
  - intros q. rewrite processRow_insertPath, Hp.
    apply nodeAt_insertPath_is_Some.
  - intros row' Hsame Hcost. rewrite !processRow_insertPath.
    rewrite (rowCost_ext row row') by done. f_equal.
    rewrite Hp. unfold rowPath.
    rewrite (rowPathFrom_blank row' levelKeys k key); [|done|..].
    + apply list_omap_ext. apply Forall2_same_length_lookup_2; [done|].
      intros j key1 key2 [Hj1 Hlt]%lookup_take_Some [Hj2 _]%lookup_take_Some.
      simplify_eq. apply rowName_ext, (Hsame j); [lia|done].
    + rewrite (rowName_ext row row'); [done|]. by apply (Hsame k).
    + intros j key' Hj Hkey'. rewrite (rowName_ext row row').
      * by apply (Hbefore j).
      * apply (Hsame j); [lia|done].
Qed.

(** ** The indexer *)

Lemma findChild_NoDup cs child :
  NoDup (name <$> cs) → child ∈ cs →
  ∃ j, findChild (name child) cs = Some (j, child).
Proof.
  unfold findChild. induction cs as [|c cs IH]; intros Hnd Hin.
  - by apply elem_of_nil in Hin.
  - rewrite fmap_cons in Hnd. apply NoDup_cons in Hnd as [Hc Hnd].
    apply elem_of_cons in Hin as [->|Hin]; simpl.
    + exists 0%nat. by rewrite decide_True.
    + rewrite decide_False.
      * destruct (IH Hnd Hin) as [j ->]. by exists (S j).
      * intros Heq. apply Hc. rewrite Heq. by apply list_elem_of_fmap_2.
Qed.

Lemma elem_of_flat_map {A B} (f : A → list B) (l : list A) (y : B) :
  y ∈ flat_map f l ↔ ∃ x, x ∈ l ∧ y ∈ f x.
Proof.
  rewrite list_elem_of_In, in_flat_map.
  by setoid_rewrite list_elem_of_In.
Qed.

(** A pair of the pre-order listing is a node with the path that leads
    to it. *)
Lemma elem_of_preorder d path node q m :
  Shaped d node →
  (q, m) ∈ preorder path node ↔
  ∃ q', q = path ++ name node :: q' ∧ nodeAt q' node = Some m.
Proof.
  revert d path. induction node as [nm lvl c cs tc IH] using CostNode_ind.
  intros d path (_ & Hnd & Hc)%Shaped_inv. simpl in *.
  rewrite Forall_forall in IH, Hc.
  rewrite elem_of_cons, elem_of_flat_map. split.
  - intros [[= -> ->]|(child & Hin & Hm)].
    + by exists [].
    + apply (IH child Hin _ _ (Hc child Hin)) in Hm as (q' & -> & Hq').
      exists (name child :: q'). rewrite <- (assoc_L (++)). split; [done|].
      simpl. by destruct (findChild_NoDup cs child Hnd Hin) as [j ->].
  - intros ([|x q'] & -> & Hq').
    + left. by simplify_eq/=.
    + right. simpl in Hq'.
      destruct (findChild x cs) as [[j child]|] eqn:Hf; [|done].
      apply findChild_Some in Hf as [<- Hj].
      apply list_elem_of_lookup_2 in Hj. exists child. split; [done|].
      apply (IH child Hj _ _ (Hc child Hj)). exists q'.
      by rewrite <- (assoc_L (++)).
Qed.

Lemma level_nodeAt d node q m :
  Shaped d node → nodeAt q node = Some m →
  Shaped (d + Z.of_nat (length q)) m.
Proof.
  revert d node. induction q as [|x q IH]; intros d node Hs Hq.
  - simplify_eq/=. by rewrite Z.add_0_r.
  - simpl in Hq.
    destruct (findChild x (children node)) as [[j child]|] eqn:Hf; [|done].
    apply findChild_Some in Hf as [_ Hj].
    apply Shaped_inv in Hs as (_ & _ & Hc).
    eapply Forall_lookup_1 in Hc; [|done].
    replace (d + Z.of_nat (length (x :: q)))
      with (d + 1 + Z.of_nat (length q)) by (simpl length; lia).
    by eapply IH.
Qed.

Lemma elem_of_descendants tree q m :
  Shaped 0 tree →
  (q, m) ∈ descendants tree ↔ q ≠ [] ∧ nodeAt q tree = Some m.
Proof.
  intros (_ & Hnd & Hc)%Shaped_inv. rewrite Forall_forall in Hc.
  unfold descendants. rewrite elem_of_flat_map. split.
  - intros (child & Hin & Hm).
    apply (elem_of_preorder _ _ _ _ _ (Hc child Hin)) in Hm
      as (q' & -> & Hq').
    split; [done|]. simpl.
    by destruct (findChild_NoDup _ child Hnd Hin) as [j ->].
  - intros [Hq Hm]. destruct q as [|x q]; [done|]. simpl in Hm.
    destruct (findChild x (children tree)) as [[j child]|] eqn:Hf; [|done].
    apply findChild_Some in Hf as [<- Hj].
    apply list_elem_of_lookup_2 in Hj. exists child. split; [done|].
    apply (elem_of_preorder _ _ _ _ _ (Hc child Hj)). by exists q.
Qed.

(** The pre-order listing lists the nodes of the subtree, each once, in
    the order of [subtrees]. *)
Lemma preorder_subtrees path node :
  snd <$> preorder path node = subtrees node.
Proof.
  revert path. induction node as [nm lvl c cs tc IH] using CostNode_ind.
  intros path. cbn [preorder subtrees children name].
  rewrite fmap_cons. f_equal.
  induction IH as [|child cs Hchild _ IHcs]; [done|].
  cbn [flat_map]. by rewrite fmap_app, Hchild, IHcs.
Qed.

Lemma descendants_subtrees tree :
  snd <$> descendants tree = flat_map subtrees (children tree).
Proof.
  unfold descendants. induction (children tree) as [|child cs IH]; [done|].
  cbn [flat_map]. by rewrite fmap_app, preorder_subtrees, IH.
Qed.

(** Below a node of level above 3 nothing passes the filter. *)
Lemma filter_listed_deep d path node :
  Shaped d node → 3 < d →
  filter (λ pn, listed pn.2) (preorder path node) = [].
Proof.
  revert d path. induction node as [nm lvl c cs tc IH] using CostNode_ind.
  intros d path (Hl & _ & Hc)%Shaped_inv Hd. simpl in *.
  rewrite filter_cons_False.
  2:{ unfold listed. simpl. intros H. apply Is_true_true in H.
      rewrite !andb_true_iff in H. lia. }
  induction cs as [|child cs IHcs]; [done|].
  apply Forall_cons in IH as [IH1 IH2]. apply Forall_cons in Hc as [Hc1 Hc2].
  simpl. rewrite filter_app, (IH1 (d + 1)) by (done || lia).
  by apply IHcs.
Qed.

(** The indexer pushes, in pre-order, the nodes that pass its filter. *)
Lemma extractCategories_preorder d path node :
  Shaped d node → 1 ≤ d →
  extractCategories node path
  = optionOf <$> filter (λ pn, listed pn.2) (preorder path node).
Proof.
  revert d path. induction node as [nm lvl c cs tc IH] using CostNode_ind.
  intros d path (Hl & _ & Hc)%Shaped_inv Hd. simpl in *.
  rewrite filter_cons.
  assert (Hrest :
    (if lvl <? 3
     then flat_map (λ child, extractCategories child (path ++ [nm])) cs
     else [])
    = optionOf <$> filter (λ pn, listed pn.2)
                     (flat_map (preorder (path ++ [nm])) cs)).
  { destruct (Z.ltb_spec lvl 3) as [Hlt|Hge].
    - clear Hl. induction cs as [|child cs IHcs]; [done|].
      apply Forall_cons in IH as [IH1 IH2].
      apply Forall_cons in Hc as [Hc1 Hc2].
      simpl. rewrite filter_app, fmap_app.
      rewrite (IH1 (d + 1)) by (done || lia). f_equal. by apply IHcs.
    - replace (filter _ _) with (@nil (list string * CostNode)); [done|].
      symmetry. clear IH.
      induction cs as [|child cs IHcs]; [done|].
      apply Forall_cons in Hc as [Hc1 Hc2].
      simpl. rewrite filter_app.
      rewrite (filter_listed_deep (d + 1)) by (done || lia).
      by apply IHcs. }
  rewrite Hrest.
  set (rest := filter _ (flat_map _ cs)). clearbody rest.
  unfold listed. simpl.
  destruct ((1 <=? lvl) && (lvl <=? 3) && Number.gt tc Number.zero).
  - by rewrite decide_True.
  - by rewrite decide_False by (by intros []).
Qed.

Lemma index_descendants tree :
  Shaped 0 tree →
  index tree = optionOf <$> filter (λ pn, listed pn.2) (descendants tree).
Proof.
  intros (_ & _ & Hc)%Shaped_inv. unfold index, descendants.
  induction Hc as [|child cs Hchild _ IH]; [done|].
  simpl. rewrite filter_app, fmap_app, IH. f_equal.
  by apply (extractCategories_preorder 1).
Qed.

Global Instance optionOf_inj : Inj (=) (=) optionOf.
Proof. intros [q1 n1] [q2 n2] [= _ _ -> ->]. done. Qed.
Lemma gt_zero_not_zero (x : number) :
  Number.gt x Number.zero = true → ∀ s, x ≠ S754_zero s.
Proof. intros Hgt s ->. by destruct s. Qed.

Lemma childNames_processData q rows node :
  nodeAt q (processData rows) = Some node →
  name <$> children node = firstSeen (omap (nextName q) rows).
Proof.
  unfold processData. rewrite nodeAt_calculateTotal.
  destruct (nodeAt q (ingest rows)) as [m|] eqn:Hm; [|done].
  intros [= <-]. rewrite calculateTotal_childNames.
  by rewrite <- childNames_nodeOr_ingest, (nodeOr_Some _ _ _ Hm).
Qed.

(** ** Binary64 arithmetic *)

Local Abbreviation fexp := (SpecFloat.fexp Number.prec Number.emax).
Local Abbreviation emin := (SpecFloat.emin Number.prec Number.emax).

Lemma digits_bounds (p : positive) :
  2 ^ (Z.pos (digits2_pos p) - 1) ≤ Z.pos p < 2 ^ Z.pos (digits2_pos p).
Proof.
  induction p as [p IH|p IH|]; simpl digits2_pos;
    rewrite ?Pos2Z.inj_succ; [| |simpl; lia].
  - replace (Z.succ (Z.pos (digits2_pos p)) - 1)
      with (Z.succ (Z.pos (digits2_pos p) - 1)) by lia.
    rewrite !Z.pow_succ_r by lia. lia.
  - replace (Z.succ (Z.pos (digits2_pos p)) - 1)
      with (Z.succ (Z.pos (digits2_pos p) - 1)) by lia.
    rewrite !Z.pow_succ_r by lia. lia.
Qed.

Lemma digits_unique (p : positive) (k : Z) :
  2 ^ (k - 1) ≤ Z.pos p < 2 ^ k → Z.pos (digits2_pos p) = k.
Proof.
  intros [Hlo Hhi]. pose proof (digits_bounds p) as [Hlo' Hhi'].
  assert (0 < k).
  { destruct (Z.lt_trichotomy k 0) as [?|[->|?]]; [|simpl in Hhi; lia|done].
    rewrite Z.pow_neg_r in Hhi by done. lia. }
  assert (k - 1 < Z.pos (digits2_pos p)).
  { apply (Z.pow_lt_mono_r_iff 2); lia. }
  assert (Z.pos (digits2_pos p) - 1 < k).
  { apply (Z.pow_lt_mono_r_iff 2); lia. }
  lia.
Qed.

Lemma digits_shift (p q : positive) (n : Z) :
  0 ≤ n → Z.pos q = Z.pos p * 2 ^ n →
  Z.pos (digits2_pos q) = Z.pos (digits2_pos p) + n.
Proof.
  intros Hn Hq. apply digits_unique. rewrite Hq.
  pose proof (digits_bounds p) as [Hlo Hhi].
  replace (Z.pos (digits2_pos p) + n - 1)
    with (Z.pos (digits2_pos p) - 1 + n) by lia.
  rewrite !Z.pow_add_r by lia.
  assert (0 < 2 ^ n) by (apply Z.pow_pos_nonneg; lia). nia.
Qed.

Lemma digits_le (p : positive) (k : Z) :
  Z.pos p < 2 ^ k → Z.pos (digits2_pos p) ≤ k.
Proof.
  intros Hp. pose proof (digits_bounds p) as [Hlo _].
  destruct (Z.le_gt_cases (Z.pos (digits2_pos p)) k) as [|Hgt]; [done|].
  assert (2 ^ k ≤ 2 ^ (Z.pos (digits2_pos p) - 1));
    [apply Z.pow_le_mono_r; lia|lia].
Qed.

Lemma iter_pos_iter {A} (f : A → A) (n : positive) (x : A) :
  SpecFloat.iter_pos f n x = Pos.iter f x n.
Proof.
  revert x. induction n as [n IH|n IH|]; intros x; simpl; [|by rewrite !IH|done].
  by rewrite !IH, <- !Pos.iter_swap.
Qed.

Lemma iter_xO (m n : positive) :
  Z.pos (Pos.iter xO m n) = Z.pos m * 2 ^ Z.pos n.
Proof.
  pose proof (shift_pos_correct n m) as H. unfold shift_pos in H.
  rewrite H. change (Z.pow_pos 2 n) with (2 ^ Z.pos n). lia.
Qed.

Lemma shr_1_m (mrs : shr_record) :
  0 ≤ shr_m mrs → shr_m (shr_1 mrs) = shr_m mrs / 2.
Proof.
  destruct mrs as [[|[p|p|]|p] r s]; simpl; intros H; try done.
  - apply (Z.div_unique _ _ _ 1); lia.
  - apply (Z.div_unique _ _ _ 0); lia.
Qed.

Lemma shr_m_iter (mrs : shr_record) (n : positive) :
  0 ≤ shr_m mrs →
  shr_m (Pos.iter shr_1 mrs n) = shr_m mrs / 2 ^ Z.pos n.
Proof.
  intros Hm. induction n as [|n IH] using Pos.peano_ind.
  - simpl. by rewrite shr_1_m.
  - rewrite Pos.iter_succ, shr_1_m, IH.
    + rewrite Pos2Z.inj_succ, Z.pow_succ_r by lia.
      rewrite Z.div_div by (try apply Z.pow_pos_nonneg; lia).
      f_equal. lia.
    + rewrite IH. apply Z.div_pos; [done|]. apply Z.pow_pos_nonneg; lia.
Qed.

Lemma shr_1_exact (m : Z) :
  0 ≤ m →
  shr_1 (Build_shr_record (2 * m) false false)
  = Build_shr_record m false false.
Proof. by destruct m. Qed.

Lemma shr_iter_exact (m : Z) (n : positive) :
  0 ≤ m →
  Pos.iter shr_1 (Build_shr_record (m * 2 ^ Z.pos n) false false) n
  = Build_shr_record m false false.
Proof.
  intros Hm. induction n as [|n IH] using Pos.peano_ind.
  - simpl. change (2 ^ 1) with 2. rewrite Z.mul_comm. by apply shr_1_exact.
  - rewrite Pos.iter_succ_r, Pos2Z.inj_succ, Z.pow_succ_r by lia.
    replace (m * (2 * 2 ^ Z.pos n)) with (2 * (m * 2 ^ Z.pos n)) by lia.
    rewrite shr_1_exact; [done|].
    assert (0 < 2 ^ Z.pos n) by (apply Z.pow_pos_nonneg; lia). nia.
Qed.

Lemma shl_align_spec (mx : positive) (ex ez : Z) :
  snd (shl_align mx ex ez) = Z.min ex ez
  ∧ Z.pos (fst (shl_align mx ex ez)) = Z.pos mx * 2 ^ (ex - Z.min ex ez).
Proof.
  unfold shl_align. destruct (ez - ex) as [|d|d] eqn:Hd; simpl.
  - replace (Z.min ex ez) with ex by lia. rewrite Z.sub_diag. simpl. lia.
  - replace (Z.min ex ez) with ex by lia. rewrite Z.sub_diag. simpl. lia.
  - replace (Z.min ex ez) with ez by lia. rewrite iter_xO.
    split; [done|]. do 2 f_equal. lia.
Qed.

Lemma fexp_emin (e : Z) : emin ≤ fexp e.
Proof. unfold SpecFloat.fexp. lia. Qed.
Lemma shr_m_of_loc (m : Z) (l : location) :
  shr_m (shr_record_of_loc m l) = m.
Proof. by destruct l as [|[]]. Qed.

Lemma shr_fexp_exponent (m e : Z) (l : location) :
  emin ≤ snd (shr_fexp Number.prec Number.emax m e l).
Proof.
  unfold shr_fexp, shr. pose proof (fexp_emin (Zdigits2 m + e)).
  destruct (fexp (Zdigits2 m + e) - e) eqn:Hn; cbn [snd]; lia.
Qed.

Lemma shr_fexp_pos (m : positive) (e : Z) (l : location) :
  emin ≤ e →
  0 < shr_m (fst (shr_fexp Number.prec Number.emax (Z.pos m) e l)).
Proof.
  intros He. unfold shr_fexp, shr.
  destruct (fexp (Zdigits2 (Z.pos m) + e) - e) as [|n|n] eqn:Hn; simpl;
    rewrite ?shr_m_of_loc; try done.
  rewrite iter_pos_iter, shr_m_iter, shr_m_of_loc by by rewrite shr_m_of_loc.
  pose proof (digits_bounds m) as [Hlo _].
  unfold SpecFloat.fexp, SpecFloat.emin, Number.prec, Number.emax in *.
  simpl Zdigits2 in Hn.
  apply Z.div_str_pos. split; [apply Z.pow_pos_nonneg; lia|].
  etrans; [|exact Hlo]. apply Z.pow_le_mono_r; lia.
Qed.

Lemma round_nearest_even_pos (m : Z) (l : location) :
  0 < m → 0 < round_nearest_even m l.
Proof.
  intros Hm. destruct l as [|[]]; simpl; try lia. destruct (Z.even m); lia.
Qed.

(** A rounded number never has an exponent below [emin]. *)
Lemma binary_round_aux_bounded (s : bool) (m e : Z) (l : location) :
  Number.bounded_below (binary_round_aux Number.prec Number.emax s m e l).
Proof.
  unfold binary_round_aux.
  destruct (shr_fexp _ _ m e l) as [mrs' e'].
  pose proof (shr_fexp_exponent
                (round_nearest_even (shr_m mrs') (loc_of_shr_record mrs'))
                e' loc_Exact) as He.
  destruct (shr_fexp _ _ _ e' loc_Exact) as [mrs'' e'']. simpl in He.
  destruct (shr_m mrs''); simpl; try done.
  by destruct (e'' <=? _).
Qed.

(** Rounding a non-zero mantissa whose exponent is not below [emin]
    gives a non-zero number or an infinity, of the same sign. *)
Lemma binary_round_aux_nonzero (s : bool) (m : positive) (e : Z)
    (l : location) :
  emin ≤ e →
  match binary_round_aux Number.prec Number.emax s (Z.pos m) e l with
  | S754_finite s' _ e' => s' = s ∧ emin ≤ e'
  | S754_infinity s' => s' = s
  | _ => False
  end.
Proof.
  intros He. unfold binary_round_aux.
  pose proof (shr_fexp_pos m e l He) as Hpos.
  pose proof (shr_fexp_exponent (Z.pos m) e l) as He'.
  destruct (shr_fexp _ _ (Z.pos m) e l) as [mrs' e']. simpl in Hpos, He'.
  pose proof (round_nearest_even_pos _ (loc_of_shr_record mrs') Hpos) as Hr.
  destruct (round_nearest_even _ _) as [|m2|m2]; try done.
  pose proof (shr_fexp_pos m2 e' loc_Exact He') as Hpos2.
  pose proof (shr_fexp_exponent (Z.pos m2) e' loc_Exact) as He''.
  destruct (shr_fexp _ _ (Z.pos m2) e' loc_Exact) as [mrs'' e''].
  simpl in Hpos2, He''.
  destruct (shr_m mrs''); try done. by destruct (e'' <=? _).
Qed.

Lemma binary_round_nonzero (s : bool) (m : positive) (e : Z) :
  emin ≤ e →
  match binary_round Number.prec Number.emax s m e with
  | S754_finite s' _ e' => s' = s ∧ emin ≤ e'
  | S754_infinity s' => s' = s
  | _ => False
  end.
Proof.
  intros He. unfold binary_round.
  pose proof (shl_align_spec m e (fexp (Z.pos (digits2_pos m) + e)))
    as [Hs _].
  pose proof (fexp_emin (Z.pos (digits2_pos m) + e)).
  destruct (shl_align _ _ _) as [mz ez]. simpl in Hs.
  apply binary_round_aux_nonzero. lia.
Qed.

Lemma binary_round_bounded (s : bool) (m : positive) (e : Z) :
  Number.bounded_below (binary_round Number.prec Number.emax s m e).
Proof.
  unfold binary_round. destruct (shl_align _ _ _) as [mz ez].
  apply binary_round_aux_bounded.
Qed.

Lemma binary_normalize_bounded (m e : Z) (s : bool) :
  Number.bounded_below (binary_normalize Number.prec Number.emax m e s).
Proof. destruct m; simpl; [done|apply binary_round_bounded..]. Qed.

(** Sums keep their exponents above [emin] and are [-0] only when both
    terms are. *)
Lemma add_bounded (x y : number) :
  Number.bounded_below x → Number.bounded_below y →
  Number.bounded_below (x ⊕ y).
Proof.
  intros Hx Hy. destruct x as [[]|[]| |sx mx ex], y as [[]|[]| |sy my ey];
    try done.
  apply binary_normalize_bounded.
Qed.

Lemma add_neg_zero (x y : number) :
  Number.bounded_below x → Number.bounded_below y →
  x ⊕ y = Number.neg_zero → x = Number.neg_zero ∧ y = Number.neg_zero.
Proof.
  intros Hx Hy.
  destruct x as [[]|[]| |sx mx ex], y as [[]|[]| |sy my ey]; try done.
  unfold Number.add, SFadd, binary_normalize.
  unfold Number.bounded_below, Number.emin in Hx, Hy.
  assert (Hz : emin ≤ Z.min ex ey) by lia.
  destruct (_ + _) as [|m|m]; [done| |].
  - pose proof (binary_round_nonzero false m _ Hz) as H.
    intros Heq. by rewrite Heq in H.
  - pose proof (binary_round_nonzero true m _ Hz) as H.
    intros Heq. by rewrite Heq in H.
Qed.

Lemma add_zero_r (x : number) :
  x ≠ Number.neg_zero → x ⊕ Number.zero = x.
Proof. by destruct x as [[]|[]| |sx mx ex]. Qed.

(** ** Amounts *)

Lemma of_decimal_bounded neg m e10 :
  Number.bounded_below (Number.of_decimal neg m e10).
Proof.
  unfold Number.of_decimal. destruct m as [|p]; [done|].
  destruct (0 <=? e10); [apply binary_normalize_bounded|].
  destruct (SFdiv_core_binary _ _ _ _ _ _) as [[q e] l].
  apply binary_round_aux_bounded.
Qed.

Lemma unsignedDecimalLiteral_bounded neg s :
  Number.bounded_below (JS.unsignedDecimalLiteral neg s).
Proof.
  unfold JS.unsignedDecimalLiteral.
  destruct (JS.strip_prefix _ _); [done|].
  destruct (JS.digits 0 s) as [[ip n1] r1].
  destruct (match r1 with String _ _ => _ | _ => _ end) as [[m n2] r3].
  destruct n1, n2; try done; apply of_decimal_bounded.
Qed.

Lemma parseFloat_bounded v : Number.bounded_below (JS.parseFloat v).
Proof.
  unfold JS.parseFloat, JS.parseFloat_string.
  destruct (JS.trimStart _) as [|a r];
    [apply unsignedDecimalLiteral_bounded|].
  destruct (Ascii.eqb a "-"); [apply unsignedDecimalLiteral_bounded|].
  destruct (Ascii.eqb a "+"); apply unsignedDecimalLiteral_bounded.
Qed.

Lemma rowCost_bounded row : Number.bounded_below (rowCost row).
Proof.
  unfold rowCost, Number.or_else.
  destruct (Number.truthy _); [apply parseFloat_bounded|done].
Qed.

Lemma rowCost_not_neg_zero row : rowCost row ≠ Number.neg_zero.
Proof.
  unfold rowCost, Number.or_else.
  by destruct (JS.parseFloat _) as [[]|[]| |s m e].
Qed.

Lemma sumCosts_bounded rows :
  Number.bounded_below (sumCosts rows) ∧ sumCosts rows ≠ Number.neg_zero.
Proof.
  induction rows as [|row rows [IH1 IH2]] using rev_ind; [done|].
  rewrite sumCosts_snoc. split.
  - apply add_bounded; [done|apply rowCost_bounded].
  - intros [H _]%add_neg_zero; [done|done|apply rowCost_bounded].
Qed.
(** ** Integers in binary64 *)

Lemma shr_exact (m e n : Z) :
  0 ≤ m → 0 ≤ n →
  shr (Build_shr_record (m * 2 ^ n) false false) e n
  = (Build_shr_record m false false, e + n).
Proof.
  intros Hm Hn. unfold shr. destruct n as [|n|n]; [|  |lia].
  - by rewrite Z.mul_1_r, Z.add_0_r.
  - by rewrite iter_pos_iter, shr_iter_exact.
Qed.

Lemma fexp_small (d : Z) : 0 < d → fexp d = d - 53.
Proof.
  unfold SpecFloat.fexp, SpecFloat.emin, Number.prec, Number.emax. lia.
Qed.

(** Rounding [M * 2^E] when it is an integer [v] below [2^53] gives the
    canonical representation of [v]. *)
Lemma binary_round_exact (s : bool) (v M : positive) (E : Z) :
  Z.pos (digits2_pos v) ≤ 53 → E ≤ 0 →
  Z.pos M = Z.pos v * 2 ^ (- E) →
  binary_round Number.prec Number.emax s M E = Number.canonical s v.
Proof.
  intros Hd HE HM. unfold binary_round, Number.canonical.
  set (d := Z.pos (digits2_pos v)) in *.
  assert (HdM : Z.pos (digits2_pos M) = d - E).
  { rewrite (digits_shift v M (- E)) by (lia || done). lia. }
  rewrite HdM. replace (d - E + E) with d by lia.
  rewrite fexp_small by lia.
  pose proof (shl_align_spec M E (d - 53)) as [Hs Hf].
  destruct (shl_align M E (d - 53)) as [mz ez]. simpl in Hs, Hf.
  rewrite <- Hs in Hf.
  assert (∃ pc, Z.pos pc = Z.pos v * 2 ^ (53 - d)) as [pc Hpc].
  { exists (Z.to_pos (Z.pos v * 2 ^ (53 - d))). rewrite Z2Pos.id; [done|].
    assert (0 < 2 ^ (53 - d)) by (apply Z.pow_pos_nonneg; lia). lia. }
  change (Number.prec - d) with (53 - d).
  change (d - Number.prec) with (d - 53).
  rewrite <- Hpc. simpl Z.to_pos.
  assert (Hmz : Z.pos mz = Z.pos pc * 2 ^ (d - 53 - ez)).
  { rewrite Hf, HM, Hpc, <- !Z.mul_assoc, <- !Z.pow_add_r by lia.
    do 2 f_equal. lia. }
  assert (Hdc : Z.pos (digits2_pos pc) = 53).
  { rewrite (digits_shift v pc (53 - d)); [lia|lia|done]. }
  unfold binary_round_aux, shr_fexp. simpl Zdigits2. simpl shr_record_of_loc.
  assert (Hdz : Z.pos (digits2_pos mz) = d - ez).
  { rewrite (digits_shift M mz (E - ez)) by (lia || done). lia. }
  rewrite Hdz. replace (d - ez + ez) with d by lia.
  rewrite fexp_small by lia. rewrite Hmz.
  rewrite shr_exact by lia. simpl loc_of_shr_record. simpl shr_m.
  simpl round_nearest_even. simpl Zdigits2. rewrite Hdc.
  replace (ez + (d - 53 - ez)) with (d - 53) by lia.
  replace (53 + (d - 53)) with d by lia.
  rewrite fexp_small, Z.sub_diag by lia. simpl shr. simpl shr_m.
  unfold Number.prec, Number.emax.
  replace (d - 53 <=? 1024 - 53) with true by (symmetry; apply Z.leb_le; lia).
  done.
Qed.

Lemma of_Z_pos (v : positive) :
  Z.pos (digits2_pos v) ≤ 53 →
  Number.of_Z (Z.pos v) = Number.canonical false v.
Proof.
  intros Hd. unfold Number.of_Z. simpl.
  apply binary_round_exact; [done|done|]. simpl. lia.
Qed.

Lemma of_Z_neg (v : positive) :
  Z.pos (digits2_pos v) ≤ 53 →
  Number.of_Z (Z.neg v) = Number.canonical true v.
Proof.
  intros Hd. unfold Number.of_Z. simpl.
  apply binary_round_exact; [done|done|]. simpl. lia.
Qed.

Lemma binary_normalize_exact (z M E : Z) :
  Z.abs z < 2 ^ 53 → E ≤ 0 → M = z * 2 ^ (- E) →
  binary_normalize Number.prec Number.emax M E false = Number.of_Z z.
Proof.
  intros Hz HE ->.
  assert (0 < 2 ^ (- E)) by (apply Z.pow_pos_nonneg; lia).
  destruct z as [|v|v].
  - done.
  - rewrite of_Z_pos by (apply digits_le; lia).
    destruct (Z.pos v * 2 ^ (- E)) as [|M|M] eqn:HM; try lia. simpl.
    apply binary_round_exact; [apply digits_le; lia|done|done].
  - rewrite of_Z_neg by (apply digits_le; lia).
    destruct (Z.neg v * 2 ^ (- E)) as [|M|M] eqn:HM; try lia. simpl.
    apply binary_round_exact; [apply digits_le; lia|done|lia].
Qed.

(** The value of a canonical representation. *)
Lemma canonical_value (s : bool) (v : positive) :
  Z.pos (digits2_pos v) ≤ 53 →
  ∃ m e, Number.canonical s v = S754_finite s m e
         ∧ -52 ≤ e ≤ 0 ∧ Z.pos m = Z.pos v * 2 ^ (- e).
Proof.
  intros Hd. eexists _, _. split; [done|].
  unfold Number.prec. split; [lia|].
  replace (- (Z.pos (digits2_pos v) - 53))
    with (53 - Z.pos (digits2_pos v)) by lia.
  rewrite Z2Pos.id; [done|].
  assert (0 < 2 ^ (53 - Z.pos (digits2_pos v)))
    by (apply Z.pow_pos_nonneg; lia). lia.
Qed.

Lemma of_Z_value (z : Z) :
  Z.abs z < 2 ^ 53 → z ≠ 0 →
  ∃ m e, Number.of_Z z = S754_finite (z <? 0) m e
         ∧ -52 ≤ e ≤ 0 ∧ cond_Zopp (z <? 0) (Z.pos m) = z * 2 ^ (- e).
Proof.
  intros Hz Hnz. destruct z as [|v|v]; [done| |].
  - rewrite of_Z_pos by (apply digits_le; lia).
    destruct (canonical_value false v) as (m & e & -> & He & Hm);
      [apply digits_le; lia|].
    by exists m, e.
  - rewrite of_Z_neg by (apply digits_le; lia).
    destruct (canonical_value true v) as (m & e & -> & He & Hm);
      [apply digits_le; lia|].
    exists m, e. split; [done|]. split; [done|]. simpl. lia.
Qed.

Lemma to_Z_of_Z (z : Z) : Z.abs z < 2 ^ 53 → Number.to_Z (Number.of_Z z) = z.
Proof.
  intros Hz. destruct (decide (z = 0)) as [->|Hnz]; [done|].
  destruct (of_Z_value z Hz Hnz) as (m & e & -> & He & Hm). simpl.
  rewrite <- (Z.opp_involutive e), Z.shiftl_opp_r, Z.shiftr_div_pow2 by lia.
  assert (0 < 2 ^ (- e)) by (apply Z.pow_pos_nonneg; lia).
  destruct (z <? 0) eqn:Hs; simpl in *.
  - replace (Z.pos m) with (- z * 2 ^ (- e)) by lia.
    rewrite Z.div_mul by lia. lia.
  - rewrite Hm, Z.div_mul by lia. done.
Qed.

(** The sum of two integers is exact as long as it stays below [2^53]. *)
Lemma add_of_Z (a b : Z) :
  Z.abs a + Z.abs b < 2 ^ 53 →
  Number.of_Z a ⊕ Number.of_Z b = Number.of_Z (a + b).
Proof.
  intros Hab.
  destruct (decide (a = 0)) as [->|Ha].
  { rewrite Z.add_0_l. destruct (decide (b = 0)) as [->|Hb]; [done|].
    destruct (of_Z_value b ltac:(lia) Hb) as (m & e & Hb' & _).
    by rewrite Hb'. }
  destruct (decide (b = 0)) as [->|Hb].
  { rewrite Z.add_0_r.
    destruct (of_Z_value a ltac:(lia) Ha) as (m & e & Ha' & _).
    by rewrite Ha'. }
  destruct (of_Z_value a ltac:(lia) Ha) as (ma & ea & -> & Hea & Hma).
  destruct (of_Z_value b ltac:(lia) Hb) as (mb & eb & -> & Heb & Hmb).
  unfold Number.add, SFadd.
  pose proof (shl_align_spec ma ea (Z.min ea eb)) as [_ Hfa].
  pose proof (shl_align_spec mb eb (Z.min ea eb)) as [_ Hfb].
  replace (Z.min ea (Z.min ea eb)) with (Z.min ea eb) in Hfa by lia.
  replace (Z.min eb (Z.min ea eb)) with (Z.min ea eb) in Hfb by lia.
  set (ez := Z.min ea eb) in *.
  apply binary_normalize_exact; [lia|lia|].
  assert (Hpa : 2 ^ (- ez) = 2 ^ (- ea) * 2 ^ (ea - ez))
    by (rewrite <- Z.pow_add_r by lia; f_equal; lia).
  assert (Hpb : 2 ^ (- ez) = 2 ^ (- eb) * 2 ^ (eb - ez))
    by (rewrite <- Z.pow_add_r by lia; f_equal; lia).
  rewrite Z.mul_add_distr_r.
  rewrite Hpa at 1. rewrite Hpb.
  rewrite !Z.mul_assoc, <- Hma, <- Hmb.
  destruct (a <? 0), (b <? 0); simpl; lia.
Qed.

(** ** Trees of integer costs *)

Lemma is_int_spec (x : number) :
  Number.is_int x = true ↔ x = Number.of_Z (Number.to_Z x).
Proof. unfold Number.is_int. by destruct (Number.eq_dec _ _). Qed.

Lemma intCosts_spec node :
  intCosts node = true ↔
  Number.is_int (cost node) = true
  ∧ Forall (λ child, intCosts child = true) (children node).
Proof.
  destruct node as [nm lvl c cs tc]. simpl.
  rewrite andb_true_iff, forallb_forall, Forall_forall.
  by setoid_rewrite list_elem_of_In.
Qed.

Section SumOver.
Context {A : Type} (f : A → Z).

Lemma sumOver_app (l1 l2 : list A) :
  fold_right (λ x acc, f x + acc) 0 (l1 ++ l2)
  = fold_right (λ x acc, f x + acc) 0 l1
    + fold_right (λ x acc, f x + acc) 0 l2.
Proof. induction l1 as [|x l1 IH]; simpl; lia. Qed.

Lemma sumOver_insert (l : list A) (j : nat) (x y : A) :
  l !! j = Some x →
  fold_right (λ x acc, f x + acc) 0 (<[j := y]> l)
  = fold_right (λ x acc, f x + acc) 0 l - f x + f y.
Proof.
  revert j. induction l as [|z l IH]; intros [|j] Hj; simplify_eq/=;
    [lia|]. rewrite (IH j) by done. lia.
Qed.

Lemma sumOver_nonneg (l : list A) :
  (∀ x, 0 ≤ f x) → 0 ≤ fold_right (λ x acc, f x + acc) 0 l.
Proof.
  intros Hf. induction l as [|x l IH]; simpl; [done|].
  specialize (Hf x). lia.
Qed.

Lemma sumOver_lookup_le (l : list A) (j : nat) (x : A) :
  (∀ x, 0 ≤ f x) → l !! j = Some x →
  f x ≤ fold_right (λ x acc, f x + acc) 0 l.
Proof.
  intros Hf. revert j. induction l as [|z l IH]; intros [|j] Hj;
    simplify_eq/=.
  - pose proof (sumOver_nonneg l Hf). lia.
  - specialize (IH j Hj). specialize (Hf z). lia.
Qed.
End SumOver.

Lemma treeAbs_nonneg node : 0 ≤ treeAbs node.
Proof.
  induction node as [nm lvl c cs tc IH] using CostNode_ind. simpl.
  assert (0 ≤ fold_right (λ child acc, treeAbs child + acc) 0 cs); [|lia].
  induction IH as [|child cs Hc _ IHcs]; simpl; lia.
Qed.

Lemma treeSum_abs node : Z.abs (treeSum node) ≤ treeAbs node.
Proof.
  induction node as [nm lvl c cs tc IH] using CostNode_ind. simpl.
  assert (Z.abs (fold_right (λ child acc, treeSum child + acc) 0 cs)
          ≤ fold_right (λ child acc, treeAbs child + acc) 0 cs); [|lia].
  induction IH as [|child cs Hc _ IHcs]; simpl; lia.
Qed.

Lemma treeAbs_cost node : Z.abs (Number.to_Z (cost node)) ≤ treeAbs node.
Proof.
  destruct node as [nm lvl c cs tc]. simpl.
  pose proof (sumOver_nonneg treeAbs cs treeAbs_nonneg). lia.
Qed.

Lemma treeAbs_child node j child :
  children node !! j = Some child → treeAbs child ≤ treeAbs node.
Proof.
  destruct node as [nm lvl c cs tc]. simpl. intros Hj.
  pose proof (sumOver_lookup_le treeAbs cs j child treeAbs_nonneg Hj). lia.
Qed.

Lemma intCosts_newChild nm lvl : intCosts (newChild nm lvl) = true.
Proof. done. Qed.

(** A walk that adds an integer to a tree of integers keeps it a tree of
    integers and adds that integer to its sum, as long as the sums stay
    below [2^53]. *)
Lemma insertPath_int p z i tree :
  intCosts tree = true → treeAbs tree + Z.abs z < 2 ^ 53 →
  intCosts (insertPath p (Number.of_Z z) i tree) = true
  ∧ treeSum (insertPath p (Number.of_Z z) i tree) = treeSum tree + z
  ∧ treeAbs (insertPath p (Number.of_Z z) i tree) ≤ treeAbs tree + Z.abs z.
Proof.
  revert i tree. induction p as [|nm p IH]; intros i tree Hint Hb.
  - apply intCosts_spec in Hint as [Hc Hcs]. apply is_int_spec in Hc.
    pose proof (treeAbs_cost tree).
    assert (Hsum : cost tree ⊕ Number.of_Z z
                   = Number.of_Z (Number.to_Z (cost tree) + z)).
    { rewrite Hc at 1. apply add_of_Z. lia. }
    destruct tree as [nm lvl c cs tc]. simpl in *.
    rewrite Hsum, to_Z_of_Z by lia. split_and!; [|lia|lia].
    apply andb_true_iff. split.
    + apply is_int_spec. by rewrite to_Z_of_Z by lia.
    + apply forallb_forall. intros child Hin%list_elem_of_In.
      by eapply Forall_forall in Hcs.
  - pose proof Hint as [Hc Hcs]%intCosts_spec.
    simpl. destruct (findChild nm (children tree)) as [[j child]|] eqn:Hf.
    + apply findChild_Some in Hf as [_ Hj].
      pose proof (treeAbs_child _ _ _ Hj).
      destruct (IH (i + 1) child) as (IH1 & IH2 & IH3);
        [by eapply Forall_lookup_1 in Hcs|lia|].
      destruct tree as [nm' lvl c cs tc]. simpl in *.
      rewrite (sumOver_insert treeSum _ _ _ _ Hj).
      rewrite (sumOver_insert treeAbs _ _ _ _ Hj).
      split_and!; [|lia|lia].
      apply andb_true_iff. split; [done|].
      apply forallb_forall. intros c' Hin%list_elem_of_In.
      pose proof (Forall_insert _ _ j _ Hcs IH1) as Hall.
      by eapply Forall_forall in Hall.
    + destruct (IH (i + 1) (newChild nm (i + 1))) as (IH1 & IH2 & IH3);
        [done|simpl; pose proof (treeAbs_nonneg tree); lia|].
      destruct tree as [nm' lvl c cs tc]. simpl in *.
      rewrite (sumOver_app treeSum), (sumOver_app treeAbs). simpl.
      split_and!; [|lia|lia].
      apply andb_true_iff. split; [done|].
      apply forallb_forall. intros c' Hin%list_elem_of_In.
      apply elem_of_app in Hin as [Hin|Hin%list_elem_of_singleton].
      * by eapply Forall_forall in Hcs.
      * by subst.
Qed.

Lemma rowsSum_app rows1 rows2 :
  rowsSum (rows1 ++ rows2) = rowsSum rows1 + rowsSum rows2.
Proof. apply (sumOver_app (λ row, Number.to_Z (rowCost row))). Qed.

Lemma rowsAbs_app rows1 rows2 :
  rowsAbs (rows1 ++ rows2) = rowsAbs rows1 + rowsAbs rows2.
Proof. apply (sumOver_app (λ row, Z.abs (Number.to_Z (rowCost row)))). Qed.

Lemma rowsAbs_nonneg rows : 0 ≤ rowsAbs rows.
Proof.
  apply (sumOver_nonneg (λ row, Z.abs (Number.to_Z (rowCost row)))). lia.
Qed.

Lemma rowsSum_abs rows : Z.abs (rowsSum rows) ≤ rowsAbs rows.
Proof.
  induction rows as [|row rows IH]; [done|].
  change (Z.abs (Number.to_Z (rowCost row) + rowsSum rows)
          ≤ Z.abs (Number.to_Z (rowCost row)) + rowsAbs rows). lia.
Qed.

Lemma rowsAbs_filter (P : Row → Prop) `{!∀ row, Decision (P row)} rows :
  rowsAbs (filter P rows) ≤ rowsAbs rows.
Proof.
  induction rows as [|row rows IH]; [done|].
  rewrite filter_cons.
  change (rowsAbs (row :: rows))
    with (Z.abs (Number.to_Z (rowCost row)) + rowsAbs rows).
  case_decide; [|lia].
  change (rowsAbs (row :: filter P rows))
    with (Z.abs (Number.to_Z (rowCost row)) + rowsAbs (filter P rows)).
  lia.
Qed.

Lemma intRows_filter (P : Row → Prop) `{!∀ row, Decision (P row)} rows :
  intRows rows → intRows (filter P rows).
Proof.
  unfold intRows. rewrite !Forall_forall.
  intros Hall row [_ Hin]%list_elem_of_filter. by apply Hall.
Qed.

Lemma intRows_snoc rows row :
  intRows (rows ++ [row])
  ↔ intRows rows ∧ rowCost row = Number.of_Z (Number.to_Z (rowCost row)).
Proof.
  unfold intRows. by rewrite Forall_app, Forall_singleton, is_int_spec.
Qed.

(** The left-to-right sum of integer amounts is their exact sum. *)
Lemma sumCosts_int rows :
  intRows rows → rowsAbs rows < 2 ^ 53 →
  sumCosts rows = Number.of_Z (rowsSum rows).
Proof.
  induction rows as [|row rows IH] using rev_ind; [done|].
  intros [Hint Hrow]%intRows_snoc. rewrite rowsAbs_app, rowsSum_app.
  pose proof (rowsAbs_nonneg rows). pose proof (rowsSum_abs rows).
  change (rowsAbs [row]) with (Z.abs (Number.to_Z (rowCost row)) + 0).
  change (rowsSum [row]) with (Number.to_Z (rowCost row) + 0).
  intros Hb. rewrite sumCosts_snoc, IH, Z.add_0_r by (done || lia).
  remember (Number.to_Z (rowCost row)) as z eqn:Hz. rewrite Hrow.
  apply add_of_Z. lia.
Qed.

(** The tree of the reducer, for integer amounts. *)
Lemma ingest_int rows :
  intRows rows → rowsAbs rows < 2 ^ 53 →
  intCosts (ingest rows) = true
  ∧ treeSum (ingest rows) = rowsSum rows
  ∧ treeAbs (ingest rows) ≤ rowsAbs rows.
Proof.
  induction rows as [|row rows IH] using rev_ind; [done|].
  intros [Hint Hrow]%intRows_snoc. rewrite rowsAbs_app, rowsSum_app.
  pose proof (rowsAbs_nonneg rows).
  change (rowsAbs [row]) with (Z.abs (Number.to_Z (rowCost row)) + 0).
  change (rowsSum [row]) with (Number.to_Z (rowCost row) + 0).
  intros Hb. destruct IH as (IH1 & IH2 & IH3); [done|lia|].
  rewrite ingest_snoc, processRow_insertPath.
  remember (Number.to_Z (rowCost row)) as z eqn:Hz. rewrite Hrow.
  destruct (insertPath_int (rowPath row) z 0 (ingest rows))
    as (H1 & H2 & H3); [done|lia|].
  split_and!; [done|lia|lia].
Qed.

Lemma nodeAt_int q tree node :
  intCosts tree = true → nodeAt q tree = Some node →
  intCosts node = true ∧ treeAbs node ≤ treeAbs tree.
Proof.
  revert tree. induction q as [|nm q IH]; intros tree Hint Hq.
  - by simplify_eq/=.
  - simpl in Hq.
    destruct (findChild nm (children tree)) as [[j child]|] eqn:Hf; [|done].
    apply findChild_Some in Hf as [_ Hj].
    apply intCosts_spec in Hint as [_ Hcs].
    eapply Forall_lookup_1 in Hcs; [|done].
    destruct (IH child Hcs Hq) as [H1 H2].
    pose proof (treeAbs_child _ _ _ Hj). split; [done|lia].
Qed.

Lemma nodeOr_int q tree :
  intCosts tree = true →
  intCosts (nodeOr q tree) = true ∧ treeAbs (nodeOr q tree) ≤ treeAbs tree.
Proof.
  intros Hint. unfold nodeOr.
  destruct (nodeAt q tree) as [node|] eqn:Hq; simpl.
  - by eapply nodeAt_int.
  - split; [done|]. pose proof (treeAbs_nonneg tree). lia.
Qed.

Lemma rowsThrough_snoc q rows row :
  rowsThrough q (rows ++ [row])
  = rowsThrough q rows
    ++ (if decide (q `prefix_of` rowPath row) then [row] else []).
Proof. unfold rowsThrough. by rewrite filter_app. Qed.

(** The sum of the subtree of a path is the sum of the amounts of the
    rows that pass through it. *)
Lemma treeSum_nodeOr_ingest q rows :
  intRows rows → rowsAbs rows < 2 ^ 53 →
  treeSum (nodeOr q (ingest rows)) = rowsSum (rowsThrough q rows).
Proof.
  induction rows as [|row rows IH] using rev_ind.
  - intros _ _. unfold nodeOr. by destruct q.
  - intros [Hint Hrow]%intRows_snoc. rewrite rowsAbs_app.
    pose proof (rowsAbs_nonneg rows).
    change (rowsAbs [row]) with (Z.abs (Number.to_Z (rowCost row)) + 0).
    intros Hb. rewrite nodeOr_ingest_snoc, rowsThrough_snoc, rowsSum_app.
    rewrite <- IH by (done || lia).
    destruct (ingest_int rows) as (H1 & _ & H3); [done|lia|].
    destruct (nodeOr_int q (ingest rows) H1) as [H4 H5].
    case_decide; [|simpl; lia].
    change (rowsSum [row]) with (Number.to_Z (rowCost row) + 0).
    remember (Number.to_Z (rowCost row)) as z eqn:Hz. rewrite Hrow.
    destruct (insertPath_int (drop (length q) (rowPath row)) z
                (Z.of_nat (length q)) (nodeOr q (ingest rows)))
      as (_ & H6 & _); [done|lia|].
    lia.
Qed.

(** The finalisation pass, on a tree of integers, puts on each node the
    exact sum of its subtree. *)
Lemma childrenSum_int (cs : list CostNode) (a : Z) :
  Forall (λ c, totalCost (calculateTotal c) = Number.of_Z (treeSum c)) cs →
  Z.abs a + fold_right (λ c acc, treeAbs c + acc) 0 cs < 2 ^ 53 →
  fold_left (λ sum child, sum ⊕ totalCost child) (calculateTotal <$> cs)
    (Number.of_Z a)
  = Number.of_Z (a + fold_right (λ c acc, treeSum c + acc) 0 cs).
Proof.
  intros Hall. revert a.
  induction Hall as [|c cs Hc _ IH]; intros a Hb; simpl in *.
  - by rewrite Z.add_0_r.
  - pose proof (treeSum_abs c).
    pose proof (sumOver_nonneg treeAbs cs treeAbs_nonneg).
    rewrite Hc, add_of_Z by lia. rewrite IH by lia. f_equal. lia.
Qed.

Lemma calculateTotal_int node :
  intCosts node = true → treeAbs node < 2 ^ 53 →
  totalCost (calculateTotal node) = Number.of_Z (treeSum node).
Proof.
  induction node as [nm lvl c cs tc IH] using CostNode_ind.
  intros [Hc Hcs]%intCosts_spec Hb. simpl in *.
  apply is_int_spec in Hc.
  pose proof (sumOver_nonneg treeAbs cs treeAbs_nonneg).
  unfold childrenSum. change Number.zero with (Number.of_Z 0).
  rewrite childrenSum_int.
  - rewrite Z.add_0_l, Hc at 1.
    assert (Z.abs (fold_right (λ c acc, treeSum c + acc) 0 cs)
            ≤ fold_right (λ c acc, treeAbs c + acc) 0 cs).
    { clear. induction cs as [|c cs IHcs]; simpl; [done|].
      pose proof (treeSum_abs c). lia. }
    rewrite add_of_Z by lia. done.
  - apply Forall_forall. intros child Hin.
    rewrite Forall_forall in IH, Hcs. apply IH; [done|by apply Hcs|].
    apply list_elem_of_lookup in Hin as [j Hj].
    pose proof (sumOver_lookup_le treeAbs cs j child treeAbs_nonneg Hj).
    lia.
  - lia.
Qed.

(** [cost] and [totalCost] of the node of a path, for integer amounts. *)
Lemma nodeAt_processData_int q rows node :
  intRows rows → rowsAbs rows < 2 ^ 53 →
  nodeAt q (processData rows) = Some node →
  cost node = Number.of_Z (rowsSum (rowsAt q rows))
  ∧ totalCost node = Number.of_Z (rowsSum (rowsThrough q rows)).
Proof.
  intros Hint Hb. unfold processData. rewrite nodeAt_calculateTotal.
  destruct (nodeAt q (ingest rows)) as [m|] eqn:Hm; [|done].
  intros [= <-].
  destruct (ingest_int rows Hint Hb) as (H1 & _ & H3).
  destruct (nodeAt_int q _ _ H1 Hm) as [H4 H5]. split.
  - rewrite calculateTotal_cost.
    rewrite <- (nodeOr_Some _ _ _ Hm), cost_nodeOr_ingest.
    apply sumCosts_int; [by apply intRows_filter|].
    pose proof (rowsAbs_filter (λ row, rowPath row = q) rows).
    unfold rowsAt. lia.
  - rewrite calculateTotal_int by (done || lia).
    by rewrite <- (nodeOr_Some _ _ _ Hm), treeSum_nodeOr_ingest.
Qed.
(** ** Permuting the rows *)

Lemma rowsSum_Permutation rows rows' :
  rows ≡ₚ rows' → rowsSum rows = rowsSum rows'.
Proof. unfold rowsSum. induction 1; simpl; lia. Qed.

Lemma rowsAbs_Permutation rows rows' :
  rows ≡ₚ rows' → rowsAbs rows = rowsAbs rows'.
Proof. unfold rowsAbs. induction 1; simpl; lia. Qed.

Lemma intRows_Permutation rows rows' :
  rows ≡ₚ rows' → intRows rows → intRows rows'.
Proof. unfold intRows. by intros ->. Qed.

Lemma reached_Permutation q rows rows' :
  rows ≡ₚ rows' → reached q rows ↔ reached q rows'.
Proof. unfold reached. by intros ->. Qed.

Lemma rowsThrough_nil rows : rowsThrough [] rows = rows.
Proof.
  unfold rowsThrough. induction rows as [|row rows IH]; [done|].
  rewrite filter_cons, decide_True by apply prefix_nil. by rewrite IH.
Qed.

Lemma nodeAt_processData_name_level q rows node :
  nodeAt q (processData rows) = Some node →
  name node = match q with [] => "Total" | _ => lastName q end
  ∧ level node = Z.of_nat (length q).
Proof.
  unfold processData. rewrite nodeAt_calculateTotal.
  destruct (nodeAt q (ingest rows)) as [m|] eqn:Hm; [|done].
  intros [= <-]. rewrite calculateTotal_name, calculateTotal_level.
  rewrite <- (nodeOr_Some _ _ _ Hm), level_nodeOr_ingest. split; [|done].
  destruct q as [|x q]; [|by apply name_nodeOr_ingest].
  unfold nodeOr. simpl. apply ingest_name.
Qed.

Lemma nodeAt_snoc q nm tree node :
  nodeAt q tree = Some node →
  nodeAt (q ++ [nm]) tree = snd <$> findChild nm (children node).
Proof.
  revert tree. induction q as [|x q IH]; intros tree Hq; simpl in *.
  - simplify_eq. by destruct (findChild nm _) as [[]|].
  - destruct (findChild x _) as [[j child]|]; [|done]. by apply IH.
Qed.

(** The children of a node are the next names of the rows that pass
    through it. *)
Lemma elem_of_childNames q rows node nm :
  nodeAt q (processData rows) = Some node →
  nm ∈ name <$> children node ↔ reached (q ++ [nm]) rows.
Proof.
  intros Hn. rewrite <- nodeAt_processData_is_Some.
  rewrite (nodeAt_snoc _ _ _ _ Hn), fmap_is_Some.
  rewrite <- not_eq_None_Some, findChild_None.
  split; [tauto|]. intros H.
  by destruct (decide (nm ∈ name <$> children node)).
Qed.

(** ** A row that adds nothing *)

Lemma reached_middle q pre row post :
  reached q (pre ++ row :: post)
  ↔ reached q (pre ++ post) ∨ q `prefix_of` rowPath row.
Proof.
  unfold reached. rewrite !Exists_app, Exists_cons. tauto.
Qed.

Lemma rowsAt_not_reached q rows : ¬ reached q rows → rowsAt q rows = [].
Proof.
  intros Hnot. apply rowsAt_nil, Forall_forall. intros row Hin Hq.
  apply Hnot. right. apply Exists_exists. exists row. by rewrite Hq.
Qed.

Lemma sumCosts_middle rows1 row rows2 :
  rowCost row = Number.zero →
  sumCosts (rows1 ++ row :: rows2) = sumCosts (rows1 ++ rows2).
Proof.
  intros Hrow. unfold sumCosts. rewrite !fold_left_app. simpl.
  fold (sumCosts rows1). rewrite Hrow, add_zero_r; [done|].
  apply sumCosts_bounded.
Qed.

Lemma rowCost_not_a_number row :
  row !! costKey = None ∨ JS.parseFloat (row !! costKey) = Number.nan →
  rowCost row = Number.zero.
Proof.
  unfold rowCost. intros [->| ->]; by vm_compute.
Qed.

(** ** Amounts with trailing characters *)

Lemma is_digit_cases (a : ascii) :
  JS.is_digit a = true →
  Ascii.eqb a "-" = false ∧ Ascii.eqb a "+" = false
  ∧ Ascii.eqb "I" a = false ∧ ∀ s, JS.strip_space (String a s) = None.
Proof.
  destruct a as [[] [] [] [] [] [] [] []]; intros H; try discriminate H;
    by split_and!.
Qed.

Lemma string_app_nil_r (s : string) : s +:+ "" = s.
Proof.
  induction s as [|a s IH]; [done|].
  change (String a (s +:+ "") = String a s). by rewrite IH.
Qed.

Lemma trimStart_digit a s :
  JS.is_digit a = true → JS.trimStart (String a s) = String a s.
Proof.
  intros (_ & _ & _ & Hs)%is_digit_cases. unfold JS.trimStart. simpl.
  by rewrite Hs.
Qed.

Lemma digits_allDigits acc ds rest :
  allDigits ds = true →
  match rest with String a _ => JS.is_digit a = false | _ => True end →
  JS.digits acc (ds +:+ rest)
  = (fst (fst (JS.digits acc ds)), String.length ds, rest).
Proof.
  revert acc. induction ds as [|a ds IH]; intros acc Hd Hrest.
  - change ("" +:+ rest) with rest.
    destruct rest as [|a r]; [done|]. simpl. by rewrite Hrest.
  - change (String a ds +:+ rest) with (String a (ds +:+ rest)).
    simpl in *. apply andb_true_iff in Hd as [Ha Hd]. rewrite Ha.
    rewrite IH by done.
    by destruct (JS.digits _ ds) as [[v n] r].
Qed.

(** [parseFloat] of a run of digits followed by a text that cannot
    continue the number is [parseFloat] of the digits. *)
Lemma parseFloat_digits_prefix ds rest :
  ds ≠ "" → allDigits ds = true → endsNumber rest = true →
  JS.parseFloat (Some (ds +:+ rest)) = JS.parseFloat (Some ds).
Proof.
  intros Hne Hd Hrest.
  assert (Hr : match rest with
               | String a _ => JS.is_digit a = false
               | _ => True
               end).
  { destruct rest as [|a r]; [done|]. simpl in Hrest.
    apply negb_true_iff in Hrest. by destruct (JS.is_digit a). }
  pose proof (digits_allDigits 0 ds rest Hd Hr) as H1.
  pose proof (digits_allDigits 0 ds "" Hd I) as H2.
  rewrite string_app_nil_r in H2.
  destruct ds as [|a ds]; [done|]. simpl in Hd.
  apply andb_true_iff in Hd as [Ha Hd].
  pose proof (is_digit_cases a Ha) as (Hm & Hp & HI & _).
  unfold JS.parseFloat, JS.parseFloat_string. simpl default.
  change (String a ds +:+ rest) with (String a (ds +:+ rest)) in *.
  rewrite !trimStart_digit by done. rewrite Hm, Hp.
  unfold JS.unsignedDecimalLiteral.
  change (JS.strip_prefix "Infinity" (String a ?s))
    with (if Ascii.eqb "I" a then JS.strip_prefix "nfinity" s else None).
  rewrite HI, H1, H2.
  destruct rest as [|b r]; [done|]. simpl in Hrest.
  apply negb_true_iff in Hrest.
  rewrite !orb_false_iff in Hrest. destruct Hrest as [[[_ Hdot] He] HE].
  rewrite Hdot. simpl String.length. unfold JS.exponentPart. by rewrite He, HE.
Qed.

(** ** Nodes and paths *)

(** The nodes of a built tree are the nodes its paths lead to. *)
Lemma elem_of_subtrees tree node :
  Shaped 0 tree →
  node ∈ subtrees tree ↔ ∃ q, nodeAt q tree = Some node.
Proof.
  intros Hs.
  assert (Hsub : subtrees tree = tree :: (snd <$> descendants tree)).
  { rewrite descendants_subtrees. by destruct tree. }
  rewrite Hsub, elem_of_cons, list_elem_of_fmap. split.
  - intros [->|([q m] & -> & Hin)].
    + by exists [].
    + apply elem_of_descendants in Hin as [_ Hn]; [|done]. by exists q.
  - intros [[|x q] Hn].
    + left. by simplify_eq/=.
    + right. exists (x :: q, node). split; [done|].
      by apply elem_of_descendants.
Qed.

Lemma rowPathFrom_length_le row keys :
  (length (rowPathFrom row keys) ≤ length keys)%nat.
Proof.
  induction keys as [|key keys IH]; [done|].
  cbn [rowPathFrom]. destruct (rowName row key) as [nm|]; [|cbn [length]; lia].
  destruct (isBlank (Some nm)); cbn [length]; lia.
Qed.

Lemma rowPath_length_le row : (length (rowPath row) ≤ 6)%nat.
Proof. apply (rowPathFrom_length_le row levelKeys). Qed.

Lemma reached_length q rows : reached q rows → (length q ≤ 6)%nat.
Proof.
  intros [->|(row & _ & Hp)%Exists_exists]; [simpl; lia|].
  apply prefix_length in Hp. pose proof (rowPath_length_le row). lia.
Qed.

(** The name at position [j] of the path of a row is the trimmed cell of
    the level column [j], and is not empty. *)
Lemma rowPathFrom_lookup row keys j nm :
  rowPathFrom row keys !! j = Some nm →
  ∃ key, keys !! j = Some key ∧ rowName row key = Some nm ∧ nm ≠ "".
Proof.
  revert j. induction keys as [|key keys IH]; intros j; [done|].
  cbn [rowPathFrom]. destruct (rowName row key) as [nm0|] eqn:Hr; [|done].
  destruct (isBlank (Some nm0)) eqn:Hb; [done|].
  destruct j as [|j]; simpl.
  - intros [= ->]. exists key. split_and!; [done..|].
    intros ->. by simpl in Hb.
  - apply IH.
Qed.

Lemma lastName_lookup q :
  q ≠ [] → q !! (length q - 1)%nat = Some (lastName q).
Proof.
  intros Hq. unfold lastName. rewrite last_lookup.
  replace (Init.Nat.pred (length q)) with (length q - 1)%nat by lia.
  destruct (q !! (length q - 1)%nat) eqn:Hl; [done|].
  apply lookup_ge_None in Hl. destruct q; [done|simpl in Hl; lia].
Qed.

(** ** The size of the tree *)

Lemma length_flat_map_insert {A B} (f : A → list B) (l : list A) j x y :
  l !! j = Some x →
  (length (flat_map f (<[j := y]> l)) + length (f x)
   = length (flat_map f l) + length (f y))%nat.
Proof.
  revert j. induction l as [|a l IH]; intros j Hj; [done|].
  destruct j as [|j]; simpl in *.
  - simplify_eq. rewrite !length_app. lia.
  - specialize (IH j Hj). rewrite !length_app. lia.
Qed.

Lemma length_subtrees_addCost c node :
  length (subtrees (addCost c node)) = length (subtrees node).
Proof. by destruct node. Qed.

(** The walk of a row adds at most one node for each name it follows. *)
Lemma length_subtrees_insertPath p c i node :
  (length (subtrees (insertPath p c i node))
   ≤ length (subtrees node) + length p)%nat.
Proof.
  revert i node. induction p as [|nm p IH]; intros i node.
  - cbn [insertPath]. rewrite length_subtrees_addCost. lia.
  - cbn [insertPath]. destruct (findChild nm (children node))
      as [[j child]|] eqn:Hf.
    + apply findChild_Some in Hf as [_ Hj].
      pose proof (length_flat_map_insert subtrees (children node) j child
                    (insertPath p c (i + 1) child) Hj) as Hlen.
      specialize (IH (i + 1) child).
      destruct node as [n l c0 cs tc]. simpl in *. lia.
    + specialize (IH (i + 1) (newChild nm (i + 1))).
      destruct node as [n l c0 cs tc]. simpl in *.
      rewrite flat_map_app, length_app. simpl. rewrite app_nil_r.
      simpl in IH. lia.
Qed.

Lemma length_subtrees_ingest rows :
  (length (subtrees (ingest rows)) ≤ 1 + 6 * length rows)%nat.
Proof.
  induction rows as [|row rows IH] using rev_ind; [simpl; lia|].
  rewrite ingest_snoc, processRow_insertPath, length_app.
  pose proof (length_subtrees_insertPath (rowPath row) (rowCost row) 0
                (ingest rows)).
  pose proof (rowPath_length_le row). simpl. lia.
Qed.

Lemma subtrees_calculateTotal node :
  subtrees (calculateTotal node) = calculateTotal <$> subtrees node.
Proof.
  induction node as [nm lvl c cs tc IH] using CostNode_ind.
  cbn [calculateTotal subtrees children fmap list_fmap]. f_equal.
  induction IH as [|child cs Hc _ IHcs]; [done|].
  cbn [fmap list_fmap flat_map]. rewrite fmap_app. by f_equal.
Qed.

(** ** Rows added after others *)

Lemma firstSeen_app_prefix l l' : firstSeen l `prefix_of` firstSeen (l ++ l').
Proof.
  induction l' as [|x l' IH] using rev_ind.
  - by rewrite app_nil_r.
  - rewrite app_assoc, firstSeen_snoc. case_decide; [done|].
    by apply prefix_app_r.
Qed.

Lemma reached_app_l q rows more : reached q rows → reached q (rows ++ more).
Proof.
  intros [->|H]; [by left|]. right. apply Exists_app. by left.
Qed.

Lemma sumCosts_app rows more :
  sumCosts (rows ++ more)
  = fold_left (λ sum row, sum ⊕ rowCost row) more (sumCosts rows).
Proof. unfold sumCosts. by rewrite fold_left_app. Qed.

Lemma rowsAt_app q rows more :
  rowsAt q (rows ++ more) = rowsAt q rows ++ rowsAt q more.
Proof. unfold rowsAt. by rewrite filter_app. Qed.

(** ** Leaves *)

Lemma firstSeen_nil l : firstSeen l = [] ↔ l = [].
Proof.
  split; [|by intros ->].
  destruct l as [|x l]; [done|]. intros Hnil.
  pose proof (firstSeen_app_prefix [x] l) as Hp. simpl in Hp.
  rewrite Hnil in Hp. by apply prefix_nil_inv in Hp.
Qed.

Lemma omap_nil {A B} (f : A → option B) l :
  omap f l = [] ↔ Forall (λ x, f x = None) l.
Proof.
  induction l as [|x l IH]; simpl; [by split|].
  destruct (f x) eqn:Hx; split.
  - done.
  - intros H. apply Forall_cons in H as [? _]. congruence.
  - intros H. apply Forall_cons. split; [done|]. by apply IH.
  - intros H. apply Forall_cons in H as [_ ?]. by apply IH.
Qed.

Lemma nextName_None q row :
  nextName q row = None ↔ (q `prefix_of` rowPath row → rowPath row = q).
Proof.
  unfold nextName. case_decide as Hp; [|by split].
  rewrite lookup_ge_None. split.
  - intros Hlen _. destruct Hp as [k Hk]. rewrite Hk in Hlen |- *.
    rewrite length_app in Hlen.
    destruct k; [by rewrite app_nil_r|simpl in Hlen; lia].
  - intros H. rewrite (H Hp). lia.
Qed.

(** ** The finalisation pass, twice *)

Lemma calculateTotal_idemp node :
  calculateTotal (calculateTotal node) = calculateTotal node.
Proof.
  induction node as [nm lvl c cs tc IH] using CostNode_ind.
  assert (Hcs : calculateTotal <$> (calculateTotal <$> cs)
                = calculateTotal <$> cs).
  { induction IH as [|child cs Hc _ IHcs]; [done|].
    cbn [fmap list_fmap]. by f_equal. }
  cbn [calculateTotal children name level cost]. by rewrite !Hcs.
Qed.

(** ** Comparing integers in binary64 *)

Lemma compare_canonical (v w : positive) :
  Z.pos (digits2_pos v) ≤ 53 → Z.pos (digits2_pos w) ≤ 53 →
  SFcompare (Number.canonical false v) (Number.canonical false w)
  = Some (Pos.compare v w)
  ∧ SFcompare (Number.canonical true v) (Number.canonical true w)
    = Some (CompOpp (Pos.compare v w)).
Proof.
  intros Hv Hw.
  pose proof (digits_bounds v) as Bv. pose proof (digits_bounds w) as Bw.
  set (dv := Z.pos (digits2_pos v)) in *.
  set (dw := Z.pos (digits2_pos w)) in *.
  assert (Hcmp :
    match Z.compare (dv - Number.prec) (dw - Number.prec) with
    | Lt => Lt
    | Gt => Gt
    | Eq => Pos.compare_cont Eq
              (Z.to_pos (Z.pos v * 2 ^ (Number.prec - dv)))
              (Z.to_pos (Z.pos w * 2 ^ (Number.prec - dw)))
    end = Pos.compare v w).
  { unfold Number.prec.
    destruct (Z.compare_spec (dv - 53) (dw - 53)) as [He|He|He].
    - assert (dv = dw) as Hd by lia. rewrite <- Hd.
      assert (0 < 2 ^ (53 - dv)) by (apply Z.pow_pos_nonneg; lia).
      assert (Hc : ∀ a b, Pos.compare_cont Eq a b = (Z.pos a ?= Z.pos b))
        by done.
      rewrite Hc, !Z2Pos.id by lia.
      rewrite Pos2Z.inj_compare.
      symmetry. apply Zmult_compare_compat_r. lia.
    - symmetry. apply Pos.compare_lt_iff.
      assert (2 ^ dv ≤ 2 ^ (dw - 1)) by (apply Z.pow_le_mono_r; lia).
      lia.
    - symmetry. apply Pos.compare_gt_iff.
      assert (2 ^ dw ≤ 2 ^ (dv - 1)) by (apply Z.pow_le_mono_r; lia).
      lia. }
  unfold Number.canonical. fold dv dw. cbn [SFcompare].
  rewrite <- Hcmp.
  by destruct (Z.compare (dv - Number.prec) (dw - Number.prec)).
Qed.

Lemma digits_below (v : positive) :
  Z.pos v < 2 ^ 53 → Z.pos (digits2_pos v) ≤ 53.
Proof. apply digits_le. Qed.

(** [>] on integers of less than 54 bits is [>] on their values. *)
Lemma gt_of_Z (a b : Z) :
  Z.abs a < 2 ^ 53 → Z.abs b < 2 ^ 53 →
  Number.gt (Number.of_Z a) (Number.of_Z b) = (b <? a).
Proof.
  intros Ha Hb. unfold Number.gt, SFltb.
  destruct a as [|v|v], b as [|w|w];
    rewrite ?of_Z_pos, ?of_Z_neg by (apply digits_below; lia);
    try (destruct (compare_canonical w v) as [Hp Hn];
         [apply digits_below; lia..|]);
    rewrite ?Hp, ?Hn; done.
Qed.

(** ** Non-negative integer amounts *)

Lemma rowsSum_filter_le (P Q : Row → Prop)
    `{!∀ row, Decision (P row)} `{!∀ row, Decision (Q row)} rows :
  (∀ row, P row → Q row) →
  Forall (λ row, 0 ≤ Number.to_Z (rowCost row)) rows →
  0 ≤ rowsSum (filter P rows) ≤ rowsSum (filter Q rows).
Proof.
  intros HPQ Hall. induction Hall as [|row rows Hrow _ IH]; [done|].
  rewrite !filter_cons.
  destruct (decide (P row)) as [HP|HP], (decide (Q row)) as [HQ|HQ];
    unfold rowsSum in *; cbn [foldr] in *; try lia.
  exfalso. by apply HQ, HPQ.
Qed.

Lemma filter_True_id (rows : list Row) : filter (λ _, True) rows = rows.
Proof.
  induction rows as [|row rows IH]; [done|].
  rewrite filter_cons. cbn. by rewrite IH.
Qed.

(** The [cost] and the [totalCost] of a node as integers. *)
Lemma nodeAt_processData_Z q rows node :
  intRows rows → rowsAbs rows < 2 ^ 53 →
  nodeAt q (processData rows) = Some node →
  Number.to_Z (cost node) = rowsSum (rowsAt q rows)
  ∧ Number.to_Z (totalCost node) = rowsSum (rowsThrough q rows)
  ∧ Z.abs (rowsSum (rowsAt q rows)) < 2 ^ 53
  ∧ Z.abs (rowsSum (rowsThrough q rows)) < 2 ^ 53.
Proof.
  intros Hint Hb Hn.
  destruct (nodeAt_processData_int q rows node Hint Hb Hn) as [-> ->].
  assert (H1 : Z.abs (rowsSum (rowsAt q rows)) < 2 ^ 53).
  { pose proof (rowsSum_abs (rowsAt q rows)).
    pose proof (rowsAbs_filter (λ row, rowPath row = q) rows).
    unfold rowsAt in *. lia. }
  assert (H2 : Z.abs (rowsSum (rowsThrough q rows)) < 2 ^ 53).
  { pose proof (rowsSum_abs (rowsThrough q rows)).
    pose proof (rowsAbs_filter (λ row, q `prefix_of` rowPath row) rows).
    unfold rowsThrough in *. lia. }
  by rewrite !to_Z_of_Z.
Qed.

(** The options of a built tree, path by path. *)
Lemma elem_of_index q rows node :
  q ≠ [] → nodeAt q (processData rows) = Some node →
  optionOf (q, node) ∈ index (processData rows)
  ↔ (1 ≤ length q ≤ 3)%nat ∧ Number.gt (totalCost node) Number.zero = true.
Proof.
  intros Hq Hn. pose proof (processData_Shaped rows) as Hs.
  destruct (nodeAt_processData_name_level _ _ _ Hn) as [_ Hlevel].
  rewrite index_descendants by done.
  rewrite (list_elem_of_fmap_inj optionOf).
  rewrite list_elem_of_filter, elem_of_descendants by done.
  unfold listed. simpl. rewrite Hlevel.
  rewrite Is_true_true, !andb_true_iff, !Z.leb_le. split.
  - intros [[[? ?] ?] _]. split; [lia|done].
  - intros [? ?]. split_and!; try done; lia.
Qed.

(** ** The paths of the options *)

Lemma NoDup_flat_preorder d P cs :
  NoDup (name <$> cs) → Forall (Shaped d) cs →
  Forall (λ c, ∀ path, NoDup (fst <$> preorder path c)) cs →
  NoDup (fst <$> flat_map (preorder P) cs).
Proof.
  intros Hnd Hs IH. induction cs as [|c cs IHcs]; [constructor|].
  cbn [flat_map]. rewrite fmap_app.
  apply NoDup_cons in Hnd as [Hc Hnd].
  apply Forall_cons in Hs as [Hsc Hs]. apply Forall_cons in IH as [IHc IH].
  apply NoDup_app. split_and!; [apply IHc| |by apply IHcs].
  intros q ([q1 m1] & -> & Hin1)%list_elem_of_fmap
           ([q2 m2] & Heq & Hin2)%list_elem_of_fmap.
  simpl in Heq. subst q2.
  apply (elem_of_preorder d) in Hin1 as (q1' & -> & _); [|done].
  apply elem_of_flat_map in Hin2 as (c' & Hc' & Hin2).
  apply (elem_of_preorder d) in Hin2 as (q2' & Heq & _);
    [|by eapply (proj1 (Forall_forall _ _) Hs)].
  apply app_inv_head in Heq. injection Heq as Heq _.
  apply Hc. rewrite Heq. by apply list_elem_of_fmap_2.
Qed.

Lemma NoDup_preorder d path node :
  Shaped d node → NoDup (fst <$> preorder path node).
Proof.
  revert d path.
  induction node as [nm lvl c cs tc IH] using CostNode_ind.
  intros d path (_ & Hnd & Hs)%Shaped_inv. simpl in *.
  apply NoDup_cons. split.
  - intros ([q m] & Heq & Hin)%list_elem_of_fmap. simpl in Heq.
    apply elem_of_flat_map in Hin as (c' & Hc' & Hin).
    apply (elem_of_preorder (d + 1)) in Hin as (q' & Hq & _);
      [|by eapply (proj1 (Forall_forall _ _) Hs)].
    subst q. rewrite <- (app_nil_r (path ++ [nm])) in Hq at 1.
    by apply app_inv_head in Hq.
  - apply (NoDup_flat_preorder (d + 1)); [done..|].
    apply Forall_forall. intros c' Hc' path'.
    pose proof (proj1 (Forall_forall _ _) IH c' Hc') as IHc.
    pose proof (proj1 (Forall_forall _ _) Hs c' Hc') as Hsc.
    by apply (IHc (d + 1)).
Qed.

(** No path is listed twice below the root. *)
Lemma NoDup_descendants tree :
  Shaped 0 tree → NoDup (fst <$> descendants tree).
Proof.
  intros (_ & Hnd & Hs)%Shaped_inv.
  apply (NoDup_flat_preorder (0 + 1)); [done..|].
  apply Forall_forall. intros c Hc path.
  apply (NoDup_preorder (0 + 1)).
  by apply (proj1 (Forall_forall _ _) Hs).
Qed.

Lemma path_index tree :
  Shaped 0 tree →
  CategoryOption.path <$> index tree
  = fst <$> filter (λ pn, listed pn.2) (descendants tree).
Proof.
  intros Hs. rewrite index_descendants by done.
  rewrite <- list_fmap_compose. done.
Qed.

Lemma name_index tree :
  Shaped 0 tree →
  CategoryOption.name <$> index tree
  = join " > " <$> (CategoryOption.path <$> index tree).
Proof.
  intros Hs. rewrite index_descendants by done.
  by rewrite <- !list_fmap_compose.
Qed.

Lemma NoDup_path_index tree :
  Shaped 0 tree → NoDup (CategoryOption.path <$> index tree).
Proof.
  intros Hs. rewrite path_index by done.
  eapply sublist_NoDup; [by apply NoDup_descendants|].
  apply fmap_sublist, sublist_filter.
Qed.

(** Every listed path is the start of the path of a row. *)
Lemma path_index_reached rows q :
  q ∈ CategoryOption.path <$> index (processData rows) →
  q ≠ [] ∧ Exists (λ row, q `prefix_of` rowPath row) rows.
Proof.
  pose proof (processData_Shaped rows) as Hs.
  rewrite path_index by done.
  intros ([q' m] & -> & [_ Hin]%list_elem_of_filter)%list_elem_of_fmap.
  apply elem_of_descendants in Hin as [Hq Hn]; [|done]. simpl.
  split; [done|].
  assert (Hr : reached q' rows) by (by apply nodeAt_processData_is_Some).
  by destruct Hr.
Qed.

(** ** Joining names *)

Lemma append_cons a s t : String a s +:+ t = String a (s +:+ t).
Proof. done. Qed.

Lemma append_snoc s a t : s +:+ String a t = (s +:+ String a "") +:+ t.
Proof.
  induction s as [|b s IH]; [done|]. rewrite !append_cons. by f_equal.
Qed.

Lemma hasChar_app c s t : hasChar c (s +:+ t) = hasChar c s || hasChar c t.
Proof.
  induction s as [|a s IH]; [done|].
  rewrite append_cons. cbn [hasChar]. rewrite IH. by rewrite orb_assoc.
Qed.

Lemma append_char_inj c s t x y :
  hasChar c s = false → hasChar c t = false →
  s +:+ String c x = t +:+ String c y → s = t ∧ x = y.
Proof.
  revert t. induction s as [|a s IH]; intros [|b t] Hs Ht Heq.
  - by simplify_eq.
  - rewrite append_cons in Heq. injection Heq as <- _.
    cbn [hasChar] in Ht. by rewrite Ascii.eqb_refl in Ht.
  - rewrite append_cons in Heq. injection Heq as -> _.
    cbn [hasChar] in Hs. by rewrite Ascii.eqb_refl in Hs.
  - rewrite !append_cons in Heq. injection Heq as -> Heq.
    cbn [hasChar] in Hs, Ht.
    apply orb_false_iff in Hs as [_ Hs]. apply orb_false_iff in Ht as [_ Ht].
    destruct (IH t Hs Ht Heq) as [-> ->]. done.
Qed.

Lemma append_last_inj a s t : s +:+ String a "" = t +:+ String a "" → s = t.
Proof.
  revert t. induction s as [|b s IH]; intros [|b' t] Heq.
  - done.
  - rewrite append_cons in Heq. injection Heq as _ Heq. by destruct t.
  - rewrite append_cons in Heq. injection Heq as _ Heq. by destruct s.
  - rewrite !append_cons in Heq. injection Heq as -> Heq.
    by rewrite (IH t Heq).
Qed.

Lemma join_cons s s' l :
  join " > " (s :: s' :: l)
  = (s +:+ " ") +:+ String ">" (String " " (join " > " (s' :: l))).
Proof.
  change (join " > " (s :: s' :: l))
    with (s +:+ String " " (String ">" (String " " (join " > " (s' :: l))))).
  by rewrite append_snoc.
Qed.

Lemma hasChar_join s s' l : hasChar ">" (join " > " (s :: s' :: l)) = true.
Proof.
  rewrite join_cons, hasChar_app. cbn [hasChar].
  rewrite Ascii.eqb_refl. by rewrite orb_true_r.
Qed.

(** Paths of names without [>] are joined into different texts. *)
Lemma join_inj l1 l2 :
  l1 ≠ [] → l2 ≠ [] →
  Forall (λ nm, hasChar ">" nm = false) l1 →
  Forall (λ nm, hasChar ">" nm = false) l2 →
  join " > " l1 = join " > " l2 → l1 = l2.
Proof.
  revert l2. induction l1 as [|s l1 IH]; [done|].
  intros [|t l2] _ Hl2 H1 H2 Heq; [done|]. clear Hl2.
  apply Forall_cons in H1 as [Hs H1]. apply Forall_cons in H2 as [Ht H2].
  destruct l1 as [|s' l1], l2 as [|t' l2].
  - simpl in Heq. by subst.
  - exfalso. pose proof (hasChar_join t t' l2) as Hgt.
    rewrite <- Heq in Hgt. simpl in Hgt. congruence.
  - exfalso. pose proof (hasChar_join s s' l1) as Hgt.
    rewrite Heq in Hgt. simpl in Hgt. congruence.
  - rewrite !join_cons in Heq.
    apply append_char_inj in Heq as [Hst Heq].
    + apply append_last_inj in Hst as ->. injection Heq as Heq.
      f_equal. by apply IH.
    + rewrite hasChar_app, Hs. done.
    + rewrite hasChar_app, Ht. done.
Qed.

(** Names without [>] identify the options. *)
Lemma NoDup_name_index rows :
  plainNames rows →
  NoDup (CategoryOption.name <$> index (processData rows)).
Proof.
  intros Hplain. pose proof (processData_Shaped rows) as Hs.
  rewrite name_index by done.
  assert (Hq : ∀ q, q ∈ CategoryOption.path <$> index (processData rows) →
            q ≠ [] ∧ Forall (λ nm, hasChar ">" nm = false) q).
  { intros q [Hne (row & Hrow & [k Hk])%Exists_exists]%path_index_reached.
    split; [done|].
    pose proof (proj1 (Forall_forall _ _) Hplain row Hrow) as Hall.
    simpl in Hall. rewrite Hk in Hall. by apply Forall_app in Hall as [? _]. }
  apply NoDup_fmap_2_strong; [|by apply NoDup_path_index].
  intros q1 q2 [? ?]%Hq [? ?]%Hq. by apply join_inj.
Qed.

(** ** Finding an option by name *)

Lemma list_find_NoDup {A B} `{EqDecision B} (f : A → B) (l : list A) x :
  NoDup (f <$> l) → x ∈ l →
  ∃ i, list_find (λ y, f y = f x) l = Some (i, x).
Proof.
  induction l as [|a l IH]; intros Hnd Hin; [by apply elem_of_nil in Hin|].
  apply NoDup_cons in Hnd as [Ha Hnd].
  apply elem_of_cons in Hin as [->|Hin].
  - exists 0%nat. cbn. by rewrite decide_True.
  - destruct (IH Hnd Hin) as [i Hi]. exists (S i). cbn.
    rewrite decide_False.
    + by rewrite Hi.
    + intros Heq. apply Ha. rewrite Heq. by apply list_elem_of_fmap_2.
Qed.

(** ** Totals are never the negative zero *)

Lemma add_zero_l (x : number) : x ≠ Number.neg_zero → Number.zero ⊕ x = x.
Proof. by destruct x as [[]| | |]. Qed.

Lemma childrenSum_bounded cs acc :
  Number.bounded_below acc →
  Forall (λ c, Number.bounded_below (totalCost c)) cs →
  Number.bounded_below (fold_left (λ sum child, sum ⊕ totalCost child) cs acc).
Proof.
  intros Hacc Hcs. revert acc Hacc.
  induction Hcs as [|c cs Hc _ IH]; intros acc Hacc; [done|].
  cbn [fold_left]. apply IH. by apply add_bounded.
Qed.

Lemma Forall_subtrees_inv (P : CostNode → Prop) node :
  Forall P (subtrees node) →
  P node ∧ Forall (λ c, Forall P (subtrees c)) (children node).
Proof.
  destruct node as [nm lvl c cs tc]. cbn [subtrees children].
  intros Hall. apply Forall_cons in Hall as [HP Hcs]. split; [done|].
  clear HP. induction cs as [|child cs IH]; [constructor|].
  cbn [flat_map] in Hcs. apply Forall_app in Hcs as [Hchild Hcs].
  apply Forall_cons. split; [done|]. by apply IH.
Qed.

Lemma totalCost_bounded node :
  Forall (λ m, Number.bounded_below (cost m)) (subtrees node) →
  Number.bounded_below (totalCost (calculateTotal node)).
Proof.
  induction node as [nm lvl c cs tc IH] using CostNode_ind.
  intros [Hc Hcs]%Forall_subtrees_inv. cbn [cost children] in Hc, Hcs.
  rewrite calculateTotal_totalCost. cbn [cost children].
  apply add_bounded; [done|]. apply childrenSum_bounded; [done|].
  apply Forall_fmap, Forall_forall. intros child Hchild. simpl.
  apply (proj1 (Forall_forall _ _) IH child Hchild).
  apply (proj1 (Forall_forall _ _) Hcs child Hchild).
Qed.

Lemma cost_ingest_bounded rows :
  Forall (λ m, Number.bounded_below (cost m) ∧ cost m ≠ Number.neg_zero)
    (subtrees (ingest rows)).
Proof.
  apply Forall_forall.
  intros node [q Hn]%elem_of_subtrees; [|apply ingest_Shaped].
  rewrite <- (nodeOr_Some _ _ _ Hn), cost_nodeOr_ingest.
  apply sumCosts_bounded.
Qed.

Lemma subtrees_nodeAt q tree node :
  nodeAt q tree = Some node → subtrees node ⊆ subtrees tree.
Proof.
  revert tree. induction q as [|nm q IH]; intros tree Hn.
  - by simplify_eq/=.
  - cbn [nodeAt] in Hn.
    destruct (findChild nm (children tree)) as [[j child]|] eqn:Hf; [|done].
    apply findChild_Some in Hf as [_ Hj].
    intros m Hm. apply (IH _ Hn) in Hm.
    destruct tree as [n l c cs tc]. cbn [subtrees children] in *.
    apply elem_of_cons. right. apply elem_of_flat_map.
    exists child. split; [by eapply list_elem_of_lookup_2|done].
Qed.

(** No [totalCost] of a built tree is the negative zero. *)
Lemma totalCost_not_neg_zero rows node :
  node ∈ subtrees (processData rows) → totalCost node ≠ Number.neg_zero.
Proof.
  intros Hin. unfold processData in Hin.
  rewrite subtrees_calculateTotal in Hin.
  apply list_elem_of_fmap in Hin as (m & -> & Hm).
  pose proof (cost_ingest_bounded rows) as Hall.
  assert (Hsub : Forall (λ m, Number.bounded_below (cost m)
                              ∧ cost m ≠ Number.neg_zero) (subtrees m)).
  { apply elem_of_subtrees in Hm as [q Hq]; [|apply ingest_Shaped].
    apply Forall_forall. intros m' Hm'.
    apply (proj1 (Forall_forall _ _) Hall).
    by apply (subtrees_nodeAt q _ m). }
  destruct (Forall_subtrees_inv _ _ Hsub) as [[Hb Hnz] Hcs].
  rewrite calculateTotal_totalCost. intros Hz.
  apply add_neg_zero in Hz as [Hz _]; [done|done|].
  apply childrenSum_bounded; [done|].
  apply Forall_fmap, Forall_forall. intros child Hchild. simpl.
  apply totalCost_bounded.
  eapply Forall_impl;
    [apply (proj1 (Forall_forall _ _) Hcs child Hchild)|].
  by intros ? [? _].
Qed.

(** ** The options of any tree *)

Lemma elem_of_extractCategories node path o :
  o ∈ extractCategories node path →
  1 ≤ CategoryOption.level o ≤ 3
  ∧ CategoryOption.level o = level (CategoryOption.node o)
  ∧ last (CategoryOption.path o) = Some (name (CategoryOption.node o))
  ∧ CategoryOption.name o = join " > " (CategoryOption.path o)
  ∧ Number.gt (totalCost (CategoryOption.node o)) Number.zero = true
  ∧ CategoryOption.node o ∈ subtrees node.
Proof.
  revert path. induction node as [nm lvl c cs tc IH] using CostNode_ind.
  intros path. cbn [extractCategories level name children totalCost].
  rewrite elem_of_app. intros [Hin|Hin].
  - destruct ((1 <=? lvl) && (lvl <=? 3)
              && Number.gt tc Number.zero) eqn:Hl;
      [|by apply elem_of_nil in Hin].
    apply list_elem_of_singleton in Hin as ->.
    rewrite !andb_true_iff, !Z.leb_le in Hl. destruct Hl as [[? ?] ?].
    cbn. rewrite last_snoc.
    split_and!; first [done | lia | by (apply elem_of_cons; left)].
  - destruct (lvl <? 3); [|by apply elem_of_nil in Hin].
    apply elem_of_flat_map in Hin as (child & Hchild & Hin).
    apply (proj1 (Forall_forall _ _) IH child Hchild) in Hin
      as (? & ? & ? & ? & ? & Hsub).
    split_and!; try done; try lia.
    cbn [subtrees children]. apply elem_of_cons. right.
    apply elem_of_flat_map. by exists child.
Qed.

Lemma elem_of_index_any tree o :
  o ∈ index tree →
  1 ≤ CategoryOption.level o ≤ 3
  ∧ CategoryOption.level o = level (CategoryOption.node o)
  ∧ last (CategoryOption.path o) = Some (name (CategoryOption.node o))
  ∧ CategoryOption.name o = join " > " (CategoryOption.path o)
  ∧ Number.gt (totalCost (CategoryOption.node o)) Number.zero = true
  ∧ CategoryOption.node o ∈ subtrees tree.
Proof.
  unfold index. intros (child & Hchild & Hin)%elem_of_flat_map.
  apply elem_of_extractCategories in Hin as (? & ? & ? & ? & ? & Hsub).
  split_and!; try done; try lia.
  destruct tree as [n l c cs tc]. cbn [subtrees children] in *.
  apply elem_of_cons. right. apply elem_of_flat_map. by exists child.
Qed.

Lemma subtrees_subtrees node m :
  m ∈ subtrees node → subtrees m ⊆ subtrees node.
Proof.
  induction node as [nm lvl c cs tc IH] using CostNode_ind.
  cbn [subtrees children]. intros [->|Hin]%elem_of_cons; [done|].
  apply elem_of_flat_map in Hin as (child & Hchild & Hin).
  intros m' Hm'. apply elem_of_cons. right. apply elem_of_flat_map.
  exists child. split; [done|].
  by apply (proj1 (Forall_forall _ _) IH child Hchild Hin).
Qed.

(** ** The numbers of a built tree *)

Section Closed.
Variable P : number → Prop.
Hypothesis P_zero : P Number.zero.
Hypothesis P_add : ∀ x y, P x → P y → P (x ⊕ y).

Lemma sumCosts_closed rows :
  Forall (λ row, P (rowCost row)) rows → P (sumCosts rows).
Proof.
  induction rows as [|row rows IH] using rev_ind; [done|].
  intros [Hrows Hrow]%Forall_app. apply Forall_cons in Hrow as [Hrow _].
  rewrite sumCosts_snoc. apply P_add; [by apply IH|done].
Qed.

Lemma cost_ingest_closed rows :
  Forall (λ row, P (rowCost row)) rows →
  Forall (λ m, P (cost m)) (subtrees (ingest rows)).
Proof.
  intros Hrows. apply Forall_forall.
  intros node [q Hn]%elem_of_subtrees; [|apply ingest_Shaped].
  rewrite <- (nodeOr_Some _ _ _ Hn), cost_nodeOr_ingest.
  apply sumCosts_closed. unfold rowsAt.
  apply Forall_forall. intros row [_ Hrow]%list_elem_of_filter.
  by apply (proj1 (Forall_forall _ _) Hrows).
Qed.

Lemma childrenSum_closed cs acc :
  P acc → Forall (λ c, P (totalCost c)) cs →
  P (fold_left (λ sum child, sum ⊕ totalCost child) cs acc).
Proof.
  intros Hacc Hcs. revert acc Hacc.
  induction Hcs as [|c cs Hc _ IH]; intros acc Hacc; [done|].
  cbn [fold_left]. apply IH. by apply P_add.
Qed.

Lemma calculateTotal_closed node :
  Forall (λ m, P (cost m)) (subtrees node) →
  Forall (λ m, P (cost m) ∧ P (totalCost m)) (subtrees (calculateTotal node)).
Proof.
  induction node as [nm lvl c cs tc IH] using CostNode_ind.
  intros [Hc Hcs]%Forall_subtrees_inv. cbn [cost children] in Hc, Hcs.
  assert (Hall : Forall (λ child,
            Forall (λ m, P (cost m) ∧ P (totalCost m))
              (subtrees (calculateTotal child))) cs).
  { apply Forall_forall. intros child Hchild.
    apply (proj1 (Forall_forall _ _) IH child Hchild).
    apply (proj1 (Forall_forall _ _) Hcs child Hchild). }
  cbn [calculateTotal subtrees children name level cost].
  apply Forall_cons. split.
  - cbn [cost totalCost]. split; [done|]. apply P_add; [done|].
    apply childrenSum_closed; [done|].
    apply Forall_fmap, Forall_forall. intros child Hchild. simpl.
    pose proof (proj1 (Forall_forall _ _) Hall child Hchild) as Hsub.
    by apply Forall_subtrees_inv in Hsub as [[_ ?] _].
  - clear -Hall. induction Hall as [|child cs Hchild _ IHcs]; [done|].
    cbn [fmap list_fmap flat_map]. apply Forall_app. split; [done|].
    apply IHcs.
Qed.

(** Every [cost] and every [totalCost] is made from 0 and the amounts of
    the rows by additions. *)
Lemma processData_closed rows :
  Forall (λ row, P (rowCost row)) rows →
  Forall (λ m, P (cost m) ∧ P (totalCost m)) (subtrees (processData rows)).
Proof.
  intros Hrows. by apply calculateTotal_closed, cost_ingest_closed.
Qed.

End Closed.

(** ** Non-negative amounts *)

Lemma add_nonNegative (x y : number) :
  Number.bounded_below x ∧ nonNegative x = true →
  Number.bounded_below y ∧ nonNegative y = true →
  Number.bounded_below (x ⊕ y) ∧ nonNegative (x ⊕ y) = true.
Proof.
  intros [Bx Hx] [By Hy]. split; [by apply add_bounded|].
  destruct x as [sx|[]| |[] mx ex], y as [sy|[]| |[] my ey]; try done.
  - by destruct sx, sy.
  - unfold Number.add, SFadd. cbn [cond_Zopp].
    assert (He : SpecFloat.emin Number.prec Number.emax ≤ Z.min ex ey).
    { cbn [Number.bounded_below] in Bx, By. unfold Number.emin in Bx, By.
      lia. }
    pose proof (binary_round_nonzero false
                  (fst (shl_align mx ex (Z.min ex ey))
                   + fst (shl_align my ey (Z.min ex ey)))
                  (Z.min ex ey) He) as Hr.
    rewrite <- Pos2Z.inj_add. unfold binary_normalize.
    destruct (binary_round _ _ _ _ _) as [|s'| |s' m e]; try done.
    + by subst s'.
    + destruct Hr as [-> _]. done.
Qed.

(** ** The order of the numbers *)

Lemma lt_le_trans (c x y : number) :
  SFltb c x = true → SFleb x y = true → SFltb c y = true.
Proof.
  assert (Hc : ∀ a b,
            PosDef.Pos.compare_cont Eq a b = (Z.pos a ?= Z.pos b)) by done.
  unfold SFltb, SFleb.
  destruct c as [sc|sc| |sc mc ec], x as [sx|sx| |sx mx ex],
    y as [sy|sy| |sy my ey];
    try destruct sc; try destruct sx; try destruct sy;
    cbn [SFcompare]; try done.
  all: rewrite !Hc.
  all: destruct (Z.compare_spec ec ex), (Z.compare_spec ex ey),
         (Z.compare_spec ec ey); try done; try lia.
  all: destruct (Z.compare_spec (Z.pos mc) (Z.pos mx)),
         (Z.compare_spec (Z.pos mx) (Z.pos my)),
         (Z.compare_spec (Z.pos mc) (Z.pos my)); try done; try lia.
Qed.

Lemma gt_lessEq (c x y : number) :
  Number.gt x c = true → lessEq x y = true → Number.gt y c = true.
Proof. apply lt_le_trans. Qed.

(** ** What is drawn as a leaf *)

Lemma nonNegative_of_Z (z : Z) :
  Z.abs z < 2 ^ 53 → 0 ≤ z → nonNegative (Number.of_Z z) = true.
Proof.
  intros Hb Hz. destruct z as [|v|v]; [done| |lia].
  rewrite of_Z_pos by (apply digits_below; lia). done.
Qed.

Lemma nonNegative_to_Z (x : number) : nonNegative x = true → 0 ≤ Number.to_Z x.
Proof.
  destruct x as [s|s| |[] m e]; try done. intros _. cbn.
  apply Z.shiftl_nonneg. lia.
Qed.

Lemma sum_zero {A} (f : A → Z) (l : list A) :
  Forall (λ x, 0 ≤ f x) l →
  fold_right (λ x acc, f x + acc) 0 l = 0 ↔ Forall (λ x, f x = 0) l.
Proof.
  induction 1 as [|x l Hx Hl IH]; [done|]. cbn [fold_right].
  pose proof (sumOver_nonneg f l) as Hs.
  rewrite Forall_cons, <- IH. 
  assert (0 ≤ fold_right (λ x acc, f x + acc) 0 l).
  { clear -Hl. induction Hl; cbn [fold_right]; lia. }
  lia.
Qed.

Lemma of_Z_inj (a b : Z) :
  Z.abs a < 2 ^ 53 → Z.abs b < 2 ^ 53 →
  Number.of_Z a = Number.of_Z b → a = b.
Proof.
  intros Ha Hb Heq. by rewrite <- (to_Z_of_Z a), <- (to_Z_of_Z b), Heq.
Qed.

Lemma rowsAbs_elem row rows :
  row ∈ rows → Z.abs (Number.to_Z (rowCost row)) ≤ rowsAbs rows.
Proof.
  induction rows as [|row' rows IH]; intros Hin;
    [by apply elem_of_nil in Hin|].
  pose proof (rowsAbs_nonneg rows).
  unfold rowsAbs in *. cbn [foldr].
  apply elem_of_cons in Hin as [->|Hin]; [lia|].
  specialize (IH Hin). lia.
Qed.

Lemma subtrees_self node : node ∈ subtrees node.
Proof. destruct node as [nm lvl c cs tc]. apply elem_of_cons. by left. Qed.

Lemma subtrees_child node child :
  child ∈ children node → child ∈ subtrees node.
Proof.
  intros Hin. destruct node as [nm lvl c cs tc]. cbn [subtrees children] in *.
  apply elem_of_cons. right. apply elem_of_flat_map.
  exists child. split; [done|apply subtrees_self].
Qed.

Lemma treeSum_unfold node :
  treeSum node
  = Number.to_Z (cost node)
    + fold_right (λ child acc, treeSum child + acc) 0 (children node).
Proof. by destruct node. Qed.

Lemma validChildren_sum cs :
  Forall (λ c0,
            totalCost (calculateTotal c0) = Number.of_Z (treeSum c0)
            ∧ Z.abs (treeSum c0) < 2 ^ 53 ∧ 0 ≤ treeSum c0) cs →
  filter (λ c, Number.gt (totalCost c) Number.zero = true)
    (calculateTotal <$> cs) = []
  ↔ fold_right (λ c acc, treeSum c + acc) 0 cs = 0.
Proof.
  induction 1 as [|c0 cs (Ht & Hb & Hpos) Hcs IH]; [done|].
  assert (Hrest : 0 ≤ fold_right (λ c acc, treeSum c + acc) 0 cs).
  { clear -Hcs. induction Hcs as [|? ? (_ & _ & ?) _ IH];
      cbn [fold_right]; lia. }
  cbn [fmap list_fmap fold_right]. rewrite filter_cons.
  rewrite Ht. change Number.zero with (Number.of_Z 0).
  rewrite gt_of_Z by (done || by vm_compute).
  destruct (Z.ltb_spec 0 (treeSum c0)).
  - rewrite decide_True by done. split; [done|lia].
  - rewrite decide_False by done. rewrite IH. lia.
Qed.

(** A node of a tree of non-negative integer amounts has no child of a
    positive [totalCost] exactly when its [totalCost] is its [cost]. *)
Lemma validChildren_nil rows q node :
  intRows rows → rowsAbs rows < 2 ^ 53 →
  Forall (λ row, 0 ≤ Number.to_Z (rowCost row)) rows →
  nodeAt q (processData rows) = Some node →
  Branch.validChildren node = [] ↔ totalCost node = cost node.
Proof.
  intros Hint Hb Hpos Hn.
  destruct (ingest_int rows Hint Hb) as (Hi & _ & Habs).
  unfold processData in Hn. rewrite nodeAt_calculateTotal in Hn.
  destruct (nodeAt q (ingest rows)) as [m0|] eqn:Hm0; [|done].
  injection Hn as <-.
  destruct (nodeAt_int q _ _ Hi Hm0) as [Him Habsm].
  apply intCosts_spec in Him as [Hcost Hcs].
  assert (Hchild : Forall (λ c0,
            totalCost (calculateTotal c0) = Number.of_Z (treeSum c0)
            ∧ Z.abs (treeSum c0) < 2 ^ 53 ∧ 0 ≤ treeSum c0) (children m0)).
  { apply Forall_forall. intros c0 Hc0.
    pose proof (proj1 (Forall_forall _ _) Hcs c0 Hc0) as Hic.
    apply list_elem_of_lookup in Hc0 as Hj. destruct Hj as [j Hj].
    pose proof (treeAbs_child _ _ _ Hj). pose proof (treeSum_abs c0).
    assert (Ht : totalCost (calculateTotal c0) = Number.of_Z (treeSum c0))
      by (apply calculateTotal_int; [done|lia]).
    split_and!; [done|lia|].
    assert (Hin : calculateTotal c0 ∈ subtrees (processData rows)).
    { unfold processData. rewrite subtrees_calculateTotal.
      apply list_elem_of_fmap_2.
      apply (subtrees_nodeAt q _ m0 Hm0). by apply subtrees_child. }
    pose proof (processData_closed
                  (λ x, Number.bounded_below x ∧ nonNegative x = true)
                  (conj I eq_refl) add_nonNegative rows) as Hall.
    assert (Hrows : Forall (λ row, Number.bounded_below (rowCost row)
                              ∧ nonNegative (rowCost row) = true) rows).
    { apply Forall_forall. intros row Hrow. split; [apply rowCost_bounded|].
      pose proof (proj1 (Forall_forall _ _) Hint row Hrow) as Hr.
      pose proof (proj1 (Forall_forall _ _) Hpos row Hrow) as Hp.
      simpl in Hr, Hp. apply is_int_spec in Hr. rewrite Hr.
      apply nonNegative_of_Z; [|done].
      pose proof (rowsAbs_elem row rows Hrow). lia. }
    pose proof (proj1 (Forall_forall _ _) (Hall Hrows) _ Hin) as [_ [_ Hnn]].
    apply nonNegative_to_Z in Hnn. rewrite Ht, to_Z_of_Z in Hnn by lia.
    done. }
  pose proof (treeSum_abs m0) as Hsm. pose proof (treeAbs_cost m0) as Hcm.
  rewrite calculateTotal_cost.
  rewrite calculateTotal_int by (by apply intCosts_spec || lia).
  apply is_int_spec in Hcost.
  unfold Branch.validChildren. rewrite calculateTotal_children.
  rewrite (validChildren_sum _ Hchild), treeSum_unfold.
  rewrite treeSum_unfold in Hsm.
  set (a := Number.to_Z (cost m0)) in *.
  set (s := fold_right (λ c acc, treeSum c + acc) 0 (children m0)) in *.
  rewrite Hcost. split.
  - intros ->. f_equal. lia.
  - intros Heq. apply of_Z_inj in Heq; lia.
Qed.

(** ** What is read of a row *)

Lemma rowPathFrom_ext (row row' : Row) keys :
  (∀ key, key ∈ keys → rowName row key = rowName row' key) →
  rowPathFrom row keys = rowPathFrom row' keys.
Proof.
  induction keys as [|key keys IH]; intros Hext; [done|].
  cbn [rowPathFrom]. rewrite <- (Hext key) by (apply elem_of_cons; by left).
  destruct (rowName row key) as [nm|]; [|done].
  destruct (isBlank (Some nm)); [done|]. f_equal. apply IH.
  intros key' Hin. apply Hext, elem_of_cons. by right.
Qed.

(** ** The total of a node and the totals of its children *)

Lemma sumFromLeft_fold_left cs acc :
  fold_left (λ sum child, sum ⊕ totalCost child) cs acc
  = sumFromLeft acc (totalCost <$> cs).
Proof.
  revert acc. induction cs as [|c cs IH]; intros acc; [done|].
  cbn [fold_left fmap list_fmap sumFromLeft]. apply IH.
Qed.

Lemma childrenSum_sumOfChildTotals node :
  childrenSum (children node) = sumOfChildTotals node.
Proof. apply sumFromLeft_fold_left. Qed.

(** After the finalisation pass the [totalCost] of every node is its
    [cost] plus the totals of its children, added from the left. *)
Lemma total_sum_subtrees tree :
  Forall (λ node, totalCost node = cost node ⊕ sumOfChildTotals node)
    (subtrees (calculateTotal tree)).
Proof.
  eapply Forall_impl; [apply calculateTotal_subtrees|].
  intros node Heq. simpl in Heq.
  by rewrite <- childrenSum_sumOfChildTotals.
Qed.

Lemma of_Z_not_nan (z : Z) : Z.abs z < 2 ^ 53 → Number.of_Z z ≠ Number.nan.
Proof.
  intros Hz. destruct (decide (z = 0)) as [->|Hne]; [done|].
  destruct (of_Z_value z Hz Hne) as (m & e & -> & _). done.
Qed.

Lemma child_totals_int node :
  intCosts node = true → treeAbs node < 2 ^ 53 →
  Forall (λ c0,
            totalCost (calculateTotal c0) = Number.of_Z (treeSum c0)
            ∧ Z.abs (treeSum c0) < 2 ^ 53) (children node).
Proof.
  intros [_ Hcs]%intCosts_spec Hb. apply Forall_forall. intros c0 Hc0.
  pose proof (proj1 (Forall_forall _ _) Hcs c0 Hc0) as Hic.
  apply list_elem_of_lookup in Hc0 as [j Hj].
  pose proof (treeAbs_child _ _ _ Hj). pose proof (treeSum_abs c0).
  split; [|lia]. apply calculateTotal_int; [done|lia].
Qed.

Lemma sumZ_child_totals cs :
  Forall (λ c0,
            totalCost (calculateTotal c0) = Number.of_Z (treeSum c0)
            ∧ Z.abs (treeSum c0) < 2 ^ 53) cs →
  sumZ ((λ child, Number.to_Z (totalCost child)) <$> (calculateTotal <$> cs))
  = fold_right (λ c acc, treeSum c + acc) 0 cs.
Proof.
  induction 1 as [|c0 cs [Ht Hb] _ IH]; [done|].
  cbn [fmap list_fmap fold_right]. unfold sumZ in *. cbn [foldr].
  by rewrite IH, Ht, to_Z_of_Z.
Qed.

(** With integer amounts the [totalCost] of a node is the exact sum of
    its [cost] and of the totals of its children. *)
Lemma totalCost_sumZ rows node :
  intRows rows → rowsAbs rows < 2 ^ 53 →
  node ∈ subtrees (processData rows) →
  totalCost node
  = Number.of_Z
      (Number.to_Z (cost node)
       + sumZ ((λ child, Number.to_Z (totalCost child)) <$> children node))
  ∧ Z.abs (Number.to_Z (cost node)
           + sumZ ((λ child, Number.to_Z (totalCost child))
                     <$> children node)) < 2 ^ 53.
Proof.
  intros Hint Hb Hin.
  destruct (ingest_int rows Hint Hb) as (Hi & _ & Habs).
  apply elem_of_subtrees in Hin as [q Hn]; [|apply processData_Shaped].
  unfold processData in Hn. rewrite nodeAt_calculateTotal in Hn.
  destruct (nodeAt q (ingest rows)) as [m0|] eqn:Hm0; [|done].
  injection Hn as <-.
  destruct (nodeAt_int q _ _ Hi Hm0) as [Him Habsm].
  pose proof (treeSum_abs m0) as Hsm.
  rewrite calculateTotal_cost, calculateTotal_children.
  rewrite (sumZ_child_totals _ (child_totals_int m0 Him ltac:(lia))).
  rewrite <- treeSum_unfold. split; [|lia].
  apply calculateTotal_int; [done|lia].
Qed.

(** ** Totals on the way down, for non-negative integer amounts *)

Lemma nodeAt_child q tree node child :
  Shaped 0 tree → nodeAt q tree = Some node → child ∈ children node →
  nodeAt (q ++ [name child]) tree = Some child.
Proof.
  intros Hs Hn Hin.
  pose proof (level_nodeAt _ _ _ _ Hs Hn) as (_ & Hnd & _)%Shaped_inv.
  destruct (findChild_NoDup _ _ Hnd Hin) as [j Hj].
  by rewrite (nodeAt_snoc _ _ _ _ Hn), Hj.
Qed.

Lemma totals_of_node q rows node :
  intRows rows → rowsAbs rows < 2 ^ 53 →
  Forall (λ row, 0 ≤ Number.to_Z (rowCost row)) rows →
  nodeAt q (processData rows) = Some node →
  Number.gt (cost node) (totalCost node) = false
  ∧ Number.gt (totalCost node) (totalCost (processData rows)) = false
  ∧ 0 ≤ Number.to_Z (cost node) ≤ Number.to_Z (totalCost node)
  ∧ Number.to_Z (totalCost node)
    ≤ Number.to_Z (totalCost (processData rows)).
Proof.
  intros Hint Hb Hpos Hn.
  destruct (nodeAt_processData_Z q rows node Hint Hb Hn)
    as (Zc & Zt & Bc & Bt).
  destruct (nodeAt_processData_Z [] rows _ Hint Hb eq_refl)
    as (_ & Zr & _ & Br).
  destruct (nodeAt_processData_int q rows node Hint Hb Hn) as [Ec Et].
  destruct (nodeAt_processData_int [] rows _ Hint Hb eq_refl) as [_ Er].
  assert (L1 : 0 ≤ rowsSum (rowsAt q rows) ≤ rowsSum (rowsThrough q rows)).
  { apply rowsSum_filter_le; [|done]. by intros row ->. }
  assert (L3 : 0 ≤ rowsSum (rowsThrough q rows)
               ≤ rowsSum (rowsThrough [] rows)).
  { apply rowsSum_filter_le; [|done]. intros row _. apply prefix_nil. }
  rewrite Zc, Zt, Zr. rewrite Ec, Et, Er.
  rewrite !gt_of_Z by done. rewrite !Z.ltb_ge. lia.
Qed.

Lemma totals_of_child q nm rows node child :
  intRows rows → rowsAbs rows < 2 ^ 53 →
  Forall (λ row, 0 ≤ Number.to_Z (rowCost row)) rows →
  nodeAt q (processData rows) = Some node →
  nodeAt (q ++ [nm]) (processData rows) = Some child →
  Number.gt (totalCost child) (totalCost node) = false
  ∧ 0 ≤ Number.to_Z (totalCost child) ≤ Number.to_Z (totalCost node).
Proof.
  intros Hint Hb Hpos Hn Hc.
  destruct (nodeAt_processData_Z q rows node Hint Hb Hn)
    as (_ & Zt & _ & Bt).
  destruct (nodeAt_processData_Z (q ++ [nm]) rows child Hint Hb Hc)
    as (_ & Zt' & _ & Bt').
  destruct (nodeAt_processData_int q rows node Hint Hb Hn) as [_ Et].
  destruct (nodeAt_processData_int (q ++ [nm]) rows child Hint Hb Hc)
    as [_ Et'].
  assert (L2 : 0 ≤ rowsSum (rowsThrough (q ++ [nm]) rows)
               ≤ rowsSum (rowsThrough q rows)).
  { apply rowsSum_filter_le; [|done].
    intros row Hp. etrans; [|exact Hp]. by apply prefix_app_r. }
  rewrite Zt, Zt'. rewrite Et, Et'.
  rewrite !gt_of_Z by done. rewrite !Z.ltb_ge. lia.
Qed.

(** ** The scenarios of the specification *)

Example scenario_two_level :
  totalCost (processData rowsTwoLevel) = Number.of_Z 150
  ∧ totalAt ["Food"] (processData rowsTwoLevel) = Some (Number.of_Z 130)
  ∧ name <$> children (nodeOr ["Food"] (processData rowsTwoLevel))
    = ["Lunch"; "Dinner"]
  ∧ totalAt ["Food"; "Lunch"] (processData rowsTwoLevel)
    = Some (Number.of_Z 50)
  ∧ totalAt ["Food"; "Dinner"] (processData rowsTwoLevel)
    = Some (Number.of_Z 80)
  ∧ totalAt ["Transport"] (processData rowsTwoLevel)
    = Some (Number.of_Z 20)
  ∧ children (nodeOr ["Transport"] (processData rowsTwoLevel)) = [].
Proof. split_and!; by vm_compute. Qed.

Example scenario_blank_trimmed :
  rowPath {[ "一级类目" := "  A "; "二级类目" := "   "; "成本" := "1" ]}
  = ["A"].
Proof. by vm_compute. Qed.

Example scenario_amounts :
  JS.parseFloat (Some " 3.5e1kg") = JS.parseFloat (Some "35")
  ∧ JS.parseFloat (Some "-.5") = JS.parseFloat (Some "-0.5")
  ∧ JS.parseFloat (Some "1,234") = Number.of_Z 1
  ∧ JS.parseFloat (Some "") = Number.nan
  ∧ JS.parseFloat (Some "abc12") = Number.nan
  ∧ JS.parseFloat (Some "Infinity") = S754_infinity false.
Proof. split_and!; by vm_compute. Qed.

(** * The claims *)

(** C1 fails as stated, for the equality [===] of the numbers: two
    amounts of 1e308 on "A" add up to [Infinity], two amounts of -1e308
    on "B" add up to [-Infinity], and the [totalCost] of the root is
    [NaN], which is equal to nothing, not even to the sum it was set
    to. *)
Lemma C1_nan_total_counterexample :
  processData rowsOverflow ∈ subtrees (processData rowsOverflow)
  ∧ totalCost (processData rowsOverflow) = Number.nan
  ∧ Number.strict_eq
      (totalCost (processData rowsOverflow))
      (cost (processData rowsOverflow)
       ⊕ sumOfChildTotals (processData rowsOverflow)) = false.
Proof. split; [apply subtrees_self|]. split; by vm_compute. Qed.

(** C1, amended. In the tree returned by [processData], the [totalCost]
    of every node is the same number as its [cost] plus the sum of the
    [totalCost] of its children, the sum being taken from 0 in the order
    of the children; compared with [===], the two are equal whenever the
    total is not [NaN].  That is so at every node when no amount is
    negative, and when the amounts are integers whose absolute values
    add up to less than [2^53]; in this last case the total is the exact
    sum, in the integers, of the [cost] of the node and of the totals of
    its children. *)
Theorem C1_total_is_cost_plus_children (rows : list Row) :
  Forall
    (λ node,
       totalCost node = cost node ⊕ sumOfChildTotals node
       ∧ (totalCost node ≠ Number.nan →
          Number.strict_eq (totalCost node)
            (cost node ⊕ sumOfChildTotals node) = true))
    (subtrees (processData rows))
  ∧ (Forall (λ row, nonNegative (rowCost row) = true) rows →
     Forall
       (λ node,
          Number.strict_eq (totalCost node)
            (cost node ⊕ sumOfChildTotals node) = true)
       (subtrees (processData rows)))
  ∧ (intRows rows → rowsAbs rows < 2 ^ 53 →
     Forall
       (λ node,
          Number.strict_eq (totalCost node)
            (cost node ⊕ sumOfChildTotals node) = true
          ∧ totalCost node
            = Number.of_Z
                (Number.to_Z (cost node)
                 + sumZ ((λ child, Number.to_Z (totalCost child))
                           <$> children node))
          ∧ Number.to_Z (totalCost node)
            = Number.to_Z (cost node)
              + sumZ ((λ child, Number.to_Z (totalCost child))
                        <$> children node))
       (subtrees (processData rows))).
Proof.
  pose proof (total_sum_subtrees (ingest rows)) as Hsum.
  fold (processData rows) in Hsum.
  assert (Heq : ∀ node, node ∈ subtrees (processData rows) →
            totalCost node ≠ Number.nan →
            Number.strict_eq (totalCost node)
              (cost node ⊕ sumOfChildTotals node) = true).
  { intros node Hin Hnan.
    rewrite <- (proj1 (Forall_forall _ _) Hsum node Hin), strict_eq_refl.
    by destruct (totalCost node). }
  split_and!.
  - apply Forall_forall. intros node Hin. split; [|by apply Heq].
    by apply (proj1 (Forall_forall _ _) Hsum).
  - intros Hrows. apply Forall_forall. intros node Hin. apply Heq; [done|].
    pose proof (processData_closed
                  (λ x, Number.bounded_below x ∧ nonNegative x = true)
                  (conj I eq_refl) add_nonNegative rows) as Hall.
    assert (Hrows' : Forall (λ row, Number.bounded_below (rowCost row)
                               ∧ nonNegative (rowCost row) = true) rows).
    { eapply Forall_impl; [exact Hrows|].
      intros row Hrow. split; [apply rowCost_bounded|done]. }
    pose proof (proj1 (Forall_forall _ _) (Hall Hrows') node Hin)
      as [_ [_ Hnn]].
    intros Hnan. by rewrite Hnan in Hnn.
  - intros Hint Hb. apply Forall_forall. intros node Hin.
    destruct (totalCost_sumZ rows node Hint Hb Hin) as [Ht Hbound].
    split_and!; [|done|by rewrite Ht at 1; rewrite to_Z_of_Z].
    apply Heq; [done|]. rewrite Ht. by apply of_Z_not_nan.
Qed.

Lemma C1_total_is_cost_plus_children_witness :
  Forall
    (λ node,
       Number.strict_eq (totalCost node)
         (cost node ⊕ sumOfChildTotals node) = true
       ∧ totalCost node
         = Number.of_Z
             (Number.to_Z (cost node)
              + sumZ ((λ child, Number.to_Z (totalCost child))
                        <$> children node))
       ∧ Number.to_Z (totalCost node)
         = Number.to_Z (cost node)
           + sumZ ((λ child, Number.to_Z (totalCost child))
                     <$> children node))
    (subtrees (processData rowsTwoLevel)).
Proof.
  apply (proj2 (proj2 (C1_total_is_cost_plus_children rowsTwoLevel))).
  - unfold intRows, rowsTwoLevel. repeat apply Forall_cons_2;
      try apply Forall_nil_2; by vm_compute.
  - by vm_compute.
Defined.

(** C2 fails as stated: the rows of amounts 0.1, 0.2, 0.3 give the root a
    [totalCost] of 0.6000000000000001, the same rows in the reverse order
    give it 0.6. *)
Lemma C2_root_total_counterexample :
  rowsTenths ≡ₚ rowsTenthsReversed
  ∧ totalCost (processData rowsTenths)
    ≠ totalCost (processData rowsTenthsReversed).
Proof.
  split.
  - unfold rowsTenths, rowsTenthsReversed.
    rewrite (Permutation_swap (rowNoLevel "0.1")).
    rewrite (Permutation_swap (rowNoLevel "0.1") (rowNoLevel "0.3")).
    by rewrite (Permutation_swap (rowNoLevel "0.2") (rowNoLevel "0.3")).
  - by vm_compute.
Qed.

(** C2, amended. When the amounts of the rows are integers whose absolute
    values add up to less than [2^53] (so that every addition of the
    build is exact), the [totalCost] of the root is the sum of the
    amounts of all the rows (an amount that does not parse counting as
    0), which is also what adding them in row order gives, and it is the
    same for every permutation of the rows. *)
Theorem C2_root_total_integer_amounts (rows : list Row) :
  intRows rows → rowsAbs rows < 2 ^ 53 →
  totalCost (processData rows) = Number.of_Z (rowsSum rows)
  ∧ totalCost (processData rows) = sumCosts rows
  ∧ (∀ rows', rows ≡ₚ rows' →
       totalCost (processData rows') = totalCost (processData rows)).
Proof.
  intros Hint Hb.
  assert (Htotal : ∀ rows0, intRows rows0 → rowsAbs rows0 < 2 ^ 53 →
            totalCost (processData rows0) = Number.of_Z (rowsSum rows0)).
  { intros rows0 Hint0 Hb0.
    destruct (nodeAt_processData_int [] rows0 _ Hint0 Hb0 eq_refl)
      as [_ Ht].
    by rewrite rowsThrough_nil in Ht. }
  split_and!.
  - by apply Htotal.
  - by rewrite sumCosts_int, Htotal.
  - intros rows' Hperm. rewrite !Htotal; try done.
    + by rewrite (rowsSum_Permutation _ _ Hperm).
    + by eapply intRows_Permutation.
    + by rewrite <- (rowsAbs_Permutation _ _ Hperm).
Qed.

Lemma C2_root_total_integer_amounts_witness :
  intRows rowsTwoLevel ∧ rowsAbs rowsTwoLevel < 2 ^ 53
  ∧ totalCost (processData rowsTwoLevel) = Number.of_Z 150.
Proof.
  assert (H1 : intRows rowsTwoLevel) by (repeat constructor).
  assert (H2 : rowsAbs rowsTwoLevel < 2 ^ 53) by by vm_compute.
  split; [exact H1|]. split; [exact H2|].
  exact (proj1 (C2_root_total_integer_amounts rowsTwoLevel H1 H2)).
Defined.

(** C3 fails as stated: three rows on "A" of amounts 0.1, 0.2, 0.3 give
    the node "A" a [cost] of 0.6000000000000001, the same rows in the
    reverse order give it 0.6. *)
Lemma C3_permutation_counterexample :
  rowsOnA ≡ₚ rowsOnAReversed
  ∧ costAt ["A"] (processData rowsOnA)
    ≠ costAt ["A"] (processData rowsOnAReversed).
Proof.
  split.
  - unfold rowsOnA, rowsOnAReversed.
    rewrite (Permutation_swap (rowOn "A" "0.1")).
    rewrite (Permutation_swap (rowOn "A" "0.1") (rowOn "A" "0.3")).
    by rewrite (Permutation_swap (rowOn "A" "0.2") (rowOn "A" "0.3")).
  - by vm_compute.
Qed.

(** C3, amended. The trees built from a row sequence and from a
    permutation of it have a node on the same category paths, with the
    same name and level on each; the order of the children of a node may
    differ.  When moreover the amounts are integers whose absolute values
    add up to less than [2^53] (so that every addition of the build is
    exact), the nodes of a same path have the same [cost] and the same
    [totalCost]. *)
Theorem C3_permutation_of_rows (rows rows' : list Row) :
  rows ≡ₚ rows' →
  (∀ q, is_Some (nodeAt q (processData rows))
        ↔ is_Some (nodeAt q (processData rows')))
  ∧ (∀ q node node',
       nodeAt q (processData rows) = Some node →
       nodeAt q (processData rows') = Some node' →
       name node = name node' ∧ level node = level node'
       ∧ name <$> children node ≡ₚ name <$> children node')
  ∧ (intRows rows → rowsAbs rows < 2 ^ 53 →
     ∀ q node node',
       nodeAt q (processData rows) = Some node →
       nodeAt q (processData rows') = Some node' →
       cost node = cost node' ∧ totalCost node = totalCost node').
Proof.
  intros Hperm. split_and!.
  - intros q. rewrite !nodeAt_processData_is_Some.
    by apply reached_Permutation.
  - intros q node node' Hn Hn'.
    destruct (nodeAt_processData_name_level _ _ _ Hn) as [-> ->].
    destruct (nodeAt_processData_name_level _ _ _ Hn') as [-> ->].
    split_and!; [done..|].
    apply NoDup_Permutation.
    + pose proof (level_nodeAt _ _ _ _ (processData_Shaped rows) Hn)
        as (_ & H & _)%Shaped_inv. done.
    + pose proof (level_nodeAt _ _ _ _ (processData_Shaped rows') Hn')
        as (_ & H & _)%Shaped_inv. done.
    + intros nm.
      rewrite (elem_of_childNames _ _ _ _ Hn), (elem_of_childNames _ _ _ _ Hn').
      by apply reached_Permutation.
  - intros Hint Hb q node node' Hn Hn'.
    destruct (nodeAt_processData_int q rows node Hint Hb Hn) as [-> ->].
    destruct (nodeAt_processData_int q rows' node') as [-> ->];
      [by eapply intRows_Permutation
      |by rewrite <- (rowsAbs_Permutation _ _ Hperm)|done|].
    unfold rowsAt, rowsThrough. split; f_equal;
      apply rowsSum_Permutation; by rewrite Hperm.
Qed.

Lemma C3_permutation_of_rows_witness :
  rowsLunch ≡ₚ reverse rowsLunch
  ∧ intRows rowsLunch ∧ rowsAbs rowsLunch < 2 ^ 53
  ∧ cost (nodeOr ["Food"; "Lunch"] (processData rowsLunch))
    = cost (nodeOr ["Food"; "Lunch"] (processData (reverse rowsLunch)))
  ∧ totalCost (nodeOr ["Food"] (processData rowsLunch))
    = totalCost (nodeOr ["Food"] (processData (reverse rowsLunch))).
Proof.
  assert (H1 : rowsLunch ≡ₚ reverse rowsLunch)
    by (symmetry; apply reverse_Permutation).
  assert (H2 : intRows rowsLunch) by (repeat constructor).
  assert (H3 : rowsAbs rowsLunch < 2 ^ 53) by by vm_compute.
  pose proof (proj2 (proj2 (C3_permutation_of_rows _ _ H1)) H2 H3) as H.
  split; [exact H1|]. split; [exact H2|]. split; [exact H3|]. split.
  - exact (proj1 (H ["Food"; "Lunch"] _ _ eq_refl eq_refl)).
  - exact (proj2 (H ["Food"] _ _ eq_refl eq_refl)).
Defined.

(** C4. When a level of a row is blank, the walk of the row stops at its
    first blank level [k] (the level itself when the levels before it are
    populated), on the node reached by the [k] names before it: the whole
    amount of the row is added to the [cost] of that node, the other nodes
    keep theirs, the only nodes created are on that path, and the cells of
    the deeper levels are not read (two rows that agree up to level [k]
    and on the amount give the same tree).  The row
    [{L1: "A", L2: "", L3: "X"}] of amount 10 puts 10 on "A" and creates
    no node named "X". *)
Theorem C4_blank_level_stops_walk
    (tree : CostNode) (row : Row) (k0 : nat) (key0 : string) :
  levelKeys !! k0 = Some key0 →
  isBlank (rowName row key0) = true →
  (∃ k key,
     (k ≤ k0)%nat
     ∧ levelKeys !! k = Some key ∧ isBlank (rowName row key) = true
     ∧ (∀ j key', (j < k)%nat → levelKeys !! j = Some key' →
          isBlank (rowName row key') = false)
     ∧ ((∀ j key', (j < k0)%nat → levelKeys !! j = Some key' →
           isBlank (rowName row key') = false) → k = k0)
     ∧ let p := omap (rowName row) (take k levelKeys) in
       rowPath row = p
       ∧ length p = k
       ∧ costAt p (processRow tree row)
         = Some (default Number.zero (costAt p tree) ⊕ rowCost row)
       ∧ (∀ q, q ≠ p → is_Some (nodeAt q tree) →
            costAt q (processRow tree row) = costAt q tree)
       ∧ (∀ q, is_Some (nodeAt q (processRow tree row))
            ↔ is_Some (nodeAt q tree) ∨ q `prefix_of` p)
       ∧ (∀ row' : Row,
            (∀ j key', (j ≤ k)%nat → levelKeys !! j = Some key' →
               row' !! key' = row !! key') →
            row' !! costKey = row !! costKey →
            processRow tree row' = processRow tree row))
  ∧ (costAt ["A"] (processData [rowBlankSecond]) = Some (Number.of_Z 10)
     ∧ Forall (λ node, name node ≠ "X")
         (subtrees (processData [rowBlankSecond]))).
Proof.
  intros Hk0 Hb0. split.
  - destruct (rowPathFrom_first_blank row levelKeys k0 key0 Hk0 Hb0)
      as (k & key & Hlen & Hle & Hk & Hb & Hbefore).
    exists k, key. split_and!; [done..| |].
    + intros Hbefore0. rewrite Hlen. symmetry.
      by apply (rowPathFrom_length row levelKeys k0 key0).
    + by apply (processRow_first_blank tree row k key).
  - split; [by vm_compute|].
    vm_compute. repeat constructor; discriminate.
Qed.

Lemma C4_blank_level_stops_walk_witness :
  isBlank (rowName rowBlankSecond "三级类目") = false
  ∧ rowPath rowBlankSecond = ["A"]
  ∧ costAt ["A"] (processRow root rowBlankSecond)
    = Some (Number.zero ⊕ rowCost rowBlankSecond).
Proof.
  destruct (proj1 (C4_blank_level_stops_walk root rowBlankSecond 1
                     "二级类目" eq_refl eq_refl))
    as (k & key & Hle & Hk & Hb & _ & _ & Hp & _ & Hc & _).
  assert (Hpath : rowPath rowBlankSecond = ["A"]) by by vm_compute.
  rewrite <- Hp, Hpath in Hc.
  split; [by vm_compute|]. split; [exact Hpath|exact Hc].
Defined.

(** C5 fails as stated: a row with no level puts its amount on the root,
    whose [cost] is then not 0. *)
Lemma C5_root_cost_counterexample :
  ¬ (level (processData [rowNoLevel "5"]) = 0
     ∧ name (processData [rowNoLevel "5"]) = "Total"
     ∧ cost (processData [rowNoLevel "5"]) = Number.zero).
Proof. intros (_ & _ & Hc). vm_compute in Hc. discriminate Hc. Qed.

(** C5, amended. The root of the tree returned by [processData] has level
    0 and name "Total", and its [cost] is the sum of the amounts of the
    rows whose first level is blank; it is 0 when there is no such row. *)
Theorem C5_root_fields (rows : list Row) :
  level (processData rows) = 0
  ∧ name (processData rows) = "Total"
  ∧ cost (processData rows) = sumCosts (rowsAt [] rows)
  ∧ (Forall (λ row, rowPath row ≠ []) rows →
     cost (processData rows) = Number.zero).
Proof.
  assert (Hc : cost (processData rows) = sumCosts (rowsAt [] rows)).
  { pose proof (costAt_processData [] rows) as H.
    unfold costAt in H. simpl in H. by injection H; [|left]. }
  split_and!.
  - pose proof (processData_Shaped rows) as (? & _)%Shaped_inv. done.
  - unfold processData. by rewrite calculateTotal_name, ingest_name.
  - done.
  - intros Hall. by rewrite Hc, rowsAt_nil.
Qed.

Lemma C5_root_fields_witness :
  Forall (λ row, rowPath row ≠ []) rowsLunch
  ∧ cost (processData rowsLunch) = Number.zero.
Proof.
  assert (H : Forall (λ row, rowPath row ≠ []) rowsLunch).
  { repeat constructor; by vm_compute. }
  split; [exact H|].
  exact (proj2 (proj2 (proj2 (C5_root_fields rowsLunch))) H).
Defined.

(** C6. On the tree returned by [processData], the indexer pushes the
    option of a node below the root exactly when the depth of the node
    (its [level]) is 1, 2 or 3 and its [totalCost] is greater than 0.
    Every option pushed is the option of such a node, so none has a level
    outside 1..3 or a [totalCost] of 0; a node at depth 4 or more is never
    listed, whatever its cost, while its ancestor at depth 3 is listed
    when its [totalCost] is positive. *)
Theorem C6_index_filter (rows : list Row) :
  (∀ q node, q ≠ [] → nodeAt q (processData rows) = Some node →
     level node = Z.of_nat (length q)
     ∧ (optionOf (q, node) ∈ index (processData rows)
        ↔ (1 ≤ length q ≤ 3)%nat
          ∧ Number.gt (totalCost node) Number.zero = true))
  ∧ (∀ o, o ∈ index (processData rows) →
       ∃ q node,
         o = optionOf (q, node) ∧ q ≠ []
         ∧ nodeAt q (processData rows) = Some node
         ∧ CategoryOption.level o = Z.of_nat (length q)
         ∧ 1 ≤ CategoryOption.level o ≤ 3
         ∧ Number.gt (totalCost (CategoryOption.node o)) Number.zero = true
         ∧ ∀ s, totalCost (CategoryOption.node o) ≠ S754_zero s)
  ∧ CategoryOption.name <$> index (processData [rowDeep])
    = ["A"; "A > B"; "A > B > C"].
Proof.
  pose proof (processData_Shaped rows) as Hs.
  assert (Hlevel : ∀ q node, nodeAt q (processData rows) = Some node →
                     level node = Z.of_nat (length q)).
  { intros q node Hn.
    by pose proof (level_nodeAt _ _ _ _ Hs Hn) as (? & _)%Shaped_inv. }
  split_and!.
  - intros q node Hq Hn. split; [by apply Hlevel|].
    rewrite index_descendants by done.
    rewrite (list_elem_of_fmap_inj optionOf).
    rewrite list_elem_of_filter, elem_of_descendants by done.
    unfold listed. simpl. rewrite (Hlevel q node Hn).
    rewrite Is_true_true, !andb_true_iff, !Z.leb_le. split.
    + intros [[[? ?] ?] _]. split; [lia|done].
    + intros [? ?]. split_and!; try done; lia.
  - intros o. rewrite index_descendants by done.
    intros ([q node] & -> & [Hl Hd]%list_elem_of_filter)%list_elem_of_fmap.
    apply elem_of_descendants in Hd as [Hq Hn]; [|done].
    simpl in Hl. unfold listed in Hl.
    rewrite Is_true_true, !andb_true_iff, !Z.leb_le in Hl.
    destruct Hl as [[Hl1 Hl3] Hgt].
    exists q, node. simpl. rewrite <- (Hlevel q node Hn).
    split_and!; try done. by apply gt_zero_not_zero.
  - by vm_compute.
Qed.

Lemma C6_index_filter_witness :
  optionOf (["A"; "B"; "C"], nodeOr ["A"; "B"; "C"] (processData [rowDeep]))
    ∈ index (processData [rowDeep])
  ∧ optionOf
      (["A"; "B"; "C"; "D"],
       nodeOr ["A"; "B"; "C"; "D"] (processData [rowDeep]))
    ∉ index (processData [rowDeep]).
Proof.
  pose proof (proj1 (C6_index_filter [rowDeep])) as H. split.
  - apply (H ["A"; "B"; "C"]); [done|by vm_compute|].
    split; [simpl; lia|by vm_compute].
  - intros Hin. apply (H ["A"; "B"; "C"; "D"]) in Hin as [Hlen _];
      [simpl in Hlen; lia|done|by vm_compute].
Defined.

(** C7. On the tree returned by [processData], the options of the
    indexer are the nodes below the root that pass the filter, in the
    order of the depth-first pre-order listing of the tree (the listing
    of all its nodes below the root): a node before its descendants, the
    children of a node in their order in [children].
    That order is the order of first encounter: the names of the children
    of a node are the names that the rows passing through it follow next,
    each at its first occurrence in the row sequence.  The same rows give
    the same options. *)
Theorem C7_index_is_preorder (rows : list Row) :
  index (processData rows)
  = optionOf <$> filter (λ pn, listed pn.2) (descendants (processData rows))
  ∧ processData rows :: (snd <$> descendants (processData rows))
    = subtrees (processData rows)
  ∧ (∀ q node, nodeAt q (processData rows) = Some node →
       name <$> children node = firstSeen (omap (nextName q) rows))
  ∧ (∀ rows', rows' = rows →
       index (processData rows') = index (processData rows)).
Proof.
  split_and!.
  - apply index_descendants, processData_Shaped.
  - rewrite descendants_subtrees. by destruct (processData rows).
  - intros q node. apply childNames_processData.
  - by intros rows' ->.
Qed.

Lemma C7_index_is_preorder_witness :
  nodeAt [] (processData rowsTwoLevel) = Some (processData rowsTwoLevel)
  ∧ name <$> children (processData rowsTwoLevel) = ["Food"; "Transport"]
  ∧ CategoryOption.name <$> index (processData rowsTwoLevel)
    = ["Food"; "Food > Lunch"; "Food > Dinner"; "Transport"].
Proof.
  pose proof (C7_index_is_preorder rowsTwoLevel) as (H1 & _ & H2 & _).
  split; [done|]. split.
  - rewrite (H2 [] _ eq_refl). by vm_compute.
  - rewrite H1. by vm_compute.
Defined.

(** C8. A row whose amount is absent, or is a text from which
    [parseFloat] reads no number, has the amount 0.  The build goes on:
    the tree of the whole sequence has a node on every prefix of the path
    of the row, every node has the [cost] it has when the row is left out
    of the sequence, and the nodes that only this row creates have the
    [cost] 0.  At the step of the row, the [cost] of the node it reaches
    is what it was before (0 for a node just created).  Nothing fails:
    the build is a total function of the rows. *)
Theorem C8_unparsable_amount (pre post : list Row) (row : Row) :
  row !! costKey = None ∨ JS.parseFloat (row !! costKey) = Number.nan →
  rowCost row = Number.zero
  ∧ (∀ q, q `prefix_of` rowPath row →
       is_Some (nodeAt q (processData (pre ++ row :: post))))
  ∧ (∀ q, reached q (pre ++ post) →
       costAt q (processData (pre ++ row :: post))
       = costAt q (processData (pre ++ post)))
  ∧ (∀ q, ¬ reached q (pre ++ post) → q `prefix_of` rowPath row →
       costAt q (processData (pre ++ row :: post)) = Some Number.zero)
  ∧ costAt (rowPath row) (processRow (ingest pre) row)
    = Some (default Number.zero (costAt (rowPath row) (ingest pre)))
  ∧ ∃ tree, processData (pre ++ row :: post) = tree.
Proof.
  intros Hrow%rowCost_not_a_number. split_and!.
  - done.
  - intros q Hq. apply nodeAt_processData_is_Some, reached_middle.
    by right.
  - intros q Hq. rewrite !costAt_processData;
      [|done|by apply reached_middle; left].
    f_equal. unfold rowsAt. rewrite !filter_app, filter_cons.
    case_decide; [|done]. by apply sumCosts_middle.
  - intros q Hnot Hq. rewrite costAt_processData
      by (apply reached_middle; by right).
    f_equal. unfold rowsAt. rewrite filter_app, filter_cons.
    assert (Hpre : ¬ reached q pre).
    { intros [->|H]; apply Hnot; [by left|right].
      apply Exists_app. by left. }
    assert (Hpost : ¬ reached q post).
    { intros [->|H]; apply Hnot; [by left|right].
      apply Exists_app. by right. }
    apply rowsAt_not_reached in Hpre, Hpost. unfold rowsAt in Hpre, Hpost.
    rewrite Hpre, Hpost. case_decide; [|done].
    unfold sumCosts. simpl. by rewrite Hrow.
  - rewrite processRow_insertPath, costAt_insertPath_end, Hrow. f_equal.
    unfold costAt.
    destruct (nodeAt (rowPath row) (ingest pre)) as [node|] eqn:Hn;
      simpl; [|done].
    apply add_zero_r.
    rewrite <- (nodeOr_Some _ _ _ Hn), cost_nodeOr_ingest.
    apply sumCosts_bounded.
  - by eexists.
Qed.

Lemma C8_unparsable_amount_witness :
  JS.parseFloat (rowNotANumber !! costKey) = Number.nan
  ∧ rowCost rowNotANumber = Number.zero
  ∧ is_Some (nodeAt ["A"; "B"] (processData ([] ++ rowNotANumber :: []))).
Proof.
  assert (H : JS.parseFloat (rowNotANumber !! costKey) = Number.nan)
    by by vm_compute.
  destruct (C8_unparsable_amount [] [] rowNotANumber (or_intror H))
    as (H1 & H2 & _).
  split; [exact H|]. split; [exact H1|].
  apply (H2 ["A"; "B"]). exists []. by vm_compute.
Defined.

(** C9. In the tree returned by [processData] no two children of a node
    have the same name, and the node of a path holds, as its [cost],
    the sum of the amounts of all the rows whose path is that one.  Two
    rows on [Food > Lunch] of amounts 10 and 15 give one child "Lunch"
    under "Food", of [cost] 25. *)
Theorem C9_one_node_per_name (rows : list Row) :
  Forall (λ node, NoDup (name <$> children node))
    (subtrees (processData rows))
  ∧ (∀ q, reached q rows →
       costAt q (processData rows) = Some (sumCosts (rowsAt q rows)))
  ∧ ((name <$> children (nodeOr ["Food"] (processData rowsLunch)))
       = ["Lunch"]
     ∧ costAt ["Food"; "Lunch"] (processData rowsLunch)
       = Some (Number.of_Z 25)).
Proof.
  split_and!.
  - eapply Shaped_subtrees, processData_Shaped.
  - intros q. apply costAt_processData.
  - by vm_compute.
  - by vm_compute.
Qed.

Lemma C9_one_node_per_name_witness :
  reached ["Food"; "Lunch"] rowsLunch
  ∧ costAt ["Food"; "Lunch"] (processData rowsLunch)
    = Some (sumCosts (rowsAt ["Food"; "Lunch"] rowsLunch)).
Proof.
  assert (H : reached ["Food"; "Lunch"] rowsLunch).
  { right. apply Exists_cons_hd. exists []. by vm_compute. }
  split; [exact H|].
  exact (proj1 (proj2 (C9_one_node_per_name rowsLunch)) _ H).
Defined.

(** C10. [parseFloat] reads the longest prefix that is a number, not the
    whole text or nothing: digits followed by characters that cannot
    continue the number give the number of the digits.  The row whose
    amount is the text "12abc" has the amount 12, not 0, and the node it
    reaches gets 12 as its [cost]. *)
Theorem C10_amount_prefix :
  (∀ ds rest,
     ds ≠ "" → allDigits ds = true → endsNumber rest = true →
     JS.parseFloat (Some (ds +:+ rest)) = JS.parseFloat (Some ds))
  ∧ ∃ row : Row,
      row !! costKey = Some "12abc"
      ∧ rowCost row = Number.of_Z 12
      ∧ rowCost row ≠ Number.zero
      ∧ rowPath row = ["A"]
      ∧ costAt ["A"] (processData [row]) = Some (Number.of_Z 12).
Proof.
  split; [apply parseFloat_digits_prefix|].
  exists rowPrefixAmount. split_and!; by vm_compute.
Qed.

Lemma C10_amount_prefix_witness :
  JS.parseFloat (Some ("12" +:+ "abc")) = JS.parseFloat (Some "12").
Proof. by apply (proj1 C10_amount_prefix). Defined.

(** * Further properties *)

(** ** The built tree *)

(** X1. No node of a built tree is deeper than the six level columns:
    the [level] of every node lies between 0 and 6. *)
Theorem X1_levels_within_keys (rows : list Row) :
  Forall (λ node, 0 ≤ level node ≤ 6) (subtrees (processData rows)).
Proof.
  pose proof (processData_Shaped rows) as Hs.
  apply Forall_forall. intros node [q Hn]%elem_of_subtrees; [|done].
  destruct (nodeAt_processData_name_level _ _ _ Hn) as [_ ->].
  assert (Hr : reached q rows) by (by apply nodeAt_processData_is_Some).
  apply reached_length in Hr. lia.
Qed.

(** X2. Every node below the root is named by a level cell: its name is
    the trimmed text that some row has in the level column of the node's
    own level, and it is never the empty text. *)
Theorem X2_names_from_level_cells (rows : list Row) :
  Forall
    (λ node,
       name node ≠ ""
       ∧ ∃ row key,
           row ∈ rows
           ∧ levelKeys !! Z.to_nat (level node - 1) = Some key
           ∧ JS.trim <$> row !! key = Some (name node))
    (flat_map subtrees (children (processData rows))).
Proof.
  pose proof (processData_Shaped rows) as Hs.
  rewrite <- descendants_subtrees. apply Forall_forall.
  intros node ([q m] & -> & Hin)%list_elem_of_fmap. simpl.
  apply elem_of_descendants in Hin as [Hq Hn]; [|done].
  destruct (nodeAt_processData_name_level _ _ _ Hn) as [Hname ->].
  assert (Hr : reached q rows) by (by apply nodeAt_processData_is_Some).
  destruct Hr as [->|(row & Hrow & Hp)%Exists_exists]; [done|].
  assert (name m = lastName q) as -> by (by destruct q).
  pose proof (lastName_lookup q Hq) as Hl.
  eapply prefix_lookup_Some in Hl; [|exact Hp].
  apply rowPathFrom_lookup in Hl as (key & Hkey & Hcell & Hne).
  split; [done|]. exists row, key. split_and!; [done| |done].
  replace (Z.to_nat (Z.of_nat (length q) - 1)) with (length q - 1)%nat
    by lia.
  done.
Qed.

(** X3. A row adds at most one node for each of the six level columns:
    the tree built from [n] rows has at most [1 + 6 n] nodes, the root
    included. *)
Theorem X3_at_most_six_nodes_per_row (rows : list Row) :
  (length (subtrees (processData rows)) ≤ 1 + 6 * length rows)%nat.
Proof.
  unfold processData.
  rewrite subtrees_calculateTotal, length_fmap.
  apply length_subtrees_ingest.
Qed.

(** X4. Rows that come after others only extend the tree.  A node built
    from [rows] is still at the same path, with the same name and level,
    in the tree built from [rows] followed by [more]; the children it had
    come first among its children, in the same order; and its [cost] is
    the former one with the amounts of the rows of [more] that end on it
    added, in their order. *)
Theorem X4_later_rows_only_extend (rows more : list Row) q node :
  nodeAt q (processData rows) = Some node →
  ∃ node',
    nodeAt q (processData (rows ++ more)) = Some node'
    ∧ name node' = name node
    ∧ level node' = level node
    ∧ (name <$> children node) `prefix_of` (name <$> children node')
    ∧ cost node'
      = fold_left (λ sum row, sum ⊕ rowCost row) (rowsAt q more)
          (cost node).
Proof.
  intros Hn.
  assert (Hr : reached q rows)
    by (apply nodeAt_processData_is_Some; by rewrite Hn).
  pose proof (reached_app_l q rows more Hr) as Hr'.
  destruct (proj2 (nodeAt_processData_is_Some q (rows ++ more)) Hr')
    as [node' Hn'].
  exists node'. split; [done|].
  destruct (nodeAt_processData_name_level _ _ _ Hn) as [-> ->].
  destruct (nodeAt_processData_name_level _ _ _ Hn') as [-> ->].
  split_and!; try done.
  - rewrite (childNames_processData _ _ _ Hn).
    rewrite (childNames_processData _ _ _ Hn').
    rewrite omap_app. apply firstSeen_app_prefix.
  - pose proof (costAt_processData q rows Hr) as Hc.
    pose proof (costAt_processData q (rows ++ more) Hr') as Hc'.
    unfold costAt in Hc, Hc'. rewrite Hn in Hc. rewrite Hn' in Hc'.
    simpl in Hc, Hc'. injection Hc as Hc. injection Hc' as Hc'.
    by rewrite Hc, Hc', rowsAt_app, sumCosts_app.
Qed.

Lemma X4_later_rows_only_extend_witness :
  ∃ node',
    nodeAt ["Food"] (processData (rowsLunch ++ rowsTwoLevel)) = Some node'
    ∧ name node' = "Food"
    ∧ level node' = 1
    ∧ ["Lunch"] `prefix_of` (name <$> children node')
    ∧ cost node' = Number.zero.
Proof.
  destruct (X4_later_rows_only_extend rowsLunch rowsTwoLevel ["Food"]
              (nodeOr ["Food"] (processData rowsLunch)))
    as (node' & H1 & H2 & H3 & H4 & H5); [by vm_compute|].
  exists node'. split_and!; [done..|].
  rewrite H5. by vm_compute.
Defined.

(** X5. A node of a built tree has no child exactly when every row whose
    walk passes through it ends on it.  In particular the root has no
    child exactly when the first level of every row is blank, and no row
    at all gives the root alone, with costs 0. *)
Theorem X5_leaves (rows : list Row) q node :
  nodeAt q (processData rows) = Some node →
  children node = []
  ↔ Forall (λ row, q `prefix_of` rowPath row → rowPath row = q) rows.
Proof.
  intros Hn.
  transitivity (name <$> children node = []).
  - split; [by intros ->|apply fmap_nil_inv].
  - rewrite (childNames_processData _ _ _ Hn), firstSeen_nil, omap_nil.
    apply Forall_iff. intros row. apply nextName_None.
Qed.

Lemma X5_leaves_witness :
  children (processData [rowNoLevel "5"; rowNoLevel "7"]) = []
  ∧ processData [] = root.
Proof.
  split.
  - apply (X5_leaves [rowNoLevel "5"; rowNoLevel "7"] []); [done|].
    repeat apply Forall_cons_2; try apply Forall_nil_2;
      intros _; by vm_compute.
  - by vm_compute.
Defined.

(** X6. The finalisation pass can be run again without changing
    anything, and it works subtree by subtree: the node at a path of the
    finalised tree is the finalisation of the node at that path, so a
    [totalCost] depends on nothing outside the subtree of its node. *)
Theorem X6_finalisation_is_local_and_stable (tree : CostNode) :
  calculateTotal (calculateTotal tree) = calculateTotal tree
  ∧ ∀ q, nodeAt q (calculateTotal tree) = calculateTotal <$> nodeAt q tree.
Proof.
  split; [apply calculateTotal_idemp|].
  intros q. apply nodeAt_calculateTotal.
Qed.

(** ** Amounts that are non-negative integers *)

(** X7. With amounts that are non-negative integers (adding up to less
    than [2^53]), totals shrink on the way down.  At every node of the
    built tree, with or without children, the [cost] is not above the
    [totalCost] of the node, and this [totalCost] is not above that of
    the root; and every child of the node has a [totalCost] that is not
    above that of the node.  This holds for the comparison [>] of the
    numbers as for their integer values. *)
Theorem X7_totals_shrink_downwards (rows : list Row) :
  intRows rows → rowsAbs rows < 2 ^ 53 →
  Forall (λ row, 0 ≤ Number.to_Z (rowCost row)) rows →
  Forall
    (λ node,
       Number.gt (cost node) (totalCost node) = false
       ∧ Number.gt (totalCost node) (totalCost (processData rows)) = false
       ∧ 0 ≤ Number.to_Z (cost node) ≤ Number.to_Z (totalCost node)
       ∧ Number.to_Z (totalCost node)
         ≤ Number.to_Z (totalCost (processData rows))
       ∧ Forall
           (λ child,
              Number.gt (totalCost child) (totalCost node) = false
              ∧ 0 ≤ Number.to_Z (totalCost child)
                  ≤ Number.to_Z (totalCost node))
           (children node))
    (subtrees (processData rows)).
Proof.
  intros Hint Hb Hpos. pose proof (processData_Shaped rows) as Hs.
  apply Forall_forall. intros node [q Hn]%elem_of_subtrees; [|done].
  destruct (totals_of_node q rows node Hint Hb Hpos Hn)
    as (H1 & H2 & [H3 H3'] & H4).
  split_and!; try done.
  apply Forall_forall. intros child Hchild.
  pose proof (nodeAt_child q _ node child Hs Hn Hchild) as Hc.
  apply (totals_of_child q (name child) rows node child); done.
Qed.

Lemma X7_totals_shrink_downwards_witness :
  Forall
    (λ node,
       Number.gt (cost node) (totalCost node) = false
       ∧ Number.gt (totalCost node) (totalCost (processData rowsTwoLevel))
         = false
       ∧ 0 ≤ Number.to_Z (cost node) ≤ Number.to_Z (totalCost node)
       ∧ Number.to_Z (totalCost node)
         ≤ Number.to_Z (totalCost (processData rowsTwoLevel))
       ∧ Forall
           (λ child,
              Number.gt (totalCost child) (totalCost node) = false
              ∧ 0 ≤ Number.to_Z (totalCost child)
                  ≤ Number.to_Z (totalCost node))
           (children node))
    (subtrees (processData rowsTwoLevel)).
Proof.
  apply (X7_totals_shrink_downwards rowsTwoLevel).
  - unfold intRows, rowsTwoLevel. repeat apply Forall_cons_2;
      try apply Forall_nil_2; by vm_compute.
  - by vm_compute.
  - unfold rowsTwoLevel. repeat apply Forall_cons_2;
      try apply Forall_nil_2; by vm_compute.
Defined.

(** X8. With amounts that are non-negative integers (adding up to less
    than [2^53]), the options are closed under parents: when the node of
    a path of two or three names is listed, the node of the path without
    its last name is listed too. *)
Theorem X8_options_closed_under_parents (rows : list Row) q nm node child :
  intRows rows → rowsAbs rows < 2 ^ 53 →
  Forall (λ row, 0 ≤ Number.to_Z (rowCost row)) rows →
  q ≠ [] →
  nodeAt q (processData rows) = Some node →
  nodeAt (q ++ [nm]) (processData rows) = Some child →
  optionOf (q ++ [nm], child) ∈ index (processData rows) →
  optionOf (q, node) ∈ index (processData rows).
Proof.
  intros Hint Hb Hpos Hq Hn Hc.
  rewrite (elem_of_index (q ++ [nm]) rows child) by (done || by destruct q).
  rewrite (elem_of_index q rows node) by done.
  rewrite length_app. simpl. intros [Hlen Hgt].
  split; [destruct q; [done|simpl in *; lia]|].
  destruct (nodeAt_processData_Z q rows node Hint Hb Hn)
    as (_ & _ & _ & Bt).
  destruct (nodeAt_processData_Z (q ++ [nm]) rows child Hint Hb Hc)
    as (_ & _ & _ & Bt').
  destruct (nodeAt_processData_int q rows node Hint Hb Hn) as [_ Et].
  destruct (nodeAt_processData_int (q ++ [nm]) rows child Hint Hb Hc)
    as [_ Et'].
  assert (L2 : 0 ≤ rowsSum (rowsThrough (q ++ [nm]) rows)
               ≤ rowsSum (rowsThrough q rows)).
  { apply rowsSum_filter_le; [|done].
    intros row Hp. etrans; [|exact Hp]. by apply prefix_app_r. }
  rewrite Et' in Hgt. rewrite Et.
  change Number.zero with (Number.of_Z 0) in *.
  rewrite gt_of_Z in Hgt |- * by (done || by vm_compute).
  apply Z.ltb_lt in Hgt. apply Z.ltb_lt. lia.
Qed.

Lemma X8_options_closed_under_parents_witness :
  optionOf (["Food"], nodeOr ["Food"] (processData rowsTwoLevel))
    ∈ index (processData rowsTwoLevel).
Proof.
  refine (X8_options_closed_under_parents rowsTwoLevel ["Food"] "Lunch"
            _ (nodeOr ["Food"; "Lunch"] (processData rowsTwoLevel))
            _ _ _ _ _ _ _).
  - unfold intRows, rowsTwoLevel. repeat apply Forall_cons_2;
      try apply Forall_nil_2; by vm_compute.
  - by vm_compute.
  - unfold rowsTwoLevel. repeat apply Forall_cons_2;
      try apply Forall_nil_2; by vm_compute.
  - done.
  - by vm_compute.
  - by vm_compute.
  - apply (elem_of_index ["Food"; "Lunch"] rowsTwoLevel); [done| |].
    + by vm_compute.
    + split; [simpl; lia|by vm_compute].
Defined.

(** The hypothesis on the sign is needed: a category whose own amount is
    -10 and whose sub-category has the amount 10 is not listed, while the
    sub-category is. *)
Example options_without_parent :
  CategoryOption.name <$> index (processData rowsCancelling) = ["A > B"].
Proof. by vm_compute. Qed.

(** ** The category filter *)

(** X9. No category is listed twice: the paths of the options indexed
    from a built tree are pairwise distinct. *)
Theorem X9_option_paths_distinct (rows : list Row) :
  NoDup (CategoryOption.path <$> index (processData rows)).
Proof. apply NoDup_path_index, processData_Shaped. Qed.

(** X10. When no name of a row holds the character [>], the names of the
    options indexed from the built tree (their paths joined by [" > "])
    are pairwise distinct, so that an option is identified by its
    name. *)
Theorem X10_option_names_distinct (rows : list Row) :
  plainNames rows →
  NoDup (CategoryOption.name <$> index (processData rows)).
Proof. apply NoDup_name_index. Qed.

Lemma X10_option_names_distinct_witness :
  NoDup (CategoryOption.name <$> index (processData rowsTwoLevel)).
Proof.
  apply X10_option_names_distinct.
  apply (bool_decide_unpack _). by vm_compute.
Defined.

(** Without the hypothesis two options can have the same name: the paths
    [A >], [B] and [A], [> B] are both joined into ["A > > B"]. *)
Example option_names_can_collide :
  CategoryOption.name <$> index (processData rowsSameJoin)
  = ["A >"; "A > > B"; "A"; "A > > B"].
Proof. by vm_compute. Qed.

(** X11. Choosing an option of the list shows its node.  When no name of
    a row holds the character [>], and for an option whose name is
    neither ["root"] nor the label of the first entry, [find] returns
    the option for its own name, and [displayData] is a new root named
    ["Root"], of level 0 and cost 0, with the node of the option as its
    only child and the [totalCost] of that node as its own. *)
Theorem X11_selection_shows_the_node (rows : list Row) o :
  plainNames rows →
  o ∈ index (processData rows) →
  CategoryOption.name o ≠ "root" →
  CategoryOption.name o ≠ "全部（根节点）" →
  findOption (CategoryOption.name o)
    (categoryOptionsOf (Some (processData rows))) = Some o
  ∧ displayData (Some (processData rows)) (CategoryOption.name o)
    = Some {| name := "Root"; level := 0; cost := Number.zero;
              children := [CategoryOption.node o];
              totalCost := totalCost (CategoryOption.node o) |}.
Proof.
  intros Hplain Hin Hroot Hlabel.
  pose proof (NoDup_name_index rows Hplain) as Hnd.
  destruct (list_find_NoDup CategoryOption.name _ o Hnd Hin) as [i Hi].
  assert (Hfind : findOption (CategoryOption.name o)
                    (categoryOptionsOf (Some (processData rows))) = Some o).
  { unfold findOption, categoryOptionsOf, categoryOptions.
    cbn [list_find CategoryOption.name].
    rewrite decide_False by (by intros Heq; apply Hlabel).
    by rewrite Hi. }
  split; [done|].
  unfold displayData. rewrite decide_False by done. by rewrite Hfind.
Qed.

Lemma X11_selection_shows_the_node_witness :
  displayData (Some (processData rowsTwoLevel)) "Food > Lunch"
  = Some {| name := "Root"; level := 0; cost := Number.zero;
            children :=
              [nodeOr ["Food"; "Lunch"] (processData rowsTwoLevel)];
            totalCost := Number.of_Z 50 |}.
Proof.
  refine (proj2 (X11_selection_shows_the_node rowsTwoLevel
                   (optionOf (["Food"; "Lunch"],
                              nodeOr ["Food"; "Lunch"]
                                (processData rowsTwoLevel))) _ _ _ _)).
  - apply (bool_decide_unpack _). by vm_compute.
  - apply (elem_of_index ["Food"; "Lunch"] rowsTwoLevel); [done| |].
    + by vm_compute.
    + split; [simpl; lia|by vm_compute].
  - by vm_compute.
  - by vm_compute.
Defined.

(** X12. Whatever is selected, a loaded tree is displayed, and which one
    is fixed by the selection.  For the initial selection ["root"], and
    for a name that no option has, it is the built tree itself.  For any
    other selection it is a new root around the node of the first option
    of the list that has the selected name.  The displayed tree keeps the
    sums: at every node [totalCost] is [cost] plus the sum of the
    [totalCost] of the children, and no two children of a node have the
    same name.  The first entry of the list is not the initial selection:
    choosing it shows the built tree as the only child of a new root.
    With no tree loaded nothing is displayed. *)
Theorem X12_displayed_tree (rows : list Row) (selectedCategory : string) :
  (∃ shown,
     displayData (Some (processData rows)) selectedCategory = Some shown
     ∧ (selectedCategory = "root"
        ∨ selectedCategory
            ∉ CategoryOption.name <$> categoryOptions (processData rows) →
        shown = processData rows)
     ∧ (selectedCategory ≠ "root" →
        ∀ i o,
          categoryOptions (processData rows) !! i = Some o →
          CategoryOption.name o = selectedCategory →
          (∀ j o', (j < i)%nat →
             categoryOptions (processData rows) !! j = Some o' →
             CategoryOption.name o' ≠ selectedCategory) →
          shown = {| name := "Root"; level := 0; cost := Number.zero;
                     children := [CategoryOption.node o];
                     totalCost := totalCost (CategoryOption.node o) |})
     ∧ Forall
         (λ node, totalCost node = cost node ⊕ sumOfChildTotals node)
         (subtrees shown)
     ∧ Forall (λ node, NoDup (name <$> children node)) (subtrees shown))
  ∧ displayData (Some (processData rows)) "全部（根节点）"
    = Some {| name := "Root"; level := 0; cost := Number.zero;
              children := [processData rows];
              totalCost := totalCost (processData rows) |}
  ∧ displayData None selectedCategory = None.
Proof.
  set (tree := processData rows).
  assert (Hagg : Forall
            (λ node, totalCost node = cost node ⊕ sumOfChildTotals node)
            (subtrees tree)) by apply total_sum_subtrees.
  assert (Hnd : Forall (λ node, NoDup (name <$> children node))
                  (subtrees tree))
    by (eapply Shaped_subtrees, processData_Shaped).
  assert (Hnode : ∀ o, o ∈ categoryOptions tree →
            CategoryOption.node o ∈ subtrees tree).
  { intros o [->|Hin]%elem_of_cons.
    - apply subtrees_self.
    - by apply elem_of_index_any in Hin as (_ & _ & _ & _ & _ & ?). }
  split_and!; [|done..].
  unfold displayData. case_decide as Hroot.
  { exists tree. by split_and!. }
  unfold findOption, categoryOptionsOf.
  destruct (list_find _ (categoryOptions tree)) as [[i o]|] eqn:Hf.
  - apply list_find_Some in Hf as (Hi & Hname & Hfirst).
    pose proof (list_elem_of_lookup_2 _ _ _ Hi) as Hin.
    cbn [fmap option_fmap option_map snd].
    exists (onlyChild (CategoryOption.node o)).
    pose proof (subtrees_subtrees _ _ (Hnode o Hin)) as Hsub.
    split_and!; [done| | | |].
    + intros [?|Hnot]; [done|]. destruct Hnot. rewrite <- Hname.
      by apply list_elem_of_fmap_2.
    + intros _ i' o' Hi' Hname' Hfirst'.
      destruct (Nat.lt_trichotomy i' i) as [Hlt|[->|Hgt]].
      * by destruct (Hfirst i' o' Hi' Hlt).
      * by simplify_eq.
      * by destruct (Hfirst' i o Hgt Hi).
    + cbn [onlyChild subtrees children flat_map]. rewrite app_nil_r.
      apply Forall_cons. split.
      * unfold sumOfChildTotals.
        cbn [totalCost cost children fmap list_fmap sumFromLeft].
        assert (Hz : totalCost (CategoryOption.node o) ≠ Number.neg_zero)
          by (by apply (totalCost_not_neg_zero rows), Hnode).
        by rewrite !(add_zero_l _ Hz).
      * apply Forall_forall. intros m Hm.
        by apply (proj1 (Forall_forall _ _) Hagg), Hsub.
    + cbn [onlyChild subtrees children flat_map]. rewrite app_nil_r.
      apply Forall_cons. split.
      * cbn. apply NoDup_singleton.
      * apply Forall_forall. intros m Hm.
        by apply (proj1 (Forall_forall _ _) Hnd), Hsub.
  - apply list_find_None in Hf.
    exists tree. split_and!; try done.
    intros _ i' o' Hi' Hname' _.
    by destruct (proj1 (Forall_forall _ _) Hf o'
                   (list_elem_of_lookup_2 _ _ _ Hi')).
Qed.

Lemma X12_displayed_tree_witness :
  ∃ shown,
    displayData (Some (processData rowsTwoLevel)) "Food > Lunch"
    = Some shown
    ∧ shown
      = {| name := "Root"; level := 0; cost := Number.zero;
           children :=
             [nodeOr ["Food"; "Lunch"] (processData rowsTwoLevel)];
           totalCost := Number.of_Z 50 |}.
Proof.
  destruct (proj1 (X12_displayed_tree rowsTwoLevel "Food > Lunch"))
    as (shown & Hshown & _ & Hfirst & _).
  exists shown. split; [done|].
  apply (Hfirst ltac:(done) 2%nat
           (optionOf (["Food"; "Lunch"],
                      nodeOr ["Food"; "Lunch"]
                        (processData rowsTwoLevel)))).
  - by vm_compute.
  - by vm_compute.
  - intros j o' Hj Ho'.
    destruct j as [|[|j]]; [| |lia]; vm_compute in Ho'; by simplify_eq.
Defined.

(** X13. The label of an option can always be built, for any tree of
    integer levels, built by [processData] or not: the level of a listed
    node is at least 1, so [repeat] never gets a negative count, and the
    path of a listed node is never empty, so the name shown is the name
    of the node (for the first entry, its own fixed name). *)
Theorem X13_labels (tree : CostNode) :
  Forall
    (λ o,
       indent o
       = Some (if CategoryOption.level o =? 0 then ""
               else String.concat ""
                      (replicate (Z.to_nat (CategoryOption.level o - 1))
                         "　") +:+ "├─ ")
       ∧ displayName o
         = Some (if CategoryOption.level o =? 0 then "全部（根节点）"
                 else name (CategoryOption.node o)))
    (categoryOptions tree).
Proof.
  apply Forall_cons. split; [done|].
  apply Forall_forall. intros o (Hl & _ & Hlast & _)%elem_of_index_any.
  unfold indent, displayName, stringRepeat.
  assert ((CategoryOption.level o =? 0) = false) as -> by lia.
  assert ((CategoryOption.level o - 1 <? 0) = false) as -> by lia.
  done.
Qed.

(** ** Numbers made by additions *)

(** X14. Every [cost] and every [totalCost] of a built tree is made from
    0 and the amounts of the rows by additions alone: a property of
    numbers that 0 and every amount have, and that a sum has when its two
    terms have it, holds for the [cost] and the [totalCost] of every
    node. *)
Theorem X14_numbers_are_sums_of_amounts (P : number → Prop) (rows : list Row) :
  P Number.zero →
  (∀ x y, P x → P y → P (x ⊕ y)) →
  Forall (λ row, P (rowCost row)) rows →
  Forall (λ node, P (cost node) ∧ P (totalCost node))
    (subtrees (processData rows)).
Proof. intros Hzero Hadd. by apply processData_closed. Qed.

Lemma X14_numbers_are_sums_of_amounts_witness :
  Forall
    (λ node,
       Number.bounded_below (cost node)
       ∧ Number.bounded_below (totalCost node))
    (subtrees (processData rowsTenths)).
Proof.
  apply (X14_numbers_are_sums_of_amounts Number.bounded_below rowsTenths).
  - done.
  - apply add_bounded.
  - unfold rowsTenths. repeat apply Forall_cons_2; try apply Forall_nil_2;
      by vm_compute.
Defined.

(** X15. When no amount is negative ([amount >= 0] holds for every row,
    whole or fractional, [Infinity] included), no [cost] and no
    [totalCost] of the built tree is negative, and none is [NaN]:
    [cost >= 0] and [totalCost >= 0] hold at every node. *)
Theorem X15_non_negative_amounts (rows : list Row) :
  Forall (λ row, nonNegative (rowCost row) = true) rows →
  Forall
    (λ node,
       nonNegative (cost node) = true ∧ nonNegative (totalCost node) = true
       ∧ cost node ≠ Number.nan ∧ totalCost node ≠ Number.nan)
    (subtrees (processData rows)).
Proof.
  intros Hrows.
  pose proof (processData_closed
                (λ x, Number.bounded_below x ∧ nonNegative x = true)
                (conj I eq_refl) add_nonNegative rows) as Hall.
  eapply Forall_impl; [apply Hall|].
  - eapply Forall_impl; [exact Hrows|].
    intros row Hrow. split; [apply rowCost_bounded|done].
  - intros node [[_ Hc] [_ Ht]]. split_and!; try done.
    + by intros Heq; rewrite Heq in Hc.
    + by intros Heq; rewrite Heq in Ht.
Qed.

Lemma X15_non_negative_amounts_witness :
  Forall
    (λ node,
       nonNegative (cost node) = true ∧ nonNegative (totalCost node) = true
       ∧ cost node ≠ Number.nan ∧ totalCost node ≠ Number.nan)
    (subtrees (processData rowsOnA)).
Proof.
  apply X15_non_negative_amounts.
  unfold rowsOnA. repeat apply Forall_cons_2; try apply Forall_nil_2;
    by vm_compute.
Defined.

(** ** Colours *)

(** X16. The colour of [getCostColor] follows the ratio: among leaves as
    among branches, a ratio that is at least another one ([<=]) gets a
    colour that is at least as far in the palette, from the colour of
    the low ratios to that of the high ones.  A ratio that is [NaN] (a
    total of 0 divided by a total of 0) gets the colour of the low
    ratios. *)
Theorem X16_colour_follows_ratio (isLeaf : bool) (r1 r2 : number) :
  lessEq r1 r2 = true →
  (colourRank isLeaf (getCostColor r1 isLeaf)
   ≤ colourRank isLeaf (getCostColor r2 isLeaf))%nat
  ∧ getCostColor Number.nan isLeaf = default "" (head (palette isLeaf)).
Proof.
  intros Hle. split; [|by destruct isLeaf].
  pose proof (λ c, gt_lessEq c r1 r2) as Hgt.
  unfold getCostColor. destruct isLeaf.
  - destruct (Number.gt r1 (Number.of_decimal false 15 (-2))) eqn:H1;
      [rewrite (Hgt _ H1 Hle); by vm_compute|].
    destruct (Number.gt r1 (Number.of_decimal false 8 (-2))) eqn:H2;
      [rewrite (Hgt _ H2 Hle);
       destruct (Number.gt r2 _); vm_compute; lia|].
    destruct (Number.gt r1 (Number.of_decimal false 4 (-2))) eqn:H3;
      [rewrite (Hgt _ H3 Hle);
       repeat destruct (Number.gt r2 _); vm_compute; lia|].
    destruct (Number.gt r1 (Number.of_decimal false 2 (-2))) eqn:H4;
      [rewrite (Hgt _ H4 Hle);
       repeat destruct (Number.gt r2 _); vm_compute; lia|].
    repeat destruct (Number.gt r2 _); vm_compute; lia.
  - destruct (Number.gt r1 (Number.of_decimal false 3 (-1))) eqn:H1;
      [rewrite (Hgt _ H1 Hle); by vm_compute|].
    destruct (Number.gt r1 (Number.of_decimal false 15 (-2))) eqn:H2;
      [rewrite (Hgt _ H2 Hle);
       destruct (Number.gt r2 _); vm_compute; lia|].
    destruct (Number.gt r1 (Number.of_decimal false 8 (-2))) eqn:H3;
      [rewrite (Hgt _ H3 Hle);
       repeat destruct (Number.gt r2 _); vm_compute; lia|].
    repeat destruct (Number.gt r2 _); vm_compute; lia.
Qed.

Lemma X16_colour_follows_ratio_witness :
  (colourRank true (getCostColor (Number.of_decimal false 5 (-2)) true)
   ≤ colourRank true (getCostColor (Number.of_decimal false 1 (-1)) true))%nat.
Proof.
  apply (X16_colour_follows_ratio true). by vm_compute.
Defined.

(** X17. What [ThreeTree] draws as a leaf.  In a tree built from amounts
    that are non-negative integers (adding up to less than [2^53]), a
    branch is drawn as a leaf exactly when the [totalCost] of its node is
    its [cost], that is when nothing below the node costs anything.  The
    detail panel calls a node a leaf only when it has no child at all;
    such a node is also drawn as a leaf, while a node whose children all
    have a [totalCost] of 0 is drawn as a leaf and described as a
    branch. *)
Theorem X17_drawn_as_a_leaf (rows : list Row) q node :
  intRows rows → rowsAbs rows < 2 ^ 53 →
  Forall (λ row, 0 ≤ Number.to_Z (rowCost row)) rows →
  nodeAt q (processData rows) = Some node →
  (Branch.isLeaf node = true ↔ totalCost node = cost node)
  ∧ (NodeDetailPanel.isLeaf node = true → Branch.isLeaf node = true).
Proof.
  intros Hint Hb Hpos Hn. split.
  - rewrite <- (validChildren_nil rows q node Hint Hb Hpos Hn).
    unfold Branch.isLeaf. rewrite bool_decide_eq_true.
    apply length_zero_iff_nil.
  - unfold NodeDetailPanel.isLeaf, Branch.isLeaf, Branch.validChildren.
    rewrite !bool_decide_eq_true. intros Hnil%length_zero_iff_nil.
    by rewrite Hnil.
Qed.

Lemma X17_drawn_as_a_leaf_witness :
  Branch.isLeaf (nodeOr ["A"] (processData rowsZeroChild)) = true
  ∧ NodeDetailPanel.isLeaf (nodeOr ["A"] (processData rowsZeroChild))
    = false.
Proof.
  split; [|by vm_compute].
  refine (proj2 (proj1 (X17_drawn_as_a_leaf rowsZeroChild ["A"] _ _ _ _ _))
            _).
  - unfold intRows, rowsZeroChild. repeat apply Forall_cons_2;
      try apply Forall_nil_2; by vm_compute.
  - by vm_compute.
  - unfold rowsZeroChild. repeat apply Forall_cons_2;
      try apply Forall_nil_2; by vm_compute.
  - by vm_compute.
  - by vm_compute.
Defined.

(** ** What is read of a row, for the tree *)

(** X18. The tree depends on a row only through the trimmed texts of its
    six level cells and through its parsed amount: two sequences of rows
    that agree on these, row by row, give the same tree.  Other columns
    are never read, white space around a name does not count, and
    neither does the way an amount is written. *)
Theorem X18_only_levels_and_amount (rows rows' : list Row) :
  Forall2
    (λ row row',
       (∀ key, key ∈ levelKeys →
          JS.trim <$> row !! key = JS.trim <$> row' !! key)
       ∧ JS.parseFloat (row !! costKey) = JS.parseFloat (row' !! costKey))
    rows rows' →
  processData rows = processData rows'.
Proof.
  intros Hrows. unfold processData, ingest. f_equal.
  generalize root.
  induction Hrows as [|row row' rows rows' [Hnames Hcost] _ IH];
    intros tree; [done|].
  cbn [fold_left]. rewrite IH. f_equal.
  rewrite !processRow_insertPath. unfold rowPath, rowCost.
  by rewrite Hcost, (rowPathFrom_ext row row' levelKeys Hnames).
Qed.

Lemma X18_only_levels_and_amount_witness :
  processData rowsSpaced = processData rowsPlain.
Proof.
  apply X18_only_levels_and_amount.
  unfold rowsSpaced, rowsPlain. apply Forall2_cons_2; [|constructor].
  split; [|by vm_compute].
  intros key Hkey. unfold levelKeys in Hkey.
  repeat (apply elem_of_cons in Hkey as [->|Hkey]; [by vm_compute|]).
  by apply elem_of_nil in Hkey.
Defined.
